(** * CoolCode: a shallow embedding of [main.py]

    The program is a PyQt5 editor: a regular-expression highlighter, a
    line-number gutter, open/save of the buffer and a "run buffer" action.
    Each part of [main.py] that the specification talks about is embedded
    below as an executable definition; what the program obtains from its
    environment (the Qt toolkit, the file system, the locale, the [python]
    executable, Python's codecs) is modelled explicitly and kept apart from
    the program's own functions. *)

From Stdlib Require Import ZArith Bool String Ascii Lia Arith Sorted.
From Stdlib Require Import Strings.Byte QArith DecimalString List.
Import ListNotations.

Local Open Scope Z_scope.

(** ** Text, bytes and Python's text codecs *)

(** A Python [str] is a sequence of code points. *)
Definition text := list Z.

Definition LF : Z := 10.
Definition CR : Z := 13.

Definition byte_val (b : byte) : Z := Z.of_N (Byte.to_N b).

Definition mk_byte (z : Z) : byte :=
  match Byte.of_N (Z.to_N z) with
  | Some b => b
  | None => x00
  end.

(** Code points of a literal, for writing examples. *)
Definition str (s : string) : text :=
  map (fun a => Z.of_N (N_of_ascii a)) (list_ascii_of_string s).

(** Bytes of a literal. *)
Definition bytes_of (s : string) : list byte := list_byte_of_string s.

Module Codec.

(** The three encodings the program can meet: the two it names in
    [open_file] and the usual preferred encodings of a locale. *)
Inductive encoding := utf_8 | latin_1 | cp1252.

Definition is_surrogate (c : Z) : bool := (0xD800 <=? c) && (c <=? 0xDFFF).

(** Code points that the codec [utf-8] accepts (Unicode scalar values). *)
Definition is_scalar (c : Z) : bool :=
  (0 <=? c) && (c <=? 0x10FFFF) && negb (is_surrogate c).

Definition is_cont (b : Z) : bool := (0x80 <=? b) && (b <=? 0xBF).

Definition utf8_encode_char (c : Z) : option (list byte) :=
  if negb (is_scalar c) then None
  else if c <? 0x80 then Some [mk_byte c]
  else if c <? 0x800 then
    Some [mk_byte (0xC0 + c / 64); mk_byte (0x80 + c mod 64)]
  else if c <? 0x10000 then
    Some [mk_byte (0xE0 + c / 4096); mk_byte (0x80 + (c / 64) mod 64);
          mk_byte (0x80 + c mod 64)]
  else
    Some [mk_byte (0xF0 + c / 262144); mk_byte (0x80 + (c / 4096) mod 64);
          mk_byte (0x80 + (c / 64) mod 64); mk_byte (0x80 + c mod 64)].

Fixpoint encode_with (f : Z -> option (list byte)) (s : text)
  : option (list byte) :=
  match s with
  | [] => Some []
  | c :: r =>
      match f c, encode_with f r with
      | Some bs, Some rest => Some (bs ++ rest)
      | _, _ => None
      end
  end.

(** Strict UTF-8: shortest form only, no surrogates, nothing above
    U+10FFFF; any other byte sequence is a decode error. *)
Fixpoint utf8_decode (bs : list byte) : option text :=
  match bs with
  | [] => Some []
  | b0 :: r0 =>
      let v0 := byte_val b0 in
      if v0 <? 0x80 then option_map (cons v0) (utf8_decode r0)
      else if (0xC2 <=? v0) && (v0 <=? 0xDF) then
        match r0 with
        | b1 :: r1 =>
            let v1 := byte_val b1 in
            if is_cont v1
            then option_map (cons ((v0 - 0xC0) * 64 + (v1 - 0x80)))
                            (utf8_decode r1)
            else None
        | _ => None
        end
      else if (0xE0 <=? v0) && (v0 <=? 0xEF) then
        match r0 with
        | b1 :: b2 :: r2 =>
            let v1 := byte_val b1 in
            let v2 := byte_val b2 in
            let c := (v0 - 0xE0) * 4096 + (v1 - 0x80) * 64 + (v2 - 0x80) in
            if is_cont v1 && is_cont v2 && (0x800 <=? c)
               && negb (is_surrogate c)
            then option_map (cons c) (utf8_decode r2)
            else None
        | _ => None
        end
      else if (0xF0 <=? v0) && (v0 <=? 0xF4) then
        match r0 with
        | b1 :: b2 :: b3 :: r3 =>
            let v1 := byte_val b1 in
            let v2 := byte_val b2 in
            let v3 := byte_val b3 in
            let c := (v0 - 0xF0) * 262144 + (v1 - 0x80) * 4096
                     + (v2 - 0x80) * 64 + (v3 - 0x80) in
            if is_cont v1 && is_cont v2 && is_cont v3
               && (0x10000 <=? c) && (c <=? 0x10FFFF)
            then option_map (cons c) (utf8_decode r3)
            else None
        | _ => None
        end
      else None
  end.

(** Latin-1 maps byte [b] to code point [b], and back below 256. *)
Definition latin1_decode (bs : list byte) : text := map byte_val bs.

Definition latin1_encode_char (c : Z) : option (list byte) :=
  if (0 <=? c) && (c <? 256) then Some [mk_byte c] else None.

(** Windows-1252 differs from Latin-1 on 0x80..0x9F; five of those bytes
    are undefined. *)
Definition cp1252_high : list (Z * Z) :=
  [ (0x80, 0x20AC); (0x82, 0x201A); (0x83, 0x0192); (0x84, 0x201E);
    (0x85, 0x2026); (0x86, 0x2020); (0x87, 0x2021); (0x88, 0x02C6);
    (0x89, 0x2030); (0x8A, 0x0160); (0x8B, 0x2039); (0x8C, 0x0152);
    (0x8E, 0x017D); (0x91, 0x2018); (0x92, 0x2019); (0x93, 0x201C);
    (0x94, 0x201D); (0x95, 0x2022); (0x96, 0x2013); (0x97, 0x2014);
    (0x98, 0x02DC); (0x99, 0x2122); (0x9A, 0x0161); (0x9B, 0x203A);
    (0x9C, 0x0153); (0x9E, 0x017E); (0x9F, 0x0178) ].

Definition cp1252_decode_byte (b : byte) : option Z :=
  let v := byte_val b in
  if (0x80 <=? v) && (v <=? 0x9F)
  then option_map snd (find (fun p => fst p =? v) cp1252_high)
  else Some v.

Fixpoint cp1252_decode (bs : list byte) : option text :=
  match bs with
  | [] => Some []
  | b :: r =>
      match cp1252_decode_byte b, cp1252_decode r with
      | Some c, Some s => Some (c :: s)
      | _, _ => None
      end
  end.

Definition cp1252_encode_char (c : Z) : option (list byte) :=
  if ((0 <=? c) && (c <? 0x80)) || ((0xA0 <=? c) && (c <=? 0xFF))
  then Some [mk_byte c]
  else option_map (fun p => [mk_byte (fst p)])
                  (find (fun p => snd p =? c) cp1252_high).

Definition decode (enc : encoding) (bs : list byte) : option text :=
  match enc with
  | utf_8 => utf8_decode bs
  | latin_1 => Some (latin1_decode bs)
  | cp1252 => cp1252_decode bs
  end.

Definition encode (enc : encoding) (s : text) : option (list byte) :=
  match enc with
  | utf_8 => encode_with utf8_encode_char s
  | latin_1 => encode_with latin1_encode_char s
  | cp1252 => encode_with cp1252_encode_char s
  end.

(** Code points below 128. *)
Definition is_ascii (c : Z) : bool := (0 <=? c) && (c <? 128).

Definition encode_char (enc : encoding) (c : Z) : option (list byte) :=
  match enc with
  | utf_8 => utf8_encode_char c
  | latin_1 => latin1_encode_char c
  | cp1252 => cp1252_encode_char c
  end.

(** [os.fsencode]: the encoding of the file system with the error handler
    [surrogateescape].  A character that the codec cannot encode is an
    error, except the code points U+DC80..U+DCFF, which stand for the
    bytes 0x80..0xFF. *)
Definition fsencode_char (enc : encoding) (c : Z) : option (list byte) :=
  match encode_char enc c with
  | Some bs => Some bs
  | None =>
      if (0xDC80 <=? c) && (c <=? 0xDCFF) then Some [mk_byte (c - 0xDC00)]
      else None
  end.

Definition fsencode (enc : encoding) (s : text) : option (list byte) :=
  encode_with (fsencode_char enc) s.

(** Reading in text mode with the default [newline=None]: the sequences
    CR LF and CR both come out as LF. *)
Fixpoint universal_newlines (s : text) : text :=
  match s with
  | [] => []
  | c :: r =>
      if c =? CR then
        LF :: match r with
              | d :: r' =>
                  if d =? LF then universal_newlines r'
                  else universal_newlines r
              | [] => []
              end
      else c :: universal_newlines r
  end.

(** Writing in text mode with the default [newline=None]: every LF is
    written as the platform's line separator. *)
Definition translate_newlines (linesep : text) (s : text) : text :=
  flat_map (fun c => if c =? LF then linesep else [c]) s.

End Codec.
Import Codec.


(** ** Qt geometry *)

Module Geometry.

(** [QRect(x, y, width, height)], integer coordinates. *)
Record QRect := { rx : Z; ry : Z; rwidth : Z; rheight : Z }.

(** [QRectF(x, y, width, height)]; a [qreal] is taken to be a rational
    number. *)
Record QRectF := { fx : Q; fy : Q; fwidth : Q; fheight : Q }.

(** [QRectF(rect)] *)
Definition QRectF_of (r : QRect) : QRectF :=
  {| fx := inject_Z (rx r); fy := inject_Z (ry r);
     fwidth := inject_Z (rwidth r); fheight := inject_Z (rheight r) |}.

(** [rect.translated(offset)] *)
Definition translated (r : QRectF) (offset : Q * Q) : QRectF :=
  {| fx := (fx r + fst offset)%Q; fy := (fy r + snd offset)%Q;
     fwidth := fwidth r; fheight := fheight r |}.

Definition Qlt_bool (a b : Q) : bool := negb (Qle_bool b a).

(** The two ends of a side that starts at [p] and has extent [w]. *)
Definition side (p w : Q) : Q * Q :=
  if Qlt_bool w 0 then ((p + w)%Q, p) else (p, (p + w)%Q).

(** [QRectF::intersects]: on each axis both sides are non-empty and
    overlap in more than a point. *)
Definition intersects (a b : QRectF) : bool :=
  let (l1, r1) := side (fx a) (fwidth a) in
  let (l2, r2) := side (fx b) (fwidth b) in
  let (t1, b1) := side (fy a) (fheight a) in
  let (t2, b2) := side (fy b) (fheight b) in
  negb (Qeq_bool l1 r1) && negb (Qeq_bool l2 r2)
  && Qlt_bool l1 r2 && Qlt_bool l2 r1
  && negb (Qeq_bool t1 b1) && negb (Qeq_bool t2 b2)
  && Qlt_bool t1 b2 && Qlt_bool t2 b1.

(** Python's [int(x)] on a float: rounding towards zero. *)
Definition int (x : Q) : Z := Z.quot (Qnum x) (Zpos (Qden x)).

End Geometry.
Import Geometry.

(** ** The Python runtime: values, exceptions, results, state *)

Module Py.

(** The values that reach the slots of the editor as [rect]. *)
Inductive pyobj :=
| PyNone
| PyInt (n : Z)
| PyQRect (r : QRect)
| PyQRectF (r : QRectF)
| PyStr (s : string).

(** The kinds of [OSError]: three subclasses, the plain [OSError] of
    errno [E2BIG] (argument list too long), and any other errno. *)
Inductive oserror :=
| FileNotFoundError
| PermissionError
| IsADirectoryError
| E2BIG
| Errno (errno : Z).

(** The exceptions the modelled library calls can raise.  All of them
    derive from [Exception]. *)
Inductive exn :=
| UnicodeDecodeError (enc : encoding)
| UnicodeEncodeError (enc : encoding)
| OSError (kind : oserror) (filename : string)
| ValueError (msg : string)
| AttributeError (obj : pyobj) (attribute : string)
| CalledProcessError (returncode : Z) (output : text).

Definition is_UnicodeDecodeError (e : exn) : bool :=
  match e with UnicodeDecodeError _ => true | _ => false end.

Definition is_CalledProcessError (e : exn) : bool :=
  match e with CalledProcessError _ _ => true | _ => false end.

Definition is_OSError (e : exn) : bool :=
  match e with OSError _ _ => true | _ => false end.

Definition is_Exception (e : exn) : bool := true.

(** A call returns, raises, or never comes back (it waits for a process
    that does not exit). *)
Inductive result (A : Type) :=
| Ok (a : A)
| Raise (e : exn)
| NoReturn.
Arguments Ok {A} a.
Arguments Raise {A} e.
Arguments NoReturn {A}.

(** A computation over a state [S] returns, raises or never comes back;
    the state it leaves behind survives when it returns or raises. *)
Definition M (S A : Type) : Type := S -> result A * S.

Definition ret {S A} (a : A) : M S A := fun s => (Ok a, s).

Definition raise {S A} (e : exn) : M S A := fun s => (Raise e, s).

Definition bind {S A B} (m : M S A) (k : A -> M S B) : M S B :=
  fun s =>
    match m s with
    | (Ok a, s') => k a s'
    | (Raise e, s') => (Raise e, s')
    | (NoReturn, s') => (NoReturn, s')
    end.

(** [try: body except cls as e: handler e]; an exception outside [cls]
    goes on to the caller. *)
Definition try_except {S A} (body : M S A) (cls : exn -> bool)
           (handler : exn -> M S A) : M S A :=
  fun s =>
    match body s with
    | (Ok a, s') => (Ok a, s')
    | (Raise e, s') => if cls e then handler e s' else (Raise e, s')
    | (NoReturn, s') => (NoReturn, s')
    end.

Definition get {S} : M S S := fun s => (Ok s, s).
Definition modify {S} (f : S -> S) : M S unit := fun s => (Ok tt, f s).

(** The pieces of an f-string: literal text, and the replacement fields
    [{e}], [{type(v)}] and [{v}]. *)
Inductive fpart :=
| Lit (s : string)
| FExn (e : exn)
| FType (v : pyobj)
| FValue (v : pyobj).

Definition fstring := list fpart.

End Py.
Import Py.

Declare Scope py_scope.
Delimit Scope py_scope with py.
Notation "x <- m ;; k" := (bind m (fun x => k))
  (at level 61, m at next level, right associativity) : py_scope.
Notation "m ;; k" := (bind m (fun _ => k))
  (at level 61, right associativity) : py_scope.
Notation "'try' body 'except' cls 'as' e => handler" :=
  (try_except body cls (fun e => handler))
  (at level 62, body at level 61, cls at level 9, e name,
   handler at level 62) : py_scope.

(** ** The environment of the process: files, locale, interpreter *)

Module Env.

(** What a name stands for: no file, in a directory where one can be
    created; no file, the directory of the name being missing; no file, in
    a directory that may not be written; a directory; a file. *)
Inductive entry :=
| NoEntry
| NoDirectory
| ReadOnlyDirectory
| Directory
| File (readable writable : bool) (content : list byte).

Definition FS := string -> entry.

(** A run of the interpreter on a program text.  It is given the number
    of runs made so far, which stands for the clock and whatever else
    differs from one run to the next, and the files it finds.  It never
    exits, or it exits with a status, the bytes it wrote to stdout and
    stderr, and the files as it leaves them. *)
Definition process := text -> nat -> FS -> option (Z * list byte * FS).

(** What starting the executable [python] gives: a process, or the error
    with which the system refuses (no such file, no permission to execute
    it, no resources for another process). *)
Inductive interpreter :=
| CannotStart (kind : oserror)
| Starts (run : process).

Inductive mode :=
| Read (enc : encoding)      (* open(name, 'r', encoding=enc) *)
| Write.                     (* open(name, 'w') *)

Record World := {
  files : FS;
  (* what other processes do to the files, one step before each [open] *)
  events : list (FS -> FS);
  (* the calls of [open] so far, oldest first *)
  opened : list (string * mode);
  (* locale.getpreferredencoding(False) *)
  preferred_encoding : encoding;
  (* os.linesep *)
  linesep : text;
  (* sys.getfilesystemencoding(), under which process arguments are
     encoded *)
  filesystem_encoding : encoding;
  (* the largest argument, in bytes, that the system lets a process be
     started with *)
  arg_max : Z;
  (* what starting [python] gives *)
  python : interpreter;
  (* the runs of it so far *)
  runs : nat
}.

Definition with_files (w : World) (fs : FS) (ev : list (FS -> FS))
           (log : list (string * mode)) : World :=
  {| files := fs; events := ev; opened := log;
     preferred_encoding := preferred_encoding w;
     linesep := linesep w;
     filesystem_encoding := filesystem_encoding w;
     arg_max := arg_max w; python := python w; runs := runs w |}.

(** The world after a run of the interpreter that left the files [fs]. *)
Definition after_run (w : World) (fs : FS) : World :=
  {| files := fs; events := events w; opened := opened w;
     preferred_encoding := preferred_encoding w;
     linesep := linesep w;
     filesystem_encoding := filesystem_encoding w;
     arg_max := arg_max w; python := python w; runs := S (runs w) |}.

Definition update (fs : FS) (name : string) (e : entry) : FS :=
  fun n => if String.eqb n name then e else fs n.

(** The environment takes its next step, and the call is logged. *)
Definition enter_open (name : string) (m : mode) (w : World) : World :=
  match events w with
  | [] => with_files w (files w) [] (opened w ++ [(name, m)])
  | f :: ev => with_files w (f (files w)) ev (opened w ++ [(name, m)])
  end.

Definition quiet (w : World) : Prop := events w = [].

End Env.
Import Env.

(** ** MainWindow *)

Module MainWindow.

Record App := {
  (* self.editor.toPlainText() *)
  document : text;
  (* what [print] wrote, oldest first *)
  console : list fstring;
  (* the text given to each output window shown, oldest first *)
  output_windows : list text;
  world : World
}.

Definition with_document (a : App) (s : text) : App :=
  {| document := s; console := console a;
     output_windows := output_windows a; world := world a |}.

Definition with_console (a : App) (c : list fstring) : App :=
  {| document := document a; console := c;
     output_windows := output_windows a; world := world a |}.

Definition with_windows (a : App) (ws : list text) : App :=
  {| document := document a; console := console a;
     output_windows := ws; world := world a |}.

Definition with_world (a : App) (w : World) : App :=
  {| document := document a; console := console a;
     output_windows := output_windows a; world := w |}.

Local Open Scope py_scope.

(** *** Library calls *)

(** What Qt makes of a text on its way through a document.  Inserting
    the text starts a new block at every LF, CR LF, CR, U+2029, U+FDD0 and
    U+FDD1; [toPlainText()] gives each block separator and U+2028 back as
    LF and U+00A0 as a space. *)
Definition plain_char (c : Z) : Z :=
  if (c =? 0x2028) || (c =? 0x2029) || (c =? 0xFDD0) || (c =? 0xFDD1)
  then LF
  else if c =? 0xA0 then 0x20
  else c.

Definition plain_text (s : text) : text :=
  map plain_char (universal_newlines s).

Definition toPlainText : M App text :=
  fun a => (Ok (document a), a).

(** After [setPlainText(s)], [toPlainText()] returns [plain_text s]. *)
Definition setPlainText (s : text) : M App unit :=
  modify (fun a => with_document a (plain_text s)).

Definition print (line : fstring) : M App unit :=
  modify (fun a => with_console a (console a ++ [line])).

(** An open text file: its name, how it was opened, and for reading the
    bytes found. *)
Record TextIO := { name : string; opened_as : mode; data : list byte }.

(** [open(file_name, 'r', encoding=enc)] and [open(file_name, 'w')]. *)
Definition open_ (file_name : string) (m : mode) : M App TextIO :=
  fun a =>
    let w := enter_open file_name m (world a) in
    let a' := with_world a w in
    match m, files w file_name with
    | _, NoEntry =>
        match m with
        | Read _ => (Raise (OSError FileNotFoundError file_name), a')
        | Write =>
            (Ok {| name := file_name; opened_as := m; data := [] |},
             with_world a
               (with_files w (update (files w) file_name (File true true []))
                           (events w) (opened w)))
        end
    | _, NoDirectory => (Raise (OSError FileNotFoundError file_name), a')
    | _, ReadOnlyDirectory =>
        match m with
        | Read _ => (Raise (OSError FileNotFoundError file_name), a')
        | Write => (Raise (OSError PermissionError file_name), a')
        end
    | _, Directory => (Raise (OSError IsADirectoryError file_name), a')
    | Read _, File r _ bs =>
        if r then (Ok {| name := file_name; opened_as := m; data := bs |}, a')
        else (Raise (OSError PermissionError file_name), a')
    | Write, File r wr _ =>
        if wr
        then (Ok {| name := file_name; opened_as := m; data := [] |},
              with_world a
                (with_files w (update (files w) file_name (File r true []))
                            (events w) (opened w)))
        else (Raise (OSError PermissionError file_name), a')
    end.

(** [file.read()] on a file opened for reading. *)
Definition read (file : TextIO) : M App text :=
  match opened_as file with
  | Read enc =>
      match decode enc (data file) with
      | Some s => ret (universal_newlines s)
      | None => raise (UnicodeDecodeError enc)
      end
  | Write => raise (ValueError "not readable")
  end.

(** [file.write(s)] on a file opened with [open(name, 'w')]: the text is
    encoded under the locale's preferred encoding. *)
Definition write (file : TextIO) (s : text) : M App unit :=
  match opened_as file with
  | Write =>
      fun a =>
        let w := world a in
        let enc := preferred_encoding w in
        match encode enc (translate_newlines (linesep w) s) with
        | Some bs =>
            let e := match files w (name file) with
                     | File r wr old => File r wr (old ++ bs)
                     | other => other
                     end in
            (Ok tt, with_world a
                      (with_files w (update (files w) (name file) e)
                                  (events w) (opened w)))
        | None => (Raise (UnicodeEncodeError enc), a)
        end
  | Read _ => raise (ValueError "not writable")
  end.

(** What [text=True] makes of the bytes captured from the process: text
    under the locale's preferred encoding, newlines translated. *)
Definition captured (w : World) (out : list byte) : option text :=
  option_map universal_newlines (decode (preferred_encoding w) out).

(** [subprocess.check_output(['python', '-c', code],
      stderr=subprocess.STDOUT, text=True)], where processes are started
    with [fork] and [exec].  The arguments are first encoded for the
    system: a character that cannot be encoded, then a NUL (which only a
    NUL character gives), is an error before anything is started.  Then
    [python] is started, unless the system refuses it or refuses an
    argument that is too long.  The call waits for the process to exit,
    decodes what it wrote, and only then looks at the exit status. *)
Definition check_output (code : text) : M App text :=
  fun a =>
    let w := world a in
    match fsencode (filesystem_encoding w) code with
    | None => (Raise (UnicodeEncodeError (filesystem_encoding w)), a)
    | Some arg =>
        if existsb (Z.eqb 0) code
        then (Raise (ValueError "embedded null byte"), a)
        else
          match python w with
          | CannotStart kind => (Raise (OSError kind "python"), a)
          | Starts run =>
              if arg_max w <? Z.of_nat (List.length arg)
              then (Raise (OSError E2BIG "python"), a)
              else
                match run code (runs w) (files w) with
                | None => (NoReturn, a)
                | Some (returncode, out, fs) =>
                    let a' := with_world a (after_run w fs) in
                    match captured w out with
                    | None =>
                        (Raise (UnicodeDecodeError (preferred_encoding w)),
                         a')
                    | Some output =>
                        if returncode =? 0 then (Ok output, a')
                        else (Raise (CalledProcessError returncode output),
                              a')
                    end
                end
          end
    end.

(** [e.output] *)
Definition output (e : exn) : text :=
  match e with
  | CalledProcessError _ out => out
  | _ => []
  end.

(** The output window: a read-only [QTextEdit] holding [output]. *)
Definition show_output_window (output : text) : M App unit :=
  modify (fun a => with_windows a (output_windows a ++ [output])).

Definition nonempty (s : string) : bool := negb (String.eqb s "").

(** *** The program's own methods *)

(** [run_code], lines 169-182. *)
Definition run_code : M App unit :=
  code <- toPlainText ;;
  output <- (try check_output code
             except is_CalledProcessError as e => ret (output e)) ;;
  show_output_window output.

(** [save_file], lines 184-189; [file_name] is what the save dialog
    returned (empty when cancelled). *)
Definition save_file (file_name : string) : M App unit :=
  if nonempty file_name then
    file <- open_ file_name Write ;;
    s <- toPlainText ;;
    write file s
  else ret tt.

(** The block that both attempts of [open_file] run, lines 195-196 and
    199-200:
    [with open(file_name, 'r', encoding=enc) as file:
         self.editor.setPlainText(file.read())]. *)
Definition load (file_name : string) (enc : encoding) : M App unit :=
  file <- open_ file_name (Read enc) ;;
  s <- read file ;;
  setPlainText s.

(** [open_file], lines 191-202; [file_name] is what the open dialog
    returned (empty when cancelled). *)
Definition open_file (file_name : string) : M App unit :=
  if nonempty file_name then
    try load file_name utf_8
    except is_UnicodeDecodeError as _e =>
      (try load file_name latin_1
       except is_Exception as e =>
         print [Lit "Error opening file: "; FExn e])
  else ret tt.

End MainWindow.

(** ** QRegExp *)

Module QRegExp.

(** A [QString] is a sequence of UTF-16 code units. *)
Definition QChar := Z.
Definition QString := list QChar.

(** The character tables of the toolkit ([QChar::isDigit] and the like)
    are outside the program; everything below takes them as given. *)
Record Unicode := {
  isDigit : QChar -> bool;
  isSpace : QChar -> bool;
  isLetterOrNumber : QChar -> bool;
  isMark : QChar -> bool
}.

Definition chr (s : string) : QChar :=
  match s with
  | String a _ => Z.of_N (N_of_ascii a)
  | EmptyString => 0
  end.

Definition dquote : QChar := 34.
Definition squote : QChar := 39.

(** The fragment of the pattern language that the program's patterns use. *)
Inductive regex :=
| Eps                          (* the empty pattern *)
| Chr (c : QChar)              (* a literal character *)
| Dot                          (* .   any character *)
| NotChr (c : QChar)           (* [^c] *)
| Digit                        (* \d *)
| Word                         (* \w *)
| Space                        (* \s *)
| Boundary                     (* \b *)
| Cat (a b : regex)            (* ab *)
| Star (a : regex)             (* a* *)
| Plus (a : regex)             (* a+ *)
| Opt (a : regex).             (* a? *)

(** A pattern without special characters matches itself. *)
Definition lit (s : string) : regex :=
  fold_right (fun c r => Cat (Chr c) r) Eps (str s).

(** The pattern text of a [regex], to compare with the source. *)
Definition show_char (c : QChar) : string :=
  String (ascii_of_N (Z.to_N c)) EmptyString.

Definition is_cat (r : regex) : bool :=
  match r with Cat _ _ => true | _ => false end.

Fixpoint show (r : regex) : string :=
  let group a :=
    if is_cat a then ("(" ++ show a ++ ")")%string else show a in
  match r with
  | Eps => ""
  | Chr c => if Z.eqb c (chr ".") then "\." else show_char c
  | Dot => "."
  | NotChr c => "[^" ++ show_char c ++ "]"
  | Digit => "\d"
  | Word => "\w"
  | Space => "\s"
  | Boundary => "\b"
  | Cat a b => show a ++ show b
  | Star a => group a ++ "*"
  | Plus a => group a ++ "+"
  | Opt a => group a ++ "?"
  end%string.

(** The least number of characters a match of the pattern takes. *)
Fixpoint min_len (r : regex) : nat :=
  match r with
  | Eps | Boundary | Star _ | Opt _ => 0
  | Chr _ | Dot | NotChr _ | Digit | Word | Space => 1
  | Cat a b => min_len a + min_len b
  | Plus a => min_len a
  end.

Section Matching.

Variable U : Unicode.

Definition isWord (c : QChar) : bool :=
  isLetterOrNumber U c || isMark U c || (c =? chr "_").

Definition word_at (t : QString) (i : nat) : bool :=
  match nth_error t i with
  | Some c => isWord c
  | None => false
  end.

(** [\b]: exactly one of the characters before and after position [i] is
    a word character. *)
Definition boundary (t : QString) (i : nat) : bool :=
  let before := match i with O => false | S j => word_at t j end in
  let after := word_at t i in
  negb (Bool.eqb before after).

Definition one_char (p : QChar -> bool) (t : QString) (i : nat) : list nat :=
  match nth_error t i with
  | Some c => if p c then [S i] else []
  | None => []
  end.

(** Iterating a pattern: [step i] are the positions one iteration can
    reach from [i]; an iteration that consumes nothing adds nothing. *)
Fixpoint star_from (step : nat -> list nat) (fuel : nat) (i : nat)
  : list nat :=
  i :: match fuel with
       | O => []
       | S fuel' =>
           flat_map (fun j => if (i <? j)%nat
                              then star_from step fuel' j else [])
                    (step i)
       end.

(** [ends r t i]: the positions [j] such that [r] matches [t] from
    position [i] up to position [j]. *)
Fixpoint ends (r : regex) (t : QString) (i : nat) : list nat :=
  match r with
  | Eps => [i]
  | Chr c => one_char (Z.eqb c) t i
  | Dot => one_char (fun _ => true) t i
  | NotChr c => one_char (fun d => negb (d =? c)) t i
  | Digit => one_char (isDigit U) t i
  | Word => one_char isWord t i
  | Space => one_char (isSpace U) t i
  | Boundary => if boundary t i then [i] else []
  | Cat a b => flat_map (ends b t) (ends a t i)
  | Star a => star_from (ends a t) (length t) i
  | Plus a => flat_map (star_from (ends a t) (length t)) (ends a t i)
  | Opt a => i :: ends a t i
  end.

(** What it means for a pattern to match [t] from position [i] up to
    position [j]: the usual reading of the operators. *)
Inductive Matches (t : QString) : regex -> nat -> nat -> Prop :=
| MEps : forall i, Matches t Eps i i
| MChr : forall c i, nth_error t i = Some c -> Matches t (Chr c) i (S i)
| MDot : forall c i, nth_error t i = Some c -> Matches t Dot i (S i)
| MNotChr : forall c d i,
    nth_error t i = Some d -> d <> c -> Matches t (NotChr c) i (S i)
| MDigit : forall c i,
    nth_error t i = Some c -> isDigit U c = true -> Matches t Digit i (S i)
| MWord : forall c i,
    nth_error t i = Some c -> isWord c = true -> Matches t Word i (S i)
| MSpace : forall c i,
    nth_error t i = Some c -> isSpace U c = true -> Matches t Space i (S i)
| MBoundary : forall i, boundary t i = true -> Matches t Boundary i i
| MCat : forall a b i j k,
    Matches t a i j -> Matches t b j k -> Matches t (Cat a b) i k
| MStarNil : forall a i, Matches t (Star a) i i
| MStarCons : forall a i j k,
    Matches t a i j -> Matches t (Star a) j k -> Matches t (Star a) i k
| MPlus : forall a i j k,
    Matches t a i j -> Matches t (Star a) j k -> Matches t (Plus a) i k
| MOptNil : forall a i, Matches t (Opt a) i i
| MOptOne : forall a i j, Matches t a i j -> Matches t (Opt a) i j.

(** The engine reports the longest match at a position. *)
Definition longest (i : nat) (es : list nat) : option nat :=
  match es with
  | [] => None
  | e :: r => Some (fold_left Nat.max r e - i)%nat
  end.

(** The first of the positions [i], [i+1], ..., [i+n] with a match. *)
Fixpoint search (r : regex) (t : QString) (n : nat) (i : nat)
  : option (nat * nat) :=
  match longest i (ends r t i) with
  | Some len => Some (i, len)
  | None =>
      match n with
      | O => None
      | S n' => search r t n' (S i)
      end
  end.

(** [expression.indexIn(text, offset)] followed by
    [expression.matchedLength()]: the position of the first match at or
    after [offset] and its length, or -1 and -1. *)
Definition indexIn (r : regex) (t : QString) (offset : Z) : Z * Z :=
  let len := Z.of_nat (length t) in
  let offset := if offset <? 0 then offset + len else offset in
  if (offset <? 0) || (len <? offset) then (-1, -1)
  else
    match search r t (length t - Z.to_nat offset) (Z.to_nat offset) with
    | Some (i, l) => (Z.of_nat i, Z.of_nat l)
    | None => (-1, -1)
    end.

End Matching.

(** The toolkit's tables on U+0000..U+007F, for running examples on
    ASCII text. *)
Definition between (lo hi c : Z) : bool := (lo <=? c) && (c <=? hi).

Definition basic_latin : Unicode := {|
  isDigit := between 48 57;
  isSpace := fun c => between 9 13 c || (c =? 32);
  isLetterOrNumber :=
    fun c => between 48 57 c || between 65 90 c || between 97 122 c;
  isMark := fun _ => false
|}.

End QRegExp.
Import QRegExp.

(** ** PythonSyntaxHighlighter *)

Module PythonSyntaxHighlighter.

Inductive QColor := blue | green | red | orange | cyan.

(** A [QTextCharFormat] of which only the foreground is set. *)
Definition QTextCharFormat := QColor.

Definition rule := (regex * QTextCharFormat)%type.

(** [create_rule], lines 30-34. *)
Definition create_rule (patterns : list regex) (color : QColor)
           (highlighting_rules : list rule) : list rule :=
  let format := color in
  fold_left (fun rules pattern => rules ++ [(pattern, format)])
            patterns highlighting_rules.

Definition keywords : list string :=
  [ "def"; "class"; "import"; "from"; "as"; "return"; "if"; "elif"; "else";
    "while"; "for"; "break"; "continue"; "try"; "except"; "finally";
    "raise"; "with"; "lambda"; "yield" ]%string.

(** [#.*] *)
Definition comment_pattern : regex := Cat (Chr (chr "#")) (Star Dot).

(** The two string patterns of line 24: a quote character [q], then
    [[^q]*], then [q] again; once for the double and once for the single
    quote. *)
Definition quoted (q : QChar) : regex :=
  Cat (Chr q) (Cat (Star (NotChr q)) (Chr q)).

(** The number pattern of line 26: a word boundary, digits, optionally a
    dot and more digits, a word boundary. *)
Definition number_pattern : regex :=
  Cat Boundary
      (Cat (Plus Digit)
           (Cat (Opt (Cat (Chr (chr ".")) (Star Digit))) Boundary)).

(** [\bdef\s+\w+] and [\bclass\s+\w+] *)
Definition named (kw : string) : regex :=
  Cat Boundary (Cat (lit kw) (Cat (Plus Space) (Plus Word))).

(** [__init__], lines 14-28: the rules in the order of registration. *)
Definition highlighting_rules : list rule :=
  create_rule [named "def"; named "class"] cyan
    (create_rule [number_pattern] orange
       (create_rule [quoted dquote; quoted squote] red
          (create_rule [comment_pattern] green
             (create_rule (map lit keywords) blue [])))).

(** What the highlighter holds for the block being formatted: the format
    of each character, and the calls of [setFormat] so far. *)
Record Block := {
  formatChanges : list (option QTextCharFormat);
  spans : list (Z * Z * QTextCharFormat)
}.

Definition fresh (t : QString) : Block :=
  {| formatChanges := repeat None (length t); spans := [] |}.

Fixpoint fill (i start end_ : Z) (format : QTextCharFormat)
         (l : list (option QTextCharFormat)) : list (option QTextCharFormat) :=
  match l with
  | [] => []
  | x :: r =>
      (if (start <=? i) && (i <? end_) then Some format else x)
        :: fill (i + 1) start end_ format r
  end.

(** [QSyntaxHighlighter::setFormat(start, count, format)]: nothing
    happens for a start outside the block; the range is cut at its end. *)
Definition setFormat (start count : Z) (format : QTextCharFormat)
           (b : Block) : Block :=
  let n := Z.of_nat (length (formatChanges b)) in
  {| formatChanges :=
       if (start <? 0) || (n <=? start) then formatChanges b
       else fill 0 start (Z.min (start + count) n) format (formatChanges b);
     spans := spans b ++ [(start, count, format)] |}.

Section Highlight.

Variable U : Unicode.

(** The [while] loop of lines 40-43, entered with the result of the last
    [indexIn]; [None] when [fuel] iterations did not end it. *)
Fixpoint scan (fuel : nat) (expression : regex) (text : QString)
         (format : QTextCharFormat) (index length : Z) (b : Block)
  : option Block :=
  if index <? 0 then Some b
  else
    match fuel with
    | O => None
    | S fuel' =>
        let b' := setFormat index length format b in
        let (index', length') := indexIn U expression text (index + length) in
        scan fuel' expression text format index' length' b'
    end.

(** The body of the [for] loop, lines 38-43. *)
Definition apply_rule (fuel : nat) (text : QString) (r : rule) (b : Block)
  : option Block :=
  let (pattern, format) := r in
  let expression := pattern in
  let (index, length) := indexIn U expression text 0 in
  scan fuel expression text format index length b.

Fixpoint for_rules (fuel : nat) (text : QString) (rules : list rule)
         (b : Block) : option Block :=
  match rules with
  | [] => Some b
  | r :: rest =>
      match apply_rule fuel text r b with
      | Some b' => for_rules fuel text rest b'
      | None => None
      end
  end.

(** [highlightBlock], lines 36-43. *)
Definition highlightBlock (fuel : nat) (text : QString) : option Block :=
  for_rules fuel text highlighting_rules (fresh text).

End Highlight.

End PythonSyntaxHighlighter.
Import PythonSyntaxHighlighter.



(** ** LineNumberArea *)

Module LineNumberArea.

(** What the editor answers when the gutter paints: the bounding geometry
    of each block of the document in document order
    ([blockBoundingGeometry]), the number of the first visible block and
    the content offset.  A [QTextBlock] is the index of a block;
    [block.next()] is the next index, and a block is valid while its index
    is below the number of blocks. *)
Record Editor := {
  blockBoundingGeometry : list QRectF;
  firstVisibleBlock : nat;
  contentOffset : Q * Q
}.

Definition blockCount (e : Editor) : nat :=
  List.length (blockBoundingGeometry e).

Definition rgb := (Z * Z * Z)%type.

Inductive alignment := AlignRight.

(** The calls made on the [QPainter]. *)
Inductive painted :=
| fillRect (r : QRect) (c : rgb)
| setPen (c : rgb)
| drawText (r : QRect) (flags : alignment) (s : string).

(** [str(n)] for an integer. *)
Definition str_int (n : Z) : string := NilZero.string_of_int (Z.to_int n).

(** The [while block.isValid()] loop of lines 59-68, at block number
    [block] with the geometry of it and of the blocks after it. *)
Fixpoint paint_blocks (offset : Q * Q) (rect : QRect) (width : Z)
         (geometry : list QRectF) (block : nat) : list painted :=
  match geometry with
  | [] => []
  | g :: rest =>
      let block_rect := translated g offset in
      if negb (intersects block_rect (QRectF_of rect))
      then paint_blocks offset rect width rest (S block)
      else
        let block_number := Z.of_nat block + 1 in
        setPen (160, 160, 160)
        :: drawText {| rx := 0; ry := int (fy block_rect);
                       rwidth := width; rheight := int (fheight block_rect) |}
                    AlignRight (str_int block_number)
        :: paint_blocks offset rect width rest (S block)
  end.

(** [paintEvent], lines 55-68: [rect] is [event.rect()], [width] is
    [self.width()]. *)
Definition paintEvent (editor : Editor) (width : Z) (rect : QRect)
  : list painted :=
  fillRect rect (40, 40, 40)
  :: paint_blocks (contentOffset editor) rect width
       (skipn (firstVisibleBlock editor) (blockBoundingGeometry editor))
       (firstVisibleBlock editor).

End LineNumberArea.
Import LineNumberArea.

(** ** CodeEditor *)

Module CodeEditor.

(** A repaint asked of the gutter: [update()] or [update(x, y, w, h)]. *)
Inductive update_request :=
| update_all
| update_rect (x y w h : Z).

Record Widget := {
  (* self.contentsRect() *)
  contentsRect : QRect;
  (* the geometry of self.line_number_area *)
  geometry : QRect;
  (* the repaints asked of self.line_number_area, oldest first *)
  requested : list update_request;
  (* what [print] wrote, oldest first *)
  printed : list fstring
}.

Definition setGeometry (g : QRect) : M Widget unit :=
  modify (fun w => {| contentsRect := contentsRect w; geometry := g;
                      requested := requested w; printed := printed w |}).

Definition update (u : update_request) : M Widget unit :=
  modify (fun w => {| contentsRect := contentsRect w; geometry := geometry w;
                      requested := requested w ++ [u];
                      printed := printed w |}).

Definition print (line : fstring) : M Widget unit :=
  modify (fun w => {| contentsRect := contentsRect w; geometry := geometry w;
                      requested := requested w;
                      printed := printed w ++ [line] |}).

(** [self.line_number_area.width()] *)
Definition width : M Widget Z := fun w => (Ok (rwidth (geometry w)), w).

Definition is_QRect (v : pyobj) : bool :=
  match v with PyQRect _ => true | _ => false end.

Definition is_QRectF (v : pyobj) : bool :=
  match v with PyQRectF _ => true | _ => false end.

(** [rect.y()] and [rect.height()] on whatever [rect] is. *)
Definition y (v : pyobj) : M Widget Q :=
  match v with
  | PyQRect r => ret (inject_Z (ry r))
  | PyQRectF r => ret (fy r)
  | _ => raise (AttributeError v "y")
  end.

Definition height (v : pyobj) : M Widget Q :=
  match v with
  | PyQRect r => ret (inject_Z (rheight r))
  | PyQRectF r => ret (fheight r)
  | _ => raise (AttributeError v "height")
  end.

Local Open Scope py_scope.

(** [QRectF(rect)] *)
Definition to_QRectF (v : pyobj) : pyobj :=
  match v with
  | PyQRect r => PyQRectF (QRectF_of r)
  | _ => v
  end.

(** Line 120:
    [self.line_number_area.update(0, int(rect.y()),
       self.line_number_area.width(), int(rect.height()))].
    The two ints are taken to fit a C int, as the coordinates of a
    [QRect] do; what PyQt does with a larger one, which only a [QRectF]
    passed by hand can give, is left out. *)
Definition update_band (rect : pyobj) : M Widget unit :=
  top <- y rect ;;
  wd <- width ;;
  h <- height rect ;;
  update (update_rect 0 (int top) wd (int h)).

(** [update_line_number_area], lines 107-120. *)
Definition update_line_number_area (rect : pyobj) : M Widget unit :=
  match rect with
  | PyNone =>
      cr <- (fun w => (Ok (contentsRect w), w)) ;;
      setGeometry {| rx := rx cr; ry := ry cr;
                     rwidth := 40; rheight := rheight cr |} ;;
      update update_all
  | _ =>
      if is_QRect rect then update_band (to_QRectF rect)
      else if negb (is_QRectF rect) then ret tt
      else update_band rect
  end.

(** [handle_update_request], lines 98-105. *)
Definition handle_update_request (rect : pyobj) : M Widget unit :=
  if is_QRect rect || is_QRectF rect then update_line_number_area rect
  else
    print [Lit "Unexpected type for rect in updateRequest: "; FType rect] ;;
    print [Lit "Value of rect: "; FValue rect].

(** [resizeEvent], lines 94-96. *)
Definition resizeEvent : M Widget unit := update_line_number_area PyNone.

(** The signals connected in [__init__], lines 83-84, with the values
    they carry. *)
Inductive signal :=
| blockCountChanged (newBlockCount : Z)
| updateRequest (rect : QRect) (dy : Z).

(** Delivery of a signal to its slot.  [update_line_number_area] takes
    one optional argument and so receives the new block count as [rect];
    [handle_update_request] takes one argument and receives the first of
    the two that [updateRequest] carries. *)
Definition emit (s : signal) : M Widget unit :=
  match s with
  | blockCountChanged n => update_line_number_area (PyInt n)
  | updateRequest rect _ => handle_update_request (PyQRect rect)
  end.

Fixpoint emit_all (l : list signal) : M Widget unit :=
  match l with
  | [] => ret tt
  | s :: rest => emit s ;; emit_all rest
  end.

(** What the toolkit emits for an edit that takes the document from
    [before] to [after] blocks and makes it repaint [dirty]:
    [blockCountChanged] when the count differs, and [updateRequest] for
    the part of the viewport to repaint. *)
Definition edit_signals (before after : Z) (dirty : QRect) : list signal :=
  (if before =? after then [] else [blockCountChanged after])
  ++ [updateRequest dirty 0].

End CodeEditor.

Import CodeEditor.

(** ** Events of the editor *)

(** What reaches the editor: a connected signal, or a resize that gives
    the widget the contents rectangle [cr]. *)
Inductive event :=
| signalled (s : signal)
| resized (cr : QRect).

(** [super().resizeEvent(event)], line 95: the widget has its new contents
    rectangle. *)
Definition set_contentsRect (cr : QRect) : M Widget unit :=
  modify (fun w => {| contentsRect := cr; geometry := geometry w;
                      requested := requested w; printed := printed w |}).

Definition on_event (e : event) : M Widget unit :=
  match e with
  | signalled s => emit s
  | resized cr => bind (set_contentsRect cr) (fun _ => resizeEvent)
  end.

Fixpoint on_events (l : list event) : M Widget unit :=
  match l with
  | [] => ret tt
  | e :: rest => bind (on_event e) (fun _ => on_events rest)
  end.

(** [LineNumberArea.__init__], lines 47-50: [self.setFixedWidth(40)]. *)
Definition fixed_width : Z := 40.

(** A repaint that lies in the gutter's own columns. *)
Definition in_gutter (u : update_request) : Prop :=
  match u with
  | update_all => True
  | update_rect x _ wd _ => x = 0 /\ wd = fixed_width
  end.

(** The texts drawn, in the order of drawing. *)
Definition labels (ps : list painted) : list string :=
  flat_map (fun p => match p with
                     | drawText _ _ s => [s]
                     | _ => []
                     end) ps.

(** ** The gutter, as the specification words it *)

(** The bounding rectangle of block [i] in viewport coordinates. *)
Definition block_rect (editor : Editor) (i : nat) : QRectF :=
  translated
    (nth i (blockBoundingGeometry editor)
         {| fx := 0; fy := 0; fwidth := 0; fheight := 0 |})
    (contentOffset editor).

(** The blocks from the first visible one on that meet the rectangle
    being painted, in document order. *)
Definition visible_blocks (editor : Editor) (rect : QRect) : list nat :=
  filter (fun i => intersects (block_rect editor i) (QRectF_of rect))
         (seq (firstVisibleBlock editor)
              (blockCount editor - firstVisibleBlock editor)).

(** Line [k] of the document is block [k - 1]; its number is drawn right
    aligned in the band of its block. *)
Definition numbered (editor : Editor) (width : Z) (i : nat) : list painted :=
  [ setPen (160, 160, 160);
    drawText {| rx := 0; ry := int (fy (block_rect editor i));
                rwidth := width;
                rheight := int (fheight (block_rect editor i)) |}
             AlignRight (str_int (Z.of_nat (S i))) ].

(** A three-line document with lines 20 pixels high, scrolled to its
    second line. *)
Definition three_lines : Editor :=
  {| blockBoundingGeometry :=
       [ {| fx := 0; fy := 0; fwidth := 200; fheight := 20 |};
         {| fx := 0; fy := 20; fwidth := 200; fheight := 20 |};
         {| fx := 0; fy := 40; fwidth := 200; fheight := 20 |} ];
     firstVisibleBlock := 1;
     contentOffset := (0%Q, (-20)%Q) |}.

Definition plain_widget : Widget :=
  {| contentsRect := {| rx := 0; ry := 0; rwidth := 800; rheight := 600 |};
     geometry := {| rx := 0; ry := 0; rwidth := 40; rheight := 600 |};
     requested := []; printed := [] |}.

(** ** The highlighter, as the specification words it *)

(** A highlight span: start offset, length, colour. *)
Definition span := (Z * Z * QTextCharFormat)%type.

Definition start (sp : span) : Z := fst (fst sp).
Definition count (sp : span) : Z := snd (fst sp).
Definition colour (sp : span) : QColor := snd sp.

(** The span covers character [k] of the line. *)
Definition covers (sp : span) (k : Z) : bool :=
  (0 <=? start sp) && (start sp <=? k) && (k <? start sp + count sp).

(** The span is the longest match of [r] at its start. *)
Definition longest_match (U : Unicode) (r : regex) (t : QString) (sp : span)
  : Prop :=
  exists i l,
    start sp = Z.of_nat i /\ count sp = Z.of_nat l
    /\ Matches U t r i (i + l)
    /\ forall j, Matches U t r i j -> (j <= i + l)%nat.

(** The span lies within the line and is not empty. *)
Definition within (t : QString) (sp : span) : Prop :=
  0 <= start sp /\ 1 <= count sp
  /\ start sp + count sp <= Z.of_nat (List.length t).

(** The second span begins where the first ends, or later. *)
Definition follows (a b : span) : Prop := start a + count a <= start b.

(** The span holds position [p]. *)
Definition holds (sp : span) (p : nat) : Prop :=
  start sp <= Z.of_nat p < start sp + count sp.

(** The colour of the last span of [l] that covers [k], if any. *)
Definition painted_by (l : list span) (k : Z) : option QColor :=
  fold_left (fun acc sp => if covers sp k then Some (colour sp) else acc)
            l None.

(** The order of registration: keywords, comments, strings, numbers, names
    after [def] and [class]. *)
Definition rank (c : QColor) : nat :=
  match c with
  | blue => 0
  | green => 1
  | red => 2
  | orange => 3
  | cyan => 4
  end.

Definition not_after (a b : span) : Prop :=
  (rank (colour a) <= rank (colour b))%nat.

Definition QColor_eqb (a b : QColor) : bool := Nat.eqb (rank a) (rank b).

(** The spans of one colour, in the order they were made. *)
Definition with_colour (c : QColor) (l : list span) : list span :=
  filter (fun sp => QColor_eqb (colour sp) c) l.

(** Two spans share a character. *)
Definition overlap (a b : span) : bool :=
  (start a <? start b + count b) && (start b <? start a + count a).

(** The line has a string span and a comment span, and no string span
    shares a character with a comment span. *)
Definition string_and_comment_apart (U : Unicode) (t : QString) : Prop :=
  exists b,
    highlightBlock U (List.length t) t = Some b
    /\ with_colour red (spans b) <> []
    /\ with_colour green (spans b) <> []
    /\ forall s c, In s (with_colour red (spans b)) ->
                   In c (with_colour green (spans b)) ->
                   overlap s c = false.

(** What [setFormat] keeps true: the format of each character is the
    colour of the last call that covered it. *)
Definition replayed (n : nat) (b : Block) : Prop :=
  List.length (formatChanges b) = n
  /\ forall k, (k < n)%nat ->
       nth_error (formatChanges b) k
       = Some (painted_by (spans b) (Z.of_nat k)).

(** A line with a string literal and then a comment: [pre], the literal
    [body] between two quotes [q], [mid], a hash, [tail]. *)
Definition string_then_comment (q : QChar) (pre body mid tail : QString)
  : QString :=
  pre ++ q :: body ++ q :: mid ++ chr "#" :: tail.

(** A line whose string literal contains a hash. *)
Definition hash_in_string : QString :=
  string_then_comment dquote [] (str "a#b") (str " ") (str " c").

(** The line of the specification's example. *)
Definition hi_note : QString :=
  string_then_comment dquote [] (str "hi") (str " ") (str " note").

(** The strings of a line as the rules find them: the quotes of one kind
    pair up from the left, each opening a string when none is open and
    closing the open one otherwise.  [pos] is the position of the head of
    [t], [opened] the position of the quote that is open; a string is given
    by its position and its length, quotes included. *)
Fixpoint quote_pairs (q : QChar) (t : QString) (pos : nat)
         (opened : option nat) : list (nat * nat) :=
  match t with
  | [] => []
  | c :: r =>
      if c =? q then
        match opened with
        | None => quote_pairs q r (S pos) (Some pos)
        | Some o => (o, S pos - o)%nat :: quote_pairs q r (S pos) None
        end
      else quote_pairs q r (S pos) opened
  end.

Definition strings (t : QString) : list (nat * nat) :=
  quote_pairs dquote t 0 None ++ quote_pairs squote t 0 None.

(** The position of the first [c] of the line. *)
Fixpoint index_of (c : QChar) (t : QString) (pos : nat) : option nat :=
  match t with
  | [] => None
  | d :: r => if d =? c then Some pos else index_of c r (S pos)
  end.

Definition first_hash (t : QString) : option nat := index_of (chr "#") t 0.

Definition string_span (s : nat * nat) : span :=
  (Z.of_nat (fst s), Z.of_nat (snd s), red).

Import MainWindow.

(** ** Sample environments *)

Definition no_files : FS := fun _ => NoEntry.

(** No executable [python] is found. *)
Definition no_python : interpreter := CannotStart FileNotFoundError.

(** A machine with nothing else going on: no other process touches the
    files.  Arguments are encoded like text, and one argument may take
    131071 bytes. *)
Definition machine (fs : FS) (enc : encoding) (nl : text)
           (py : interpreter) : World :=
  {| files := fs; events := []; opened := []; preferred_encoding := enc;
     linesep := nl; filesystem_encoding := enc; arg_max := 131071;
     python := py; runs := 0 |}.

Definition editing (doc : text) (w : World) : App :=
  {| document := doc; console := []; output_windows := []; world := w |}.

(** A file the user may not read. *)
Definition locked : FS :=
  Env.update no_files "notes.txt" (File false true (bytes_of "secret")).

(** The two programs of the specification's examples: one prints, one
    fails. *)
Definition hello : text := str "print(" ++ [34] ++ str "hi" ++ [34] ++ str ")".

Definition failing : text := str "1/0".

Definition traceback : list byte :=
  bytes_of "Traceback (most recent call last):" ++ [x0a]
  ++ bytes_of "ZeroDivisionError: division by zero" ++ [x0a].

(** A stand-in for the interpreter on these two programs; it leaves the
    files alone. *)
Definition sample_python : process :=
  fun code _ fs =>
    if list_eq_dec Z.eq_dec code hello
    then Some (0, bytes_of "hi" ++ [x0a], fs)
    else if list_eq_dec Z.eq_dec code failing then Some (1, traceback, fs)
    else Some (0, [], fs).

(** An interpreter that dies with status 1 after writing one byte that
    is no text in UTF-8. *)
Definition garbled : process := fun _ _ fs => Some (1, [xff], fs).

(** An interpreter killed by a signal after writing a byte that
    Windows-1252 does not define. *)
Definition crashed : process := fun _ _ fs => Some (-11, [x81], fs).

(** * Properties *)

(** ** Opening a file *)

Lemma enter_open_quiet (w : World) (name : string) (m : mode) :
  quiet w ->
  enter_open name m w = with_files w (files w) [] (opened w ++ [(name, m)]).
Proof.
  unfold quiet, enter_open. intros H. rewrite H. reflexivity.
Qed.

Lemma enter_open_log (w : World) (name : string) (m : mode) :
  opened (enter_open name m w) = opened w ++ [(name, m)].
Proof.
  unfold enter_open. destruct (events w); reflexivity.
Qed.

(** When the first [open] finds a readable file whose bytes are valid
    UTF-8, the buffer becomes their text and [open] is called once. *)
Lemma open_file_primary (a : App) (file_name : string) (wr : bool)
      (bs : list byte) (s : text) :
  nonempty file_name = true ->
  files (enter_open file_name (Read utf_8) (world a)) file_name
    = File true wr bs ->
  decode utf_8 bs = Some s ->
  open_file file_name a
  = (Ok tt,
     with_document
       (with_world a (enter_open file_name (Read utf_8) (world a)))
       (plain_text (universal_newlines s))).
Proof.
  intros Hn Hf Hd. cbn in Hd.
  unfold open_file. rewrite Hn.
  unfold try_except, load, bind, open_. cbn.
  rewrite Hf. cbn. unfold read. cbn. rewrite Hd. reflexivity.
Qed.

(** When the first [open] cannot read the file at all, the exception
    leaves [open_file]: only [UnicodeDecodeError] is handled there. *)
Lemma open_file_unreadable (a : App) (file_name : string) :
  nonempty file_name = true ->
  (forall wr bs,
      files (enter_open file_name (Read utf_8) (world a)) file_name
      <> File true wr bs) ->
  exists k,
    open_file file_name a
    = (Raise (OSError k file_name),
       with_world a (enter_open file_name (Read utf_8) (world a))).
Proof.
  intros Hn Hf.
  unfold open_file. rewrite Hn.
  unfold try_except, load, bind, open_. cbn.
  destruct (files (enter_open file_name (Read utf_8) (world a)) file_name)
    as [| | | | r wr bs] eqn:E.
  - exists FileNotFoundError. reflexivity.
  - exists FileNotFoundError. reflexivity.
  - exists FileNotFoundError. reflexivity.
  - exists IsADirectoryError. reflexivity.
  - destruct r.
    + exfalso. apply (Hf wr bs). reflexivity.
    + exists PermissionError. reflexivity.
Qed.

(** After a decode failure there is exactly one more attempt, under
    Latin-1: it loads the file, or reports why it could not be opened. *)
Lemma open_file_fallback (a : App) (file_name : string) (wr : bool)
      (bs : list byte) :
  nonempty file_name = true ->
  files (enter_open file_name (Read utf_8) (world a)) file_name
    = File true wr bs ->
  decode utf_8 bs = None ->
  let w1 := enter_open file_name (Read utf_8) (world a) in
  let w2 := enter_open file_name (Read latin_1) w1 in
  match files w2 file_name with
  | File true _ bs2 =>
      open_file file_name a
      = (Ok tt, with_document (with_world a w2)
                  (plain_text (universal_newlines (latin1_decode bs2))))
  | File false _ _ =>
      open_file file_name a
      = (Ok tt, with_console (with_world a w2)
                  (console a ++ [[Lit "Error opening file: ";
                                  FExn (OSError PermissionError file_name)]]))
  | Directory =>
      open_file file_name a
      = (Ok tt, with_console (with_world a w2)
                  (console a ++ [[Lit "Error opening file: ";
                                  FExn (OSError IsADirectoryError file_name)]]))
  | NoEntry | NoDirectory | ReadOnlyDirectory =>
      open_file file_name a
      = (Ok tt, with_console (with_world a w2)
                  (console a ++ [[Lit "Error opening file: ";
                                  FExn (OSError FileNotFoundError file_name)]]))
  end.
Proof.
  intros Hn Hf Hd w1 w2. cbn in Hd.
  unfold open_file. rewrite Hn.
  unfold try_except, load, bind, open_.
  cbn [world with_world].
  rewrite Hf. cbn -[enter_open]. unfold read at 1.
  cbn -[enter_open]. rewrite Hd. cbn -[enter_open].
  fold w1. fold w2.
  destruct (files w2 file_name) as [| | | | r wr2 bs2] eqn:E;
    try reflexivity.
  destruct r; reflexivity.
Qed.

(** The fallback attempt can only fail at [open]: reading under Latin-1
    raises nothing. *)
Lemma load_latin1_raises_only_OSError (a a' : App) (file_name : string)
      (e : exn) :
  load file_name latin_1 a = (Raise e, a') -> is_OSError e = true.
Proof.
  unfold load, bind, open_. cbn -[enter_open].
  destruct (files (enter_open file_name (Read latin_1) (world a)) file_name)
    as [| | | | r wr bs]; [| | | | destruct r]; cbn -[enter_open];
    intros H; inversion H; reflexivity.
Qed.

(** C1 (the part the code misses): a file that exists and that the user
    may not read.  The first [open] raises [PermissionError]; the only
    handler around it is for [UnicodeDecodeError], so the exception leaves
    [open_file], nothing is printed, and no second attempt is made. *)
Theorem open_file_lets_read_errors_escape :
  let a := editing (str "draft") (machine locked utf_8 [LF] no_python) in
  fst (open_file "notes.txt" a) = Raise (OSError PermissionError "notes.txt")
  /\ document (snd (open_file "notes.txt" a)) = str "draft"
  /\ console (snd (open_file "notes.txt" a)) = []
  /\ opened (world (snd (open_file "notes.txt" a)))
     = [("notes.txt"%string, Read utf_8)].
Proof.
  vm_compute. repeat split.
Qed.

(** C10: Latin-1 decodes every byte sequence, into one character per
    byte, the character whose code is the value of the byte.  The fallback
    attempt of [open_file] can therefore fail only because the file cannot
    be opened, never because of its bytes; and a readable file whose bytes
    are not valid UTF-8 is loaded with nothing reported: the buffer then
    reads as the characters of its bytes, with the line ends as text mode
    gives them and the characters as [toPlainText] gives them. *)
Theorem latin1_fallback_always_decodes :
  (forall bs : list byte,
      exists s,
        decode latin_1 bs = Some s
        /\ List.length s = List.length bs
        /\ forall i b, nth_error bs i = Some b ->
                       nth_error s i = Some (Z.of_N (Byte.to_N b)))
  /\ (forall (a a' : App) (file_name : string) (e : exn),
         load file_name latin_1 a = (Raise e, a') ->
         is_UnicodeDecodeError e = false)
  /\ (forall (a : App) (file_name : string) (wr : bool) (bs : list byte),
         nonempty file_name = true ->
         quiet (world a) ->
         files (world a) file_name = File true wr bs ->
         decode utf_8 bs = None ->
         exists a',
           open_file file_name a = (Ok tt, a')
           /\ document a'
              = plain_text
                  (universal_newlines
                     (map (fun b => Z.of_N (Byte.to_N b)) bs))
           /\ console a' = console a).
Proof.
  split; [| split].
  - intros bs. exists (latin1_decode bs).
    split; [reflexivity |]. split; [apply length_map |].
    intros i b Hb. unfold latin1_decode.
    rewrite nth_error_map, Hb. reflexivity.
  - intros a a' file_name e H.
    apply load_latin1_raises_only_OSError in H.
    destruct e; simpl in *; congruence.
  - intros a file_name wr bs Hn Hq Hf Hd.
    assert (H1 : files (enter_open file_name (Read utf_8) (world a)) file_name
                 = File true wr bs).
    { rewrite enter_open_quiet by assumption. exact Hf. }
    pose proof (open_file_fallback a file_name wr bs Hn H1 Hd) as H.
    cbv zeta in H.
    assert (H2 : files (enter_open file_name (Read latin_1)
                          (enter_open file_name (Read utf_8) (world a)))
                       file_name = File true wr bs).
    { rewrite (enter_open_quiet (world a)) by assumption.
      rewrite enter_open_quiet by reflexivity. exact Hf. }
    rewrite H2 in H. eexists. split; [exact H | split; reflexivity].
Qed.

Lemma latin1_fallback_always_decodes_witness :
  exists a',
    open_file "legacy.txt"
      (editing (str "draft")
         (machine (Env.update no_files "legacy.txt"
                     (File true true [x61; xa0; x62; x0d; x0a; xe9]))
                  utf_8 [LF] no_python))
    = (Ok tt, a')
    /\ document a' = [97; 32; 98; 10; 233]
    /\ console a' = [].
Proof.
  destruct (proj2 (proj2 latin1_fallback_always_decodes)
              (editing (str "draft")
                 (machine (Env.update no_files "legacy.txt"
                             (File true true
                                [x61; xa0; x62; x0d; x0a; xe9]))
                          utf_8 [LF] no_python))
              "legacy.txt"%string true [x61; xa0; x62; x0d; x0a; xe9]
              eq_refl eq_refl eq_refl eq_refl) as [a' [H1 [H2 H3]]].
  exists a'. split; [exact H1 |]. split; [rewrite H2; reflexivity | exact H3].
Defined.

(** ** Saving and opening again *)

Lemma byte_val_mk_byte (z : Z) : 0 <= z < 256 -> byte_val (mk_byte z) = z.
Proof.
  intros Hz. unfold byte_val, mk_byte.
  destruct (Byte.of_N (Z.to_N z)) as [b |] eqn:E.
  - apply Byte.to_of_N in E. rewrite E. apply Z2N.id. lia.
  - apply Byte.of_N_None_iff in E. lia.
Qed.

(** The decoder on a lead byte and its continuation bytes, written with
    the six-bit digits of the code point. *)
Lemma utf8_decode_1 (c : Z) (rest : list byte) :
  0 <= c < 0x80 ->
  utf8_decode (mk_byte c :: rest) = option_map (cons c) (utf8_decode rest).
Proof.
  intros Hc. cbn [utf8_decode]. cbv zeta.
  rewrite byte_val_mk_byte by lia.
  destruct (Z.ltb_spec c 128); [reflexivity | lia].
Qed.

Lemma utf8_decode_2 (a b : Z) (rest : list byte) :
  2 <= a < 32 -> 0 <= b < 64 ->
  utf8_decode (mk_byte (0xC0 + a) :: mk_byte (0x80 + b) :: rest)
  = option_map (cons (a * 64 + b)) (utf8_decode rest).
Proof.
  intros Ha Hb. cbn [utf8_decode]. cbv zeta.
  rewrite !byte_val_mk_byte by lia. unfold is_cont.
  destruct (Z.ltb_spec (192 + a) 128); [lia |].
  destruct (Z.leb_spec 194 (192 + a)); [| lia].
  destruct (Z.leb_spec (192 + a) 223); [| lia].
  destruct (Z.leb_spec 128 (128 + b)); [| lia].
  destruct (Z.leb_spec (128 + b) 191); [| lia].
  cbn [andb].
  replace ((192 + a - 192) * 64 + (128 + b - 128)) with (a * 64 + b) by lia.
  reflexivity.
Qed.

Lemma utf8_decode_3 (a b d : Z) (rest : list byte) :
  0 <= a < 16 -> 0 <= b < 64 -> 0 <= d < 64 ->
  0x800 <= a * 4096 + b * 64 + d ->
  is_surrogate (a * 4096 + b * 64 + d) = false ->
  utf8_decode (mk_byte (0xE0 + a) :: mk_byte (0x80 + b)
                 :: mk_byte (0x80 + d) :: rest)
  = option_map (cons (a * 4096 + b * 64 + d)) (utf8_decode rest).
Proof.
  intros Ha Hb Hd Hlow Hsur. cbn [utf8_decode]. cbv zeta.
  rewrite !byte_val_mk_byte by lia. unfold is_cont.
  replace ((224 + a - 224) * 4096 + (128 + b - 128) * 64 + (128 + d - 128))
    with (a * 4096 + b * 64 + d) by lia.
  rewrite Hsur.
  destruct (Z.ltb_spec (224 + a) 128); [lia |].
  destruct (Z.leb_spec 194 (224 + a)); [| lia].
  destruct (Z.leb_spec (224 + a) 223); [lia |].
  destruct (Z.leb_spec 224 (224 + a)); [| lia].
  destruct (Z.leb_spec (224 + a) 239); [| lia].
  destruct (Z.leb_spec 128 (128 + b)); [| lia].
  destruct (Z.leb_spec (128 + b) 191); [| lia].
  destruct (Z.leb_spec 128 (128 + d)); [| lia].
  destruct (Z.leb_spec (128 + d) 191); [| lia].
  destruct (Z.leb_spec 2048 (a * 4096 + b * 64 + d)); [| lia].
  reflexivity.
Qed.

Lemma utf8_decode_4 (a b d e : Z) (rest : list byte) :
  0 <= a < 5 -> 0 <= b < 64 -> 0 <= d < 64 -> 0 <= e < 64 ->
  0x10000 <= a * 262144 + b * 4096 + d * 64 + e <= 0x10FFFF ->
  utf8_decode (mk_byte (0xF0 + a) :: mk_byte (0x80 + b)
                 :: mk_byte (0x80 + d) :: mk_byte (0x80 + e) :: rest)
  = option_map (cons (a * 262144 + b * 4096 + d * 64 + e))
               (utf8_decode rest).
Proof.
  intros Ha Hb Hd He Hc. cbn [utf8_decode]. cbv zeta.
  rewrite !byte_val_mk_byte by lia. unfold is_cont.
  replace ((240 + a - 240) * 262144 + (128 + b - 128) * 4096
           + (128 + d - 128) * 64 + (128 + e - 128))
    with (a * 262144 + b * 4096 + d * 64 + e) by lia.
  destruct (Z.ltb_spec (240 + a) 128); [lia |].
  destruct (Z.leb_spec 194 (240 + a)); [| lia].
  destruct (Z.leb_spec (240 + a) 223); [lia |].
  destruct (Z.leb_spec 224 (240 + a)); [| lia].
  destruct (Z.leb_spec (240 + a) 239); [lia |].
  destruct (Z.leb_spec 240 (240 + a)); [| lia].
  destruct (Z.leb_spec (240 + a) 244); [| lia].
  destruct (Z.leb_spec 128 (128 + b)); [| lia].
  destruct (Z.leb_spec (128 + b) 191); [| lia].
  destruct (Z.leb_spec 128 (128 + d)); [| lia].
  destruct (Z.leb_spec (128 + d) 191); [| lia].
  destruct (Z.leb_spec 128 (128 + e)); [| lia].
  destruct (Z.leb_spec (128 + e) 191); [| lia].
  destruct (Z.leb_spec 65536 (a * 262144 + b * 4096 + d * 64 + e)); [| lia].
  destruct (Z.leb_spec (a * 262144 + b * 4096 + d * 64 + e) 1114111);
    [| lia].
  reflexivity.
Qed.

(** The six-bit digits of a code point. *)
Lemma digits (c : Z) :
  0 <= c ->
  c = (c / 64) * 64 + c mod 64
  /\ c = (c / 4096) * 4096 + ((c / 64) mod 64) * 64 + c mod 64
  /\ c = (c / 262144) * 262144 + ((c / 4096) mod 64) * 4096
         + ((c / 64) mod 64) * 64 + c mod 64
  /\ 0 <= c mod 64 < 64 /\ 0 <= (c / 64) mod 64 < 64
  /\ 0 <= (c / 4096) mod 64 < 64.
Proof.
  intros Hc.
  pose proof (Z.div_mod c 64 ltac:(lia)) as D1.
  pose proof (Z.mod_pos_bound c 64 ltac:(lia)) as M1.
  pose proof (Z.div_mod (c / 64) 64 ltac:(lia)) as D2.
  pose proof (Z.mod_pos_bound (c / 64) 64 ltac:(lia)) as M2.
  pose proof (Z.div_mod (c / 64 / 64) 64 ltac:(lia)) as D3.
  pose proof (Z.mod_pos_bound (c / 64 / 64) 64 ltac:(lia)) as M3.
  assert (Q2 : c / 4096 = c / 64 / 64)
    by (rewrite Z.div_div by lia; reflexivity).
  assert (Q3 : c / 262144 = c / 64 / 64 / 64)
    by (rewrite !Z.div_div by lia; reflexivity).
  rewrite Q2, Q3.
  generalize dependent (c / 64 / 64 / 64). intros q3.
  generalize dependent ((c / 64 / 64) mod 64). intros r3.
  generalize dependent (c / 64 / 64). intros q2.
  generalize dependent ((c / 64) mod 64). intros r2.
  generalize dependent (c / 64). intros q1.
  generalize dependent (c mod 64). intros r1.
  intros. lia.
Qed.

(** Decoding what was encoded for one character gives the character back
    and goes on with the rest. *)
Lemma utf8_decode_encode_char (c : Z) (bs rest : list byte) :
  utf8_encode_char c = Some bs ->
  utf8_decode (bs ++ rest) = option_map (cons c) (utf8_decode rest).
Proof.
  unfold utf8_encode_char.
  destruct (is_scalar c) eqn:Hs; cbn [negb]; [| discriminate].
  unfold is_scalar in Hs.
  apply andb_true_iff in Hs. destruct Hs as [Hs Hsur].
  apply andb_true_iff in Hs. destruct Hs as [H0 Hmax].
  apply Z.leb_le in H0, Hmax. apply negb_true_iff in Hsur.
  destruct (digits c H0) as [E1 [E2 [E3 [M1 [M2 M3]]]]].
  destruct (Z.ltb_spec c 0x80) as [H1 | H1];
    [| destruct (Z.ltb_spec c 0x800) as [H2 | H2];
       [| destruct (Z.ltb_spec c 0x10000) as [H3 | H3]]];
    intros E; inversion E; subst bs; clear E; cbn [app].
  - apply utf8_decode_1. lia.
  - rewrite E1 at 3. apply utf8_decode_2; [| exact M1].
    generalize dependent (c / 64). generalize dependent (c mod 64).
    intros. lia.
  - rewrite E2 at 4. rewrite E2 in Hsur.
    apply utf8_decode_3; try assumption.
    + generalize dependent (c / 4096).
      generalize dependent ((c / 64) mod 64).
      generalize dependent (c mod 64). intros. lia.
    + rewrite <- E2. exact H2.
  - rewrite E3 at 5.
    apply utf8_decode_4; try assumption.
    + generalize dependent (c / 262144).
      generalize dependent ((c / 4096) mod 64).
      generalize dependent ((c / 64) mod 64).
      generalize dependent (c mod 64). intros. lia.
    + rewrite <- E3. lia.
Qed.

Lemma utf8_decode_encode (s : text) (bs : list byte) :
  encode utf_8 s = Some bs -> decode utf_8 bs = Some s.
Proof.
  cbn [encode decode]. revert bs.
  induction s as [| c s IH]; intros bs; cbn [encode_with].
  - intros E. inversion E. reflexivity.
  - destruct (utf8_encode_char c) as [b1 |] eqn:E1; [| discriminate].
    destruct (encode_with utf8_encode_char s) as [b2 |]; [| discriminate].
    intros E. inversion E. subst bs.
    rewrite (utf8_decode_encode_char c b1 b2 E1), (IH b2 eq_refl).
    reflexivity.
Qed.

(** Every sequence of scalar values can be encoded. *)
Lemma utf8_encode_total (s : text) :
  forallb is_scalar s = true -> exists bs, encode utf_8 s = Some bs.
Proof.
  cbn [encode]. induction s as [| c s IH]; cbn [forallb encode_with].
  - intros _. exists []. reflexivity.
  - intros H. apply andb_true_iff in H. destruct H as [Hc Hs].
    destruct (IH Hs) as [b2 E2]. rewrite E2.
    unfold utf8_encode_char. rewrite Hc. cbn [negb].
    destruct (c <? 128); [| destruct (c <? 2048); [| destruct (c <? 65536)]];
      eexists; reflexivity.
Qed.

(** Reading back what was written: the line separator comes out as LF
    again, as long as the text has no CR of its own. *)
Lemma universal_newlines_translate (linesep s : text) :
  linesep = [LF] \/ linesep = [CR; LF] ->
  ~ In CR s ->
  universal_newlines (translate_newlines linesep s) = s.
Proof.
  intros Hsep. induction s as [| c s IH]; intros Hcr; [reflexivity |].
  assert (Hc : c <> CR) by (intros E; apply Hcr; left; auto).
  assert (Hs : ~ In CR s) by (intros E; apply Hcr; right; exact E).
  unfold translate_newlines in *. cbn [flat_map].
  destruct (Z.eqb_spec c LF) as [-> | Hlf].
  - destruct Hsep as [-> | ->]; cbn [app universal_newlines];
      cbn [Z.eqb LF CR Pos.eqb]; rewrite (IH Hs); reflexivity.
  - cbn [app universal_newlines].
    destruct (Z.eqb_spec c CR) as [E | _]; [contradiction |].
    rewrite (IH Hs). reflexivity.
Qed.

Lemma translate_newlines_scalar (linesep s : text) :
  linesep = [LF] \/ linesep = [CR; LF] ->
  forallb is_scalar s = true ->
  forallb is_scalar (translate_newlines linesep s) = true.
Proof.
  intros Hsep. induction s as [| c s IH]; [reflexivity |].
  cbn [forallb]. intros H. apply andb_true_iff in H. destruct H as [Hc Hs].
  unfold translate_newlines in *. cbn [flat_map].
  rewrite forallb_app, (IH Hs), andb_true_r.
  destruct (c =? LF); [| cbn [forallb]; rewrite Hc; reflexivity].
  destruct Hsep as [-> | ->]; reflexivity.
Qed.

Lemma update_same (fs : FS) (name : string) (e : entry) :
  Env.update fs name e name = e.
Proof. unfold Env.update. rewrite String.eqb_refl. reflexivity. Qed.

(** Text mode leaves no CR in what it reads, and neither does Qt in what
    [toPlainText] returns. *)
Lemma universal_newlines_no_CR (s : text) : ~ In CR (universal_newlines s).
Proof.
  assert (G : forall n s, (List.length s <= n)%nat ->
                          ~ In CR (universal_newlines s)).
  { induction n as [| n IH]; intros [| c r] Hlen; cbn [universal_newlines];
      try (intros []); cbn [List.length] in Hlen; try lia.
    destruct (Z.eqb_spec c CR) as [-> | Hc].
    - destruct r as [| d r'].
      + intros [H | []]. discriminate H.
      + cbn [List.length] in Hlen.
        destruct (d =? LF); intros [H | H]; try discriminate H;
          revert H; apply IH; cbn [List.length]; lia.
    - intros [H | H]; [congruence |].
      revert H. apply IH. lia. }
  apply (G (List.length s)). lia.
Qed.

Lemma universal_newlines_id (s : text) :
  ~ In CR s -> universal_newlines s = s.
Proof.
  induction s as [| c s IH]; intros H; [reflexivity |].
  cbn [universal_newlines].
  destruct (Z.eqb_spec c CR) as [E | _];
    [exfalso; apply H; left; auto |].
  rewrite IH; [reflexivity |]. intros Hin. apply H. right. exact Hin.
Qed.

Lemma plain_char_not_CR (c : Z) : c <> CR -> plain_char c <> CR.
Proof.
  intros Hc. unfold plain_char.
  destruct ((c =? 0x2028) || (c =? 0x2029) || (c =? 0xFDD0) || (c =? 0xFDD1));
    [discriminate |].
  destruct (c =? 0xA0); [discriminate | exact Hc].
Qed.

Lemma plain_text_no_CR (s : text) : ~ In CR (plain_text s).
Proof.
  unfold plain_text. intros H. apply in_map_iff in H.
  destruct H as [c [Hc Hin]].
  destruct (Z.eq_dec c CR) as [-> | Hne].
  - apply (universal_newlines_no_CR s Hin).
  - apply (plain_char_not_CR c Hne Hc).
Qed.

(** A text that [toPlainText] can return has no CR. *)
Lemma plain_fixed_no_CR (s : text) : plain_text s = s -> ~ In CR s.
Proof. intros H. rewrite <- H. apply plain_text_no_CR. Qed.

(** X7: where the locale's preferred encoding is UTF-8, saving and
    opening again gives the buffer back, the buffer being a text that
    [toPlainText] can return. *)
Lemma save_then_open_under_utf8 (a : App) (file_name : string) :
  nonempty file_name = true ->
  quiet (world a) ->
  preferred_encoding (world a) = utf_8 ->
  linesep (world a) = [LF] \/ linesep (world a) = [CR; LF] ->
  files (world a) file_name = NoEntry
  \/ (exists old, files (world a) file_name = File true true old) ->
  forallb is_scalar (document a) = true ->
  plain_text (document a) = document a ->
  exists a1 a2,
    save_file file_name a = (Ok tt, a1)
    /\ open_file file_name a1 = (Ok tt, a2)
    /\ document a2 = document a.
Proof.
  intros Hn Hq Henc Hsep Hfile Hscalar Hplain.
  pose proof (plain_fixed_no_CR _ Hplain) as Hcr.
  destruct (utf8_encode_total _
              (translate_newlines_scalar _ _ Hsep Hscalar)) as [bs Hbs].
  pose proof (utf8_decode_encode _ _ Hbs) as Hdec.
  assert (Hsave : exists a1,
             save_file file_name a = (Ok tt, a1)
             /\ document a1 = document a
             /\ quiet (world a1)
             /\ files (world a1) file_name = File true true bs).
  { unfold save_file. rewrite Hn.
    unfold bind, open_, toPlainText, write.
    rewrite (enter_open_quiet _ _ _ Hq).
    cbn [world with_world with_files files events opened preferred_encoding
         linesep opened_as name document].
    destruct Hfile as [Hf | [old Hf]]; rewrite Hf;
      cbn [world with_world with_files files events opened
           preferred_encoding linesep opened_as name document];
      rewrite Henc, Hbs, update_same;
      eexists; (split; [reflexivity |]);
      cbn [world with_world with_files files events opened document];
      (split; [reflexivity | split; [reflexivity |]]);
      unfold Env.update; rewrite String.eqb_refl; reflexivity. }
  destruct Hsave as [a1 [Hsave [Hdoc [Hq1 Hf1]]]].
  assert (Hf2 : files (enter_open file_name (Read utf_8) (world a1)) file_name
                 = File true true bs)
    by (rewrite (enter_open_quiet _ _ _ Hq1); exact Hf1).
  exists a1. eexists. split; [exact Hsave |]. split.
  - exact (open_file_primary a1 file_name true bs _ Hn Hf2 Hdec).
  - cbn [document with_document].
    rewrite universal_newlines_translate by assumption. exact Hplain.
Qed.

(** C4 (where the code departs from it): [save_file] opens the file
    without an encoding, so the text is written under the locale's
    preferred encoding, while [open_file] reads UTF-8 first.  On a machine
    whose preferred encoding is Windows-1252, the two-character buffer
    U+00C3 U+00A9 is written as the bytes C3 A9, which [open_file] then
    reads as the single character U+00E9; and the buffer U+20AC is written
    as the byte 80 and comes back as U+0080. *)
Theorem save_then_open_under_cp1252 :
  let w := machine no_files cp1252 [CR; LF] no_python in
  let saved (doc : text) := snd (save_file "a.py" (editing doc w)) in
  let reopened (doc : text) := snd (open_file "a.py" (saved doc)) in
  encode utf_8 [0xC3; 0xA9] <> None
  /\ files (world (saved [0xC3; 0xA9])) "a.py"%string = File true true [xc3; xa9]
  /\ document (reopened [0xC3; 0xA9]) = [0xE9]
  /\ encode utf_8 [0x20AC] <> None
  /\ files (world (saved [0x20AC])) "a.py"%string = File true true [x80]
  /\ document (reopened [0x20AC]) = [0x80].
Proof.
  vm_compute. repeat split; discriminate.
Qed.

(** ** Running the buffer *)





(** ** The gutter *)

Lemma int_inject_Z (z : Z) : int (inject_Z z) = z.
Proof.
  unfold int, inject_Z. cbn. apply Z.quot_1_r.
Qed.

(** The loop draws the number of every block that meets the rectangle,
    counting on from the block it starts at. *)
Lemma paint_blocks_numbered (editor : Editor) (width : Z) (rect : QRect) :
  forall (rest : list QRectF) (block : nat),
    skipn block (blockBoundingGeometry editor) = rest ->
    paint_blocks (contentOffset editor) rect width rest block
    = flat_map (numbered editor width)
        (filter (fun i => intersects (block_rect editor i) (QRectF_of rect))
                (seq block (List.length rest))).
Proof.
  induction rest as [| g rest IH]; intros block Hskip.
  - reflexivity.
  - assert (Hg : block_rect editor block = translated g (contentOffset editor)).
    { unfold block_rect. f_equal.
      rewrite <- (firstn_skipn block (blockBoundingGeometry editor)).
      rewrite Hskip.
      assert (Hlen : List.length (firstn block (blockBoundingGeometry editor))
                     = block).
      { apply firstn_length_le.
        destruct (Nat.le_gt_cases block
                    (List.length (blockBoundingGeometry editor)))
          as [Hle | Hgt]; [exact Hle |].
        rewrite skipn_all2 in Hskip by lia. discriminate. }
      rewrite app_nth2 by lia. rewrite Hlen, Nat.sub_diag. reflexivity. }
    assert (Hnext : skipn (S block) (blockBoundingGeometry editor) = rest).
    { replace (S block) with (1 + block)%nat by lia.
      rewrite <- skipn_skipn, Hskip. reflexivity. }
    cbn [paint_blocks List.length seq filter].
    rewrite Hg, (IH (S block) Hnext).
    destruct (intersects (translated g (contentOffset editor))
                         (QRectF_of rect)); cbn [negb flat_map].
    + unfold numbered at 2. rewrite Hg.
      replace (Z.of_nat (S block)) with (Z.of_nat block + 1) by lia.
      reflexivity.
    + reflexivity.
Qed.

(** A signal carrying a [QRect] asks the gutter to repaint the band of
    that rectangle. *)
Lemma updateRequest_requests_band (w : Widget) (rect : QRect) (dy : Z) :
  emit (updateRequest rect dy) w
  = (Ok tt,
     {| contentsRect := contentsRect w; geometry := geometry w;
        requested := requested w
                     ++ [update_rect 0 (ry rect) (rwidth (geometry w))
                                     (rheight rect)];
        printed := printed w |}).
Proof.
  unfold emit, handle_update_request. cbn.
  unfold update_band, bind. cbn. rewrite !int_inject_Z. reflexivity.
Qed.

(** The slot connected to [blockCountChanged] receives the new count as
    [rect]; an integer is neither a [QRect] nor a [QRectF], so the slot
    returns at line 119 and asks for nothing. *)
Lemma blockCountChanged_requests_nothing (w : Widget) (n : Z) :
  emit (blockCountChanged n) w = (Ok tt, w).
Proof. reflexivity. Qed.

(** A resize moves the gutter to the left edge and repaints all of it. *)
Lemma resizeEvent_repaints (w : Widget) :
  exists w',
    resizeEvent w = (Ok tt, w')
    /\ requested w' = requested w ++ [update_all]
    /\ rwidth (geometry w') = 40.
Proof.
  eexists. split; [reflexivity | split; reflexivity].
Qed.

(** C7: the gutter has no count of its own.  Each paint starts at the
    editor's first visible block and draws, for every block from there on
    that meets the painted rectangle, the block's index plus one in the
    band of that block: line [k] always carries [k].  And an edit that
    changes the number of lines leaves a repaint of the gutter
    requested. *)
Theorem gutter_numbers_follow_document :
  (forall (editor : Editor) (width : Z) (rect : QRect),
      paintEvent editor width rect
      = fillRect rect (40, 40, 40)
        :: flat_map (numbered editor width) (visible_blocks editor rect))
  /\ (forall (w : Widget) (before after : Z) (dirty : QRect),
         before <> after ->
         exists w',
           emit_all (edit_signals before after dirty) w = (Ok tt, w')
           /\ requested w'
              = requested w
                ++ [update_rect 0 (ry dirty) (rwidth (geometry w))
                                (rheight dirty)]).
Proof.
  split.
  - intros editor width rect. unfold paintEvent, visible_blocks.
    rewrite (paint_blocks_numbered editor width rect _ _ eq_refl).
    rewrite length_skipn. reflexivity.
  - intros w before after dirty Hne.
    unfold edit_signals.
    destruct (Z.eqb_spec before after) as [Heq | _]; [contradiction |].
    cbn [app emit_all]. unfold bind.
    rewrite blockCountChanged_requests_nothing.
    rewrite updateRequest_requests_band. cbn.
    eexists. split; reflexivity.
Qed.

Lemma gutter_numbers_follow_document_witness :
  paintEvent three_lines 40 {| rx := 0; ry := 0; rwidth := 40; rheight := 30 |}
  = [ fillRect {| rx := 0; ry := 0; rwidth := 40; rheight := 30 |} (40, 40, 40);
      setPen (160, 160, 160);
      drawText {| rx := 0; ry := 0; rwidth := 40; rheight := 20 |}
               AlignRight "2";
      setPen (160, 160, 160);
      drawText {| rx := 0; ry := 20; rwidth := 40; rheight := 20 |}
               AlignRight "3" ]
  /\ exists w',
       emit_all (edit_signals 3 4
                   {| rx := 0; ry := 20; rwidth := 760; rheight := 580 |})
                plain_widget = (Ok tt, w')
       /\ requested w' = [update_rect 0 20 40 580].
Proof.
  split.
  - rewrite (proj1 gutter_numbers_follow_document). reflexivity.
  - apply (proj2 gutter_numbers_follow_document plain_widget 3 4).
    discriminate.
Defined.

(** ** The three error conditions *)

(** An unexpected payload is logged and no repaint is asked for. *)
Lemma handle_update_request_unexpected (rect : pyobj) (w : Widget) :
  is_QRect rect || is_QRectF rect = false ->
  exists w',
    handle_update_request rect w = (Ok tt, w')
    /\ requested w' = requested w
    /\ printed w'
       = printed w
         ++ [ [Lit "Unexpected type for rect in updateRequest: "; FType rect];
              [Lit "Value of rect: "; FValue rect] ].
Proof.
  intros H. unfold handle_update_request. rewrite H.
  eexists. split; [reflexivity |]. cbn. split; [reflexivity |].
  rewrite <- app_assoc. reflexivity.
Qed.

(** A decode failure at the first attempt never leaves [open_file]. *)
Lemma open_file_decode_failure_returns (a : App) (file_name : string)
      (wr : bool) (bs : list byte) :
  nonempty file_name = true ->
  files (enter_open file_name (Read utf_8) (world a)) file_name
    = File true wr bs ->
  decode utf_8 bs = None ->
  exists a', open_file file_name a = (Ok tt, a').
Proof.
  intros Hn Hf Hd.
  pose proof (open_file_fallback a file_name wr bs Hn Hf Hd) as H.
  cbv zeta in H.
  destruct (files (enter_open file_name (Read latin_1)
                     (enter_open file_name (Read utf_8) (world a)))
                  file_name) as [| | | | r wr2 bs2];
    [| | | | destruct r]; eexists; exact H.
Qed.

(** C6 (where the code departs from it): failures of the external
    process leave [run_code].  The only handler there is for
    [CalledProcessError].  When no [python] is found, [check_output]
    raises [FileNotFoundError]; when the process dies having written a
    byte that is no text under the locale's encoding (here 81 under
    Windows-1252), it raises [UnicodeDecodeError].  Both exceptions leave
    [run_code], and no window is shown. *)
Theorem process_failures_escape_run_code :
  (let a := editing hello (machine no_files utf_8 [LF] no_python) in
   fst (run_code a) = Raise (OSError FileNotFoundError "python")
   /\ output_windows (snd (run_code a)) = []
   /\ console (snd (run_code a)) = [])
  /\ (let a := editing hello
                 (machine no_files cp1252 [CR; LF] (Starts crashed)) in
      crashed hello 0%nat no_files = Some (-11, [x81], no_files)
      /\ fst (run_code a) = Raise (UnicodeDecodeError cp1252)
      /\ output_windows (snd (run_code a)) = []
      /\ console (snd (run_code a)) = []).
Proof.
  vm_compute. repeat split.
Qed.

(** ** The pattern engine *)

Section Bounds.
Variable U : Unicode.

Lemma one_char_spec (p : QChar -> bool) (t : QString) (i j : nat) :
  In j (one_char p t i) <->
  j = S i /\ exists c, nth_error t i = Some c /\ p c = true.
Proof.
  unfold one_char. destruct (nth_error t i) as [c |] eqn:E.
  - destruct (p c) eqn:Ep; cbn.
    + split.
      * intros [H | []]. split; [congruence | eauto].
      * intros [H _]. left. congruence.
    + split; [intros [] |].
      intros [_ [c' [H1 H2]]]. congruence.
  - cbn. split; [intros [] |]. intros [_ [c' [H1 _]]]. discriminate.
Qed.

Lemma one_char_bounds (p : QChar -> bool) (t : QString) (i j : nat) :
  In j (one_char p t i) -> (j = S i /\ j <= List.length t)%nat.
Proof.
  intros H. apply one_char_spec in H. destruct H as [-> [c [Hc _]]].
  split; [reflexivity |].
  assert (i < List.length t)%nat; [| lia].
  apply nth_error_Some. congruence.
Qed.

Lemma star_from_ge (step : nat -> list nat) (fuel : nat) :
  forall i j, In j (star_from step fuel i) -> (i <= j)%nat.
Proof.
  induction fuel as [| fuel IH]; intros i j; cbn [star_from In].
  - intros [H | []]. lia.
  - intros [H | H]; [lia |].
    apply in_flat_map in H. destruct H as [m [_ Hm]].
    revert Hm. destruct (Nat.ltb_spec i m) as [Hlt | _]; [| cbn; intros []].
    intros Hm. apply IH in Hm. lia.
Qed.

Lemma star_from_le (step : nat -> list nat) (n : nat) :
  (forall i j, (i <= n)%nat -> In j (step i) -> (j <= n)%nat) ->
  forall fuel i j, (i <= n)%nat -> In j (star_from step fuel i) -> (j <= n)%nat.
Proof.
  intros Hstep. induction fuel as [| fuel IH]; intros i j Hi;
    cbn [star_from In].
  - intros [H | []]. lia.
  - intros [H | H]; [lia |].
    apply in_flat_map in H. destruct H as [m [Hin Hm]].
    revert Hm. destruct (Nat.ltb_spec i m) as [Hlt | _]; [| cbn; intros []].
    intros Hm. apply (IH m j); [| exact Hm]. apply (Hstep i m Hi Hin).
Qed.

Lemma ends_lower (r : regex) (t : QString) :
  forall i j, In j (ends U r t i) -> (i + min_len r <= j)%nat.
Proof.
  induction r as [| c | | c | | | | | a IHa b IHb | a IHa | a IHa | a IHa];
    intros i j; cbn [ends min_len];
    try (intros H; apply one_char_bounds in H; lia).
  - intros [H | []]. lia.
  - destruct (boundary U t i); [intros [H | []]; lia | intros []].
  - intros H. apply in_flat_map in H. destruct H as [m [Hm Hj]].
    apply IHa in Hm. apply IHb in Hj. lia.
  - intros H. apply star_from_ge in H. lia.
  - intros H. apply in_flat_map in H. destruct H as [m [Hm Hj]].
    apply IHa in Hm. apply star_from_ge in Hj. lia.
  - intros [H | H]; [lia |]. apply IHa in H. lia.
Qed.

Lemma ends_upper (r : regex) (t : QString) :
  forall i j, (i <= List.length t)%nat -> In j (ends U r t i) ->
              (j <= List.length t)%nat.
Proof.
  induction r as [| c | | c | | | | | a IHa b IHb | a IHa | a IHa | a IHa];
    intros i j Hi; cbn [ends];
    try (intros H; apply one_char_bounds in H; lia).
  - intros [H | []]. lia.
  - destruct (boundary U t i); [intros [H | []]; lia | intros []].
  - intros H. apply in_flat_map in H. destruct H as [m [Hm Hj]].
    apply (IHb m j); [| exact Hj]. apply (IHa i m Hi Hm).
  - apply star_from_le; [exact IHa | exact Hi].
  - intros H. apply in_flat_map in H. destruct H as [m [Hm Hj]].
    apply (star_from_le (ends U a t) (List.length t) IHa (List.length t) m j);
      [| exact Hj].
    apply (IHa i m Hi Hm).
  - intros [H | H]; [lia |]. apply (IHa i j Hi H).
Qed.

Lemma fold_max_in (l : list nat) :
  forall e, In (fold_left Nat.max l e) (e :: l).
Proof.
  induction l as [| x l IH]; intros e; cbn [fold_left].
  - left. reflexivity.
  - destruct (IH (Nat.max e x)) as [H | H].
    + rewrite <- H. destruct (Nat.max_dec e x) as [E | E]; rewrite E.
      * left. reflexivity.
      * right. left. reflexivity.
    + right. right. exact H.
Qed.

Lemma fold_max_ge (l : list nat) :
  forall e x, In x (e :: l) -> (x <= fold_left Nat.max l e)%nat.
Proof.
  induction l as [| y l IH]; intros e x; cbn [fold_left].
  - intros [H | []]. lia.
  - intros [H | [H | H]].
    + apply (Nat.le_trans _ (Nat.max e y)); [lia |]. apply IH. left. reflexivity.
    + apply (Nat.le_trans _ (Nat.max e y)); [lia |]. apply IH. left. reflexivity.
    + apply IH. right. exact H.
Qed.

Lemma longest_spec (i : nat) (es : list nat) (l : nat) :
  (forall e, In e es -> (i <= e)%nat) ->
  longest i es = Some l ->
  In (i + l)%nat es /\ forall e, In e es -> (e <= i + l)%nat.
Proof.
  intros Hge. destruct es as [| e es]; cbn [longest]; [discriminate |].
  intros H. inversion H as [Hl]. clear H.
  pose proof (fold_max_in es e) as Hin.
  pose proof (Hge _ Hin) as Hle.
  replace (i + (fold_left Nat.max es e - i))%nat
    with (fold_left Nat.max es e) by lia.
  split; [exact Hin |]. intros x Hx. apply fold_max_ge. exact Hx.
Qed.

Lemma longest_none (i : nat) (es : list nat) :
  longest i es = None <-> es = [].
Proof.
  destruct es; cbn; split; intros H; congruence.
Qed.

Lemma search_some (r : regex) (t : QString) :
  forall n i p l,
    search U r t n i = Some (p, l) ->
    (i <= p <= i + n)%nat
    /\ In (p + l)%nat (ends U r t p)
    /\ (forall e, In e (ends U r t p) -> (e <= p + l)%nat)
    /\ (forall q, (i <= q < p)%nat -> ends U r t q = []).
Proof.
  induction n as [| n IH]; intros i p l; cbn [search];
    destruct (longest i (ends U r t i)) as [len |] eqn:E.
  - intros H. inversion H. subst.
    destruct (longest_spec p (ends U r t p) l) as [H1 H2];
      [intros e He; apply ends_lower in He; lia | exact E |].
    repeat split; try lia; try assumption; intros q Hq; lia.
  - discriminate.
  - intros H. inversion H. subst.
    destruct (longest_spec p (ends U r t p) l) as [H1 H2];
      [intros e He; apply ends_lower in He; lia | exact E |].
    repeat split; try lia; try assumption; intros q Hq; lia.
  - intros H. apply IH in H. destruct H as [H1 [H2 [H3 H4]]].
    repeat split; try lia; try assumption.
    intros q Hq. destruct (Nat.eq_dec q i) as [-> | Hne].
    + apply (proj1 (longest_none i _)). exact E.
    + apply H4. lia.
Qed.

Lemma search_none (r : regex) (t : QString) :
  forall n i, search U r t n i = None ->
              forall q, (i <= q <= i + n)%nat -> ends U r t q = [].
Proof.
  induction n as [| n IH]; intros i; cbn [search];
    destruct (longest i (ends U r t i)) as [len |] eqn:E; try discriminate.
  - intros _ q Hq. replace q with i by lia. apply (proj1 (longest_none i _)). exact E.
  - intros H q Hq. destruct (Nat.eq_dec q i) as [-> | Hne].
    + apply (proj1 (longest_none i _)). exact E.
    + apply (IH (S i) H). lia.
Qed.

(** A search from a valid offset finds nothing, or a match that starts at
    or after the offset, is at least as long as the pattern's shortest
    match, and ends within the text. *)
Lemma indexIn_bounds (r : regex) (t : QString) (offset index length : Z) :
  0 <= offset ->
  indexIn U r t offset = (index, length) ->
  (index = -1 /\ length = -1)
  \/ (offset <= index /\ Z.of_nat (min_len r) <= length
      /\ index + length <= Z.of_nat (List.length t)).
Proof.
  intros Hoff. unfold indexIn.
  destruct (Z.ltb_spec offset 0) as [Hneg | _]; [lia |].
  destruct (Z.ltb_spec offset 0) as [Hneg | _]; [lia |].
  cbn [orb].
  destruct (Z.ltb_spec (Z.of_nat (List.length t)) offset) as [Hbig | Hin].
  - intros H. inversion H. left. split; reflexivity.
  - destruct (search U r t (List.length t - Z.to_nat offset) (Z.to_nat offset))
      as [[p l] |] eqn:E.
    + intros H. inversion H. subst. right.
      apply search_some in E. destruct E as [H1 [H2 [H3 H4]]].
      pose proof (ends_lower r t p _ H2) as Hlow.
      assert (Hp : (p <= List.length t)%nat) by lia.
      pose proof (ends_upper r t p _ Hp H2) as Hup.
      lia.
    + intros H. inversion H. left. split; reflexivity.
Qed.

End Bounds.

(** ** The matcher against the meaning of the patterns *)

Section Meaning.
Variable U : Unicode.
Variable t : QString.

Lemma star_from_sound (a : regex) (step : nat -> list nat) :
  (forall i j, In j (step i) -> Matches U t a i j) ->
  forall fuel i j, In j (star_from step fuel i) -> Matches U t (Star a) i j.
Proof.
  intros Hstep. induction fuel as [| fuel IH]; intros i j;
    cbn [star_from In].
  - intros [<- | []]. apply MStarNil.
  - intros [<- | H]; [apply MStarNil |].
    apply in_flat_map in H. destruct H as [m [Hm Hj]].
    destruct (i <? m)%nat; [| destruct Hj].
    apply (MStarCons U t a i m j); [apply Hstep; exact Hm | apply IH; exact Hj].
Qed.

(** Every position the matcher reports is a match. *)
Lemma ends_sound (r : regex) :
  forall i j, In j (ends U r t i) -> Matches U t r i j.
Proof.
  induction r as [| c | | c | | | | | a IHa b IHb | a IHa | a IHa | a IHa];
    intros i j; cbn [ends]; intros H;
    try (apply one_char_spec in H; destruct H as [-> [d [Hd Hp]]]).
  - destruct H as [<- | []]. apply MEps.
  - apply Z.eqb_eq in Hp. subst d. apply MChr. exact Hd.
  - apply (MDot U t d). exact Hd.
  - apply (MNotChr U t c d); [exact Hd |].
    apply negb_true_iff, Z.eqb_neq in Hp. exact Hp.
  - apply (MDigit U t d); assumption.
  - apply (MWord U t d); assumption.
  - apply (MSpace U t d); assumption.
  - destruct (boundary U t i) eqn:E; [| destruct H].
    destruct H as [<- | []]. apply MBoundary. exact E.
  - apply in_flat_map in H. destruct H as [m [Hm Hj]].
    apply (MCat U t a b i m j); [apply IHa | apply IHb]; assumption.
  - apply (star_from_sound a (ends U a t) IHa _ _ _ H).
  - apply in_flat_map in H. destruct H as [m [Hm Hj]].
    apply (MPlus U t a i m j); [apply IHa; exact Hm |].
    apply (star_from_sound a (ends U a t) IHa _ _ _ Hj).
  - destruct H as [<- | H]; [apply MOptNil | apply MOptOne, IHa; exact H].
Qed.

(** A match goes forward and stays within the text. *)
Lemma Matches_bounds (r : regex) (i j : nat) :
  Matches U t r i j -> (i <= j)%nat /\ (j = i \/ j <= List.length t)%nat.
Proof.
  assert (Hone : forall (c : QChar) k,
             nth_error t k = Some c ->
             (k <= S k)%nat /\ (S k = k \/ S k <= List.length t)%nat).
  { intros c k Hc. split; [lia | right].
    assert (k < List.length t)%nat by (apply nth_error_Some; congruence).
    lia. }
  induction 1; eauto; try lia.
Qed.

(** More fuel reaches no fewer positions. *)
Lemma star_from_more (step : nat -> list nat) :
  forall fuel fuel' i k,
    (fuel <= fuel')%nat ->
    In k (star_from step fuel i) -> In k (star_from step fuel' i).
Proof.
  induction fuel as [| fuel IH]; intros fuel' i k Hle; cbn [star_from In].
  - intros [<- | []]. destruct fuel'; left; reflexivity.
  - destruct fuel' as [| fuel']; [lia |]. cbn [star_from In].
    intros [<- | H]; [left; reflexivity | right].
    apply in_flat_map in H. destruct H as [m [Hm Hk]].
    apply in_flat_map. exists m. split; [exact Hm |].
    destruct (i <? m)%nat; [| destruct Hk].
    apply (IH fuel'); [lia | exact Hk].
Qed.

(** As much fuel as there are characters to the position suffices. *)
Lemma star_from_enough (step : nat -> list nat) :
  forall fuel i k,
    In k (star_from step fuel i) -> In k (star_from step (k - i) i).
Proof.
  induction fuel as [| fuel IH]; intros i k; cbn [star_from In].
  - intros [<- | []]. rewrite Nat.sub_diag. left. reflexivity.
  - intros [<- | H]; [rewrite Nat.sub_diag; left; reflexivity |].
    apply in_flat_map in H. destruct H as [m [Hm Hk]].
    destruct (Nat.ltb_spec i m) as [Him | _]; [| destruct Hk].
    pose proof (star_from_ge step fuel m k Hk) as Hmk.
    apply IH in Hk.
    replace (k - i)%nat with (S (k - S i)) by lia.
    cbn [star_from In]. right. apply in_flat_map.
    exists m. split; [exact Hm |].
    rewrite (proj2 (Nat.ltb_lt i m) Him).
    apply (star_from_more step (k - m)); [lia | exact Hk].
Qed.

Lemma star_from_complete (a : regex) :
  (forall i j, Matches U t a i j -> In j (ends U a t i)) ->
  forall i k, Matches U t (Star a) i k ->
              In k (star_from (ends U a t) (List.length t) i).
Proof.
  intros Ha i k H. remember (Star a) as r eqn:Er.
  induction H as [| | | | | | | | | a' i | a' i j k H1 _ H2 IH2 | | |];
    try discriminate; inversion Er; subst a'.
  - destruct (List.length t); left; reflexivity.
  - specialize (IH2 eq_refl).
    destruct (Nat.eq_dec i j) as [-> | Hne]; [exact IH2 |].
    pose proof (Matches_bounds _ _ _ H1) as [Hij _].
    pose proof (Matches_bounds _ _ _ H2) as [Hjk Hk].
    apply star_from_enough in IH2.
    apply (star_from_more (ends U a t) (S (k - j))).
    + assert (j <= List.length t)%nat.
      { destruct (Matches_bounds _ _ _ H1) as [_ [E | E]]; lia. }
      lia.
    + cbn [star_from In]. right. apply in_flat_map.
      exists j. split; [apply Ha; exact H1 |].
      rewrite (proj2 (Nat.ltb_lt i j)) by lia. exact IH2.
Qed.

(** Every match is reported. *)
Lemma ends_complete (r : regex) :
  forall i j, Matches U t r i j -> In j (ends U r t i).
Proof.
  induction r as [| c | | c | | | | | a IHa b IHb | a IHa | a IHa | a IHa];
    intros i j H.
  - inversion H; subst. left. reflexivity.
  - inversion H; subst. apply one_char_spec.
    split; [reflexivity |]. exists c. split; [assumption | apply Z.eqb_refl].
  - inversion H; subst. apply one_char_spec.
    split; [reflexivity |]. eexists. split; [eassumption | reflexivity].
  - inversion H; subst. apply one_char_spec.
    split; [reflexivity |]. eexists. split; [eassumption |].
    apply negb_true_iff, Z.eqb_neq. assumption.
  - inversion H; subst. apply one_char_spec.
    split; [reflexivity |]. eexists. split; eassumption.
  - inversion H; subst. apply one_char_spec.
    split; [reflexivity |]. eexists. split; eassumption.
  - inversion H; subst. apply one_char_spec.
    split; [reflexivity |]. eexists. split; eassumption.
  - inversion H; subst. cbn [ends].
    match goal with E : boundary U t j = true |- _ => rewrite E end.
    left. reflexivity.
  - inversion H; subst. cbn [ends]. apply in_flat_map.
    eexists. split; [apply IHa | apply IHb]; eassumption.
  - cbn [ends]. apply star_from_complete; assumption.
  - inversion H; subst. cbn [ends]. apply in_flat_map.
    eexists. split; [apply IHa; eassumption |].
    apply star_from_complete; assumption.
  - inversion H; subst; cbn [ends]; [left; reflexivity | right].
    apply IHa. assumption.
Qed.

(** The matcher reports exactly the matches. *)
Lemma ends_Matches (r : regex) (i j : nat) :
  In j (ends U r t i) <-> Matches U t r i j.
Proof.
  split; [apply ends_sound | apply ends_complete].
Qed.

End Meaning.

(** ** What the rules are and what their spans cover *)

(** The registered patterns, printed back, are the pattern strings of
    lines 18-28. *)
Lemma patterns_as_written :
  let dq := String (ascii_of_nat 34) EmptyString in
  map (fun r => show (fst r)) highlighting_rules
  = keywords
    ++ [ "#.*"%string; (dq ++ "[^" ++ dq ++ "]*" ++ dq)%string;
         "'[^']*'"%string; "\b\d+(\.\d*)?\b"%string;
         "\bdef\s+\w+"%string; "\bclass\s+\w+"%string ].
Proof. reflexivity. Qed.

Lemma nth_error_skipn {A : Type} (l : list A) :
  forall i c,
    nth_error l i = Some c <-> exists rest, skipn i l = c :: rest.
Proof.
  induction l as [| x l IH]; intros i c.
  - destruct i; cbn; split; try discriminate; intros [rest H]; discriminate.
  - destruct i as [| i]; cbn [nth_error skipn].
    + split; [intros H; inversion H; eauto |].
      intros [rest H]. inversion H. reflexivity.
    + apply IH.
Qed.

Section Literal.
Variable U : Unicode.
Variable t : QString.

(** A pattern without special characters matches its own characters and
    nothing else. *)
Lemma lit_ends (s : list QChar) :
  forall i j,
    In j (ends U (fold_right (fun c r => Cat (Chr c) r) Eps s) t i) <->
    j = (i + List.length s)%nat
    /\ firstn (List.length s) (skipn i t) = s.
Proof.
  induction s as [| c s IH]; intros i j; cbn [fold_right ends List.length].
  - cbn [In firstn]. rewrite Nat.add_0_r. intuition.
  - rewrite in_flat_map. split.
    + intros [m [Hm Hj]]. apply one_char_spec in Hm.
      destruct Hm as [-> [d [Hd Hp]]]. apply Z.eqb_eq in Hp. subst d.
      apply IH in Hj. destruct Hj as [-> Hs].
      split; [lia |].
      destruct (proj1 (nth_error_skipn t i c) Hd) as [rest E].
      rewrite E. cbn [firstn]. f_equal.
      replace (S i) with (1 + i)%nat in Hs by lia.
      rewrite <- skipn_skipn, E in Hs. exact Hs.
    + intros [-> Hs].
      destruct (skipn i t) as [| d rest] eqn:E; [discriminate |].
      cbn [firstn] in Hs. injection Hs as Hd Hrest. subst d.
      assert (Hc : nth_error t i = Some c)
        by (apply (proj2 (nth_error_skipn t i c)); eauto).
      assert (Hnext : skipn (S i) t = rest).
      { replace (S i) with (1 + i)%nat by lia.
        rewrite <- skipn_skipn, E. reflexivity. }
      exists (S i). split.
      * apply one_char_spec. split; [reflexivity |].
        exists c. split; [exact Hc | apply Z.eqb_refl].
      * apply (proj2 (IH (S i) _)). split; [lia |].
        rewrite Hnext. exact Hrest.
Qed.

End Literal.

Section SpansMatch.
Variable U : Unicode.

Lemma indexIn_longest_match (r : regex) (t : QString)
      (offset index length : Z) (c : QColor) :
  0 <= offset ->
  indexIn U r t offset = (index, length) ->
  index < 0 \/ longest_match U r t (index, length, c).
Proof.
  intros Hoff. unfold indexIn.
  destruct (Z.ltb_spec offset 0) as [Hneg | _]; [lia |].
  destruct (Z.ltb_spec offset 0) as [Hneg | _]; [lia |].
  cbn [orb].
  destruct (Z.ltb (Z.of_nat (List.length t)) offset).
  { intros H. inversion H. left. lia. }
  destruct (search U r t (List.length t - Z.to_nat offset) (Z.to_nat offset))
    as [[p l] |] eqn:E; intros H; inversion H; subst; [right | left; lia].
  apply search_some in E. destruct E as [_ [H2 [H3 _]]].
  exists p, l. cbn. repeat split.
  - apply ends_sound. exact H2.
  - intros j Hj. apply H3. apply ends_complete. exact Hj.
Qed.

(** Every span a rule makes is the longest match of its pattern at the
    span's start, in the rule's colour. *)
Lemma scan_longest_matches (expression : regex) (text : QString)
      (format : QTextCharFormat) :
  forall (fuel : nat) (index length : Z) (b b' : Block),
    index < 0 \/ longest_match U expression text (index, length, format) ->
    scan U fuel expression text format index length b = Some b' ->
    exists new,
      spans b' = spans b ++ new
      /\ Forall (fun sp => colour sp = format
                           /\ longest_match U expression text sp) new.
Proof.
  induction fuel as [| fuel IH]; intros index length b b' Hm H;
    cbn [scan] in H; destruct (Z.ltb_spec index 0) as [Hneg | Hpos];
    try discriminate;
    try (inversion H; subst; exists []; rewrite app_nil_r;
         split; [reflexivity | constructor]).
  destruct Hm as [Hm | Hm]; [lia |].
  destruct (indexIn U expression text (index + length)) as [i' l'] eqn:E.
  apply (indexIn_longest_match _ _ _ _ _ format) in E.
  - apply IH in H; [| exact E]. destruct H as [new [Hnew Hall]].
    exists ((index, length, format) :: new). split.
    + rewrite Hnew. cbn [setFormat spans]. rewrite <- app_assoc. reflexivity.
    + constructor; [split; [reflexivity | exact Hm] | exact Hall].
  - destruct Hm as [i [l [Hi [Hl _]]]]. cbn in Hi, Hl. lia.
Qed.

Lemma apply_rule_longest_matches (fuel : nat) (text : QString) (r : rule)
      (b b' : Block) :
  apply_rule U fuel text r b = Some b' ->
  exists new,
    spans b' = spans b ++ new
    /\ Forall (fun sp => colour sp = snd r
                         /\ longest_match U (fst r) text sp) new.
Proof.
  destruct r as [pattern format]. unfold apply_rule. cbn [fst snd].
  destruct (indexIn U pattern text 0) as [index length] eqn:E.
  apply scan_longest_matches.
  apply (indexIn_longest_match pattern text 0); [lia | exact E].
Qed.

(** A span of a keyword rule lies on the letters of the keyword, and on
    nothing more; what stands around them plays no part. *)
Lemma keyword_span_letters (kw : string) (text : QString) (sp : span) :
  longest_match U (lit kw) text sp ->
  count sp = Z.of_nat (List.length (str kw))
  /\ firstn (List.length (str kw)) (skipn (Z.to_nat (start sp)) text)
     = str kw.
Proof.
  intros [i [l [Hi [Hl [Hm _]]]]].
  apply ends_complete in Hm. unfold lit in Hm. apply lit_ends in Hm.
  destruct Hm as [Hlen Htext].
  rewrite Hi, Hl, Nat2Z.id. split; [| exact Htext].
  f_equal. apply (proj1 (Nat.add_cancel_l _ _ i)). exact Hlen.
Qed.

End SpansMatch.

(** ** Termination of the highlighter *)

Section Termination.
Variable U : Unicode.

(** The loop ends within as many iterations as there are characters from
    the current match to the end of the line, provided the pattern cannot
    match the empty string. *)
Lemma scan_terminates (expression : regex) (text : QString)
      (format : QTextCharFormat) :
  (1 <= min_len expression)%nat ->
  forall (fuel : nat) (index length : Z) (b : Block),
    index < 0
    \/ (0 <= index /\ 1 <= length
        /\ index + length <= Z.of_nat (List.length text)
        /\ Z.of_nat (List.length text) - index <= Z.of_nat fuel) ->
    exists b', scan U fuel expression text format index length b = Some b'.
Proof.
  intros Hmin. induction fuel as [| fuel IH]; intros index length b H.
  - cbn [scan]. destruct (Z.ltb_spec index 0) as [Hneg | Hpos].
    + exists b. reflexivity.
    + exfalso. lia.
  - cbn [scan]. destruct (Z.ltb_spec index 0) as [Hneg | Hpos].
    + exists b. reflexivity.
    + destruct H as [H | [_ [Hlen [Hend Hfuel]]]]; [lia |].
      destruct (indexIn U expression text (index + length))
        as [index' length'] eqn:E.
      apply IH.
      apply indexIn_bounds in E; [| lia].
      destruct E as [[H1 _] | [H1 [H2 H3]]]; [left; lia | right; lia].
Qed.

Lemma scan_fuel_mono (expression : regex) (text : QString)
      (format : QTextCharFormat) :
  forall (fuel fuel' : nat) (index length : Z) (b b' : Block),
    scan U fuel expression text format index length b = Some b' ->
    (fuel <= fuel')%nat ->
    scan U fuel' expression text format index length b = Some b'.
Proof.
  induction fuel as [| fuel IH]; intros fuel' index length b b' H Hle.
  - cbn [scan] in H. destruct fuel'; cbn [scan];
      destruct (index <? 0); congruence.
  - destruct fuel' as [| fuel']; [lia |].
    cbn [scan] in *. destruct (index <? 0); [exact H |].
    destruct (indexIn U expression text (index + length)) as [i' l'].
    apply (IH fuel'); [exact H | lia].
Qed.

Lemma apply_rule_terminates (text : QString) (r : rule) (fuel : nat)
      (b : Block) :
  (1 <= min_len (fst r))%nat ->
  (List.length text <= fuel)%nat ->
  exists b', apply_rule U fuel text r b = Some b'.
Proof.
  destruct r as [pattern format]. cbn [fst]. intros Hmin Hfuel.
  unfold apply_rule.
  destruct (indexIn U pattern text 0) as [index length] eqn:E.
  apply scan_terminates; [exact Hmin |].
  apply indexIn_bounds in E; [| lia].
  destruct E as [[H1 _] | [H1 [H2 H3]]]; [left; lia | right; lia].
Qed.

Lemma for_rules_terminates (text : QString) (fuel : nat) :
  (List.length text <= fuel)%nat ->
  forall (rules : list rule) (b : Block),
    Forall (fun r => (1 <= min_len (fst r))%nat) rules ->
    exists b', for_rules U fuel text rules b = Some b'.
Proof.
  intros Hfuel. induction rules as [| r rules IH]; intros b Hall.
  - exists b. reflexivity.
  - inversion Hall as [| ? ? Hr Hrest]. subst.
    destruct (apply_rule_terminates text r fuel b Hr Hfuel) as [b1 H1].
    cbn [for_rules]. rewrite H1. apply IH. exact Hrest.
Qed.

End Termination.

(** Every registered pattern takes at least one character. *)
Lemma registered_patterns_consume :
  Forall (fun r => (1 <= min_len (fst r))%nat) highlighting_rules.
Proof.
  repeat constructor.
Qed.

(** The model does not end by construction: with a pattern that matches
    the empty string the same loop never leaves position 0. *)
Lemma empty_match_would_loop (U : Unicode) (fuel : nat) (b : Block) :
  apply_rule U fuel (str "abc") (Star (Chr (chr "x")), blue) b = None.
Proof.
  unfold apply_rule.
  change (indexIn U (Star (Chr (chr "x"))) (str "abc") 0) with (0, 0).
  revert b. induction fuel as [| fuel IH]; intros b; [reflexivity |].
  cbn [scan]. cbn [Z.ltb Z.compare].
  change (indexIn U (Star (Chr (chr "x"))) (str "abc") (0 + 0)) with (0, 0).
  apply IH.
Qed.

(** C9: [highlightBlock] terminates on every line.  Every registered
    pattern matches at least one character; so each search after a match
    either finds nothing or finds a match that starts strictly further
    right and ends within the line; and a number of iterations equal to
    the length of the line is enough for each rule's loop to end. *)
Theorem highlightBlock_terminates (U : Unicode) (text : QString) :
  (forall r i j,
      In r highlighting_rules -> In j (ends U (fst r) text i) -> (i < j)%nat)
  /\ (forall r index length index' length',
         In r highlighting_rules ->
         0 <= index -> 1 <= length ->
         indexIn U (fst r) text (index + length) = (index', length') ->
         0 <= index' ->
         index < index' /\ 1 <= length'
         /\ index' + length' <= Z.of_nat (List.length text))
  /\ (forall fuel, (List.length text <= fuel)%nat ->
                   exists b, highlightBlock U fuel text = Some b).
Proof.
  pose proof registered_patterns_consume as Hall.
  rewrite Forall_forall in Hall.
  split; [| split].
  - intros r i j Hr Hj. apply Hall in Hr. apply ends_lower in Hj. lia.
  - intros r index length index' length' Hr Hi Hl E Hi'.
    apply Hall in Hr. apply indexIn_bounds in E; [| lia].
    destruct E as [[H1 _] | [H1 [H2 H3]]]; lia.
  - intros fuel Hfuel. unfold highlightBlock.
    apply for_rules_terminates; [exact Hfuel |].
    exact registered_patterns_consume.
Qed.

Lemma highlightBlock_terminates_witness :
  exists b,
    highlightBlock basic_latin 19 (str "if x: return 1 # if") = Some b.
Proof.
  apply (proj2 (proj2 (highlightBlock_terminates basic_latin
                         (str "if x: return 1 # if")))).
  cbn. lia.
Defined.

(** ** Overlapping rules *)

Lemma fill_length (s e : Z) (f : QTextCharFormat) :
  forall l i, List.length (fill i s e f l) = List.length l.
Proof.
  induction l as [| x l IH]; intros i; cbn [fill List.length];
    [reflexivity | rewrite IH; reflexivity].
Qed.

Lemma fill_nth (s e : Z) (f : QTextCharFormat) :
  forall l i k,
    nth_error (fill i s e f l) k
    = option_map
        (fun x => if (s <=? i + Z.of_nat k) && (i + Z.of_nat k <? e)
                  then Some f else x)
        (nth_error l k).
Proof.
  induction l as [| x l IH]; intros i k.
  - destruct k; reflexivity.
  - destruct k as [| k].
    + cbn [fill nth_error option_map]. rewrite Z.add_0_r. reflexivity.
    + cbn [fill nth_error]. rewrite IH.
      replace (i + 1 + Z.of_nat k) with (i + Z.of_nat (S k)) by lia.
      reflexivity.
Qed.

Lemma painted_by_snoc (l : list span) (sp : span) (k : Z) :
  painted_by (l ++ [sp]) k
  = if covers sp k then Some (colour sp) else painted_by l k.
Proof.
  unfold painted_by. rewrite fold_left_app. reflexivity.
Qed.

Lemma fresh_replayed (t : QString) : replayed (List.length t) (fresh t).
Proof.
  split; [apply repeat_length |].
  intros k Hk. cbn. rewrite nth_error_repeat by exact Hk. reflexivity.
Qed.

Lemma setFormat_replayed (n : nat) (b : Block) (s c : Z)
      (f : QTextCharFormat) :
  replayed n b -> replayed n (setFormat s c f b).
Proof.
  intros [Hlen Hnth]. unfold setFormat, replayed. cbn [formatChanges spans].
  rewrite Hlen.
  destruct (Z.ltb_spec s 0) as [Hneg | Hpos]; cbn [orb].
  - split; [exact Hlen |]. intros k Hk.
    rewrite painted_by_snoc. unfold covers, start. cbn [fst].
    destruct (Z.leb_spec 0 s); [lia |]. cbn [andb]. apply Hnth. exact Hk.
  - destruct (Z.leb_spec (Z.of_nat n) s) as [Hout | Hin].
    + split; [exact Hlen |]. intros k Hk.
      rewrite painted_by_snoc. unfold covers, start. cbn [fst].
      destruct (Z.leb_spec s (Z.of_nat k)); [lia |].
      rewrite andb_false_r. cbn [andb]. apply Hnth. exact Hk.
    + split; [rewrite fill_length; exact Hlen |]. intros k Hk.
      rewrite fill_nth, (Hnth k Hk), painted_by_snoc. cbn [option_map].
      unfold covers, start, count, colour. cbn [fst snd].
      rewrite Z.add_0_l.
      destruct (Z.leb_spec 0 s); [| lia]. cbn [andb].
      destruct (Z.leb_spec s (Z.of_nat k)); cbn [andb]; [| reflexivity].
      destruct (Z.ltb_spec (Z.of_nat k) (Z.min (s + c) (Z.of_nat n)));
        destruct (Z.ltb_spec (Z.of_nat k) (s + c)); try reflexivity; lia.
Qed.

Section Spans.
Variable U : Unicode.

(** One rule's loop adds spans of the rule's colour and keeps the block
    replayed. *)
Lemma scan_spans (expression : regex) (text : QString)
      (format : QTextCharFormat) (n : nat) :
  forall (fuel : nat) (index length : Z) (b b' : Block),
    scan U fuel expression text format index length b = Some b' ->
    replayed n b ->
    replayed n b'
    /\ exists new, spans b' = spans b ++ new
                   /\ Forall (fun sp => colour sp = format) new.
Proof.
  induction fuel as [| fuel IH]; intros index length b b' H Hb;
    cbn [scan] in H; destruct (index <? 0).
  - inversion H; subst. split; [exact Hb |].
    exists []. rewrite app_nil_r. split; [reflexivity | constructor].
  - discriminate.
  - inversion H; subst. split; [exact Hb |].
    exists []. rewrite app_nil_r. split; [reflexivity | constructor].
  - destruct (indexIn U expression text (index + length)) as [i' l'].
    apply IH in H; [| apply setFormat_replayed; exact Hb].
    destruct H as [Hb' [new [Hnew Hall]]].
    split; [exact Hb' |].
    exists ((index, length, format) :: new).
    split.
    + rewrite Hnew. cbn [setFormat spans]. rewrite <- app_assoc. reflexivity.
    + constructor; [reflexivity | exact Hall].
Qed.

Lemma apply_rule_spans (text : QString) (r : rule) (n fuel : nat)
      (b b' : Block) :
  apply_rule U fuel text r b = Some b' ->
  replayed n b ->
  replayed n b'
  /\ exists new, spans b' = spans b ++ new
                 /\ Forall (fun sp => colour sp = snd r) new.
Proof.
  destruct r as [pattern format]. unfold apply_rule.
  destruct (indexIn U pattern text 0) as [index length].
  apply scan_spans.
Qed.

Lemma StronglySorted_app {A : Type} (R : A -> A -> Prop) (l1 l2 : list A) :
  StronglySorted R l1 -> StronglySorted R l2 ->
  (forall x y, In x l1 -> In y l2 -> R x y) ->
  StronglySorted R (l1 ++ l2).
Proof.
  induction l1 as [| a l1 IH]; intros H1 H2 H12; [exact H2 |].
  apply StronglySorted_inv in H1. destruct H1 as [H1 Ha].
  cbn [app]. constructor.
  - apply IH; [exact H1 | exact H2 |].
    intros x y Hx Hy. apply H12; [right; exact Hx | exact Hy].
  - apply Forall_app. split; [exact Ha |].
    apply Forall_forall. intros y Hy. apply H12; [left; reflexivity | exact Hy].
Qed.

(** The spans come out in the order of the rules. *)
Lemma for_rules_spans (text : QString) (n fuel : nat) :
  forall (rules : list rule) (b b' : Block),
    StronglySorted (fun r1 r2 => (rank (snd r1) <= rank (snd r2))%nat) rules ->
    for_rules U fuel text rules b = Some b' ->
    replayed n b ->
    replayed n b'
    /\ exists new, spans b' = spans b ++ new
                   /\ StronglySorted not_after new
                   /\ Forall (fun sp => exists r, In r rules
                                                  /\ colour sp = snd r) new.
Proof.
  induction rules as [| r rules IH]; intros b b' Hsorted H Hb.
  - inversion H; subst. split; [exact Hb |].
    exists []. rewrite app_nil_r.
    split; [reflexivity | split; constructor].
  - cbn [for_rules] in H.
    destruct (apply_rule U fuel text r b) as [b1 |] eqn:E1; [| discriminate].
    apply StronglySorted_inv in Hsorted. destruct Hsorted as [Hrest Hhead].
    destruct (apply_rule_spans text r n fuel b b1 E1 Hb)
      as [Hb1 [new1 [Hnew1 Hall1]]].
    destruct (IH b1 b' Hrest H Hb1) as [Hb' [new2 [Hnew2 [Hs2 Hall2]]]].
    split; [exact Hb' |].
    exists (new1 ++ new2).
    rewrite Forall_forall in Hall1, Hall2, Hhead.
    split; [rewrite Hnew2, Hnew1, app_assoc; reflexivity | split].
    + apply StronglySorted_app; [| exact Hs2 |].
      * clear Hnew1. induction new1 as [| x new1 IHn]; constructor.
        -- apply IHn. intros y Hy. apply Hall1. right. exact Hy.
        -- apply Forall_forall. intros y Hy. unfold not_after.
           rewrite (Hall1 x), (Hall1 y);
             [lia | right; exact Hy | left; reflexivity].
      * intros x y Hx Hy. unfold not_after.
        rewrite (Hall1 x Hx).
        destruct (Hall2 y Hy) as [r2 [Hr2 Hc]]. rewrite Hc.
        apply (Hhead r2 Hr2).
    + apply Forall_forall. intros x Hx. apply in_app_or in Hx.
      destruct Hx as [Hx | Hx].
      * exists r. split; [left; reflexivity | apply Hall1; exact Hx].
      * destruct (Hall2 x Hx) as [r2 [Hr2 Hc]].
        exists r2. split; [right; exact Hr2 | exact Hc].
Qed.

End Spans.

(** In a list of spans that follows the order of registration, the last
    span to cover a character belongs to the latest rule that covers it. *)
Lemma painted_by_latest (k : Z) :
  forall l : list span,
    StronglySorted not_after l ->
    match painted_by l k with
    | Some c =>
        (exists sp, In sp l /\ covers sp k = true /\ colour sp = c)
        /\ forall sp, In sp l -> covers sp k = true ->
                      (rank (colour sp) <= rank c)%nat
    | None => forall sp, In sp l -> covers sp k = false
    end.
Proof.
  induction l as [| sp l IH] using rev_ind; intros Hs.
  - cbn. intros sp [].
  - rewrite painted_by_snoc.
    assert (Hl : StronglySorted not_after l /\ Forall (fun x => not_after x sp) l).
    { clear IH. induction l as [| a l IHl].
      - split; constructor.
      - cbn [app] in Hs. apply StronglySorted_inv in Hs.
        destruct Hs as [Hs Ha]. destruct (IHl Hs) as [H1 H2].
        apply Forall_app in Ha. destruct Ha as [Ha1 Ha2].
        split; constructor; try assumption.
        inversion Ha2; assumption. }
    destruct Hl as [Hl Hle]. specialize (IH Hl).
    rewrite Forall_forall in Hle.
    destruct (covers sp k) eqn:Ec.
    + split.
      * exists sp. split; [apply in_or_app; right; left; reflexivity |].
        split; [exact Ec | reflexivity].
      * intros x Hx _. apply in_app_or in Hx. destruct Hx as [Hx | [Hx | []]].
        -- apply (Hle x Hx).
        -- subst. lia.
    + destruct (painted_by l k) as [c |].
      * destruct IH as [[x [Hx [Hcov Hc]]] Hmax]. split.
        -- exists x. split; [apply in_or_app; left; exact Hx |].
           split; assumption.
        -- intros y Hy Hcy. apply in_app_or in Hy.
           destruct Hy as [Hy | [Hy | []]].
           ++ apply Hmax; assumption.
           ++ subst. congruence.
      * intros y Hy. apply in_app_or in Hy. destruct Hy as [Hy | [Hy | []]].
        -- apply IH. exact Hy.
        -- subst. exact Ec.
Qed.

(** The rules as registered: twenty keywords, the comment, the two string
    patterns, the number, the two name patterns. *)
Lemma registration_order :
  map (fun r => rank (snd r)) highlighting_rules
  = repeat 0%nat 20 ++ [1; 2; 2; 3; 4; 4]%nat.
Proof. reflexivity. Qed.

Lemma rules_in_order :
  StronglySorted (fun r1 r2 => (rank (snd r1) <= rank (snd r2))%nat)
                 highlighting_rules.
Proof.
  repeat (constructor; [| repeat (constructor; [cbn; lia |]); constructor]).
  constructor.
Qed.

(** C3: the rules are applied in the order of registration (keywords,
    comments, strings, numbers, names), so the spans come out in that
    order; and the colour a character ends with is the colour of a rule
    that matched it and that no rule matching it was registered after:
    wherever rules overlap, the one registered last wins.  A character no
    rule matched keeps no colour. *)
Theorem last_registered_rule_wins (U : Unicode) (fuel : nat) (text : QString)
        (b : Block) :
  highlightBlock U fuel text = Some b ->
  map (fun r => rank (snd r)) highlighting_rules
  = repeat 0%nat 20 ++ [1; 2; 2; 3; 4; 4]%nat
  /\ StronglySorted not_after (spans b)
  /\ forall k, (k < List.length text)%nat ->
       match nth_error (formatChanges b) k with
       | Some (Some c) =>
           (exists sp, In sp (spans b) /\ covers sp (Z.of_nat k) = true
                       /\ colour sp = c)
           /\ forall sp, In sp (spans b) -> covers sp (Z.of_nat k) = true ->
                         (rank (colour sp) <= rank c)%nat
       | Some None =>
           forall sp, In sp (spans b) -> covers sp (Z.of_nat k) = false
       | None => False
       end.
Proof.
  intros H. unfold highlightBlock in H.
  destruct (for_rules_spans U text (List.length text) fuel highlighting_rules
              (fresh text) b rules_in_order H (fresh_replayed text))
    as [[Hlen Hnth] [new [Hnew [Hsorted _]]]].
  cbn [fresh spans app] in Hnew. rewrite <- Hnew in Hsorted.
  split; [exact registration_order | split; [exact Hsorted |]].
  intros k Hk. rewrite (Hnth k Hk).
  pose proof (painted_by_latest (Z.of_nat k) (spans b) Hsorted) as P.
  destruct (painted_by (spans b) (Z.of_nat k)); exact P.
Qed.

Lemma last_registered_rule_wins_witness :
  exists b,
    highlightBlock basic_latin 25 (str "def f(): return 1 # for 2") = Some b
    /\ StronglySorted not_after (spans b)
    /\ In (0, 3, blue) (spans b) /\ In (0, 5, cyan) (spans b)
    /\ nth_error (formatChanges b) 0 = Some (Some cyan).
Proof.
  assert (H : exists b,
             highlightBlock basic_latin 25 (str "def f(): return 1 # for 2")
             = Some b
             /\ In (0, 3, blue) (spans b) /\ In (0, 5, cyan) (spans b)
             /\ nth_error (formatChanges b) 0 = Some (Some cyan)).
  { eexists. split; [vm_compute; reflexivity |].
    cbn. intuition. }
  destruct H as [b [H [H1 [H2 H3]]]].
  exists b. split; [exact H | split].
  - exact (proj1 (proj2 (last_registered_rule_wins basic_latin 25 _ b H))).
  - repeat split; assumption.
Defined.

(** ** Strings and comments on one line *)

Section CharRuns.
Variable U : Unicode.
Variable t : QString.

(** A starred character class reaches exactly the positions up to which
    every character is in the class. *)
Lemma star_one_char_inv (p : QChar -> bool) :
  forall (fuel i j : nat),
    In j (star_from (one_char p t) fuel i) ->
    (i <= j)%nat
    /\ forall m, (i <= m < j)%nat ->
                 exists c, nth_error t m = Some c /\ p c = true.
Proof.
  induction fuel as [| fuel IH]; intros i j; cbn [star_from In].
  - intros [H | []]. subst. split; [lia | intros m Hm; lia].
  - intros [H | H]; [subst; split; [lia | intros m Hm; lia] |].
    apply in_flat_map in H. destruct H as [k [Hk Hj]].
    apply one_char_spec in Hk. destruct Hk as [-> Hc].
    rewrite (proj2 (Nat.ltb_lt i (S i))) in Hj by lia.
    apply IH in Hj. destruct Hj as [Hle Hall].
    split; [lia |]. intros m Hm.
    destruct (Nat.eq_dec m i) as [-> | Hne]; [exact Hc | apply Hall; lia].
Qed.

Lemma star_one_char_in (p : QChar -> bool) :
  forall (fuel i j : nat),
    (i <= j)%nat -> (j - i <= fuel)%nat ->
    (forall m, (i <= m < j)%nat ->
               exists c, nth_error t m = Some c /\ p c = true) ->
    In j (star_from (one_char p t) fuel i).
Proof.
  induction fuel as [| fuel IH]; intros i j Hij Hfuel Hall;
    cbn [star_from In].
  - left. lia.
  - destruct (Nat.eq_dec i j) as [-> | Hne]; [left; reflexivity | right].
    apply in_flat_map. exists (S i). split.
    + apply one_char_spec. split; [reflexivity |]. apply Hall. lia.
    + rewrite (proj2 (Nat.ltb_lt i (S i))) by lia.
      apply IH; [lia | lia |]. intros m Hm. apply Hall. lia.
Qed.

(** A match of a string pattern runs from a quote to the next quote. *)
Lemma quoted_ends_inv (q : QChar) (i j : nat) :
  In j (ends U (quoted q) t i) ->
  nth_error t i = Some q
  /\ exists m, j = S m /\ (i < m)%nat /\ nth_error t m = Some q
               /\ forall k c, (i < k < m)%nat -> nth_error t k = Some c ->
                              c <> q.
Proof.
  unfold quoted. cbn [ends]. intros H.
  apply in_flat_map in H. destruct H as [k1 [H1 H]].
  apply one_char_spec in H1. destruct H1 as [-> [c1 [Hc1 Hq1]]].
  apply Z.eqb_eq in Hq1. subst c1.
  apply in_flat_map in H. destruct H as [m [Hm H]].
  apply one_char_spec in H. destruct H as [-> [c2 [Hc2 Hq2]]].
  apply Z.eqb_eq in Hq2. subst c2.
  apply star_one_char_inv in Hm. destruct Hm as [Hle Hall].
  split; [exact Hc1 |]. exists m. repeat split; try assumption; try lia.
  intros k c Hk Hc Heq. destruct (Hall k) as [c' [Hc' Hne]]; [lia |].
  rewrite Hc in Hc'. inversion Hc'. subst c'.
  rewrite Heq, Z.eqb_refl in Hne. discriminate.
Qed.

Lemma quoted_ends_in (q : QChar) (i m : nat) :
  nth_error t i = Some q -> nth_error t m = Some q -> (i < m)%nat ->
  (forall k c, (i < k < m)%nat -> nth_error t k = Some c -> c <> q) ->
  In (S m) (ends U (quoted q) t i).
Proof.
  intros Hi Hm Him Hall. unfold quoted. cbn [ends].
  apply in_flat_map. exists (S i). split.
  { apply one_char_spec. split; [reflexivity |].
    exists q. split; [exact Hi | apply Z.eqb_refl]. }
  apply in_flat_map. exists m. split.
  - assert (Hlen : (m < List.length t)%nat)
      by (apply nth_error_Some; congruence).
    apply star_one_char_in; [lia | lia |].
    intros k Hk.
    destruct (nth_error t k) as [c |] eqn:Ec.
    + exists c. split; [reflexivity |].
      apply negb_true_iff, Z.eqb_neq. apply (Hall k c); [lia | exact Ec].
    + apply nth_error_None in Ec. lia.
  - apply one_char_spec. split; [reflexivity |].
    exists q. split; [exact Hm | apply Z.eqb_refl].
Qed.

(** A comment runs from a hash to the end of the line. *)
Lemma comment_ends_inv (i j : nat) :
  In j (ends U comment_pattern t i) -> nth_error t i = Some (chr "#").
Proof.
  unfold comment_pattern. cbn [ends]. intros H.
  apply in_flat_map in H. destruct H as [k [Hk _]].
  apply one_char_spec in Hk. destruct Hk as [_ [c [Hc Hq]]].
  apply Z.eqb_eq in Hq. congruence.
Qed.

Lemma comment_ends_in (i : nat) :
  nth_error t i = Some (chr "#") ->
  In (List.length t) (ends U comment_pattern t i).
Proof.
  intros Hi. unfold comment_pattern. cbn [ends].
  assert (Hlen : (i < List.length t)%nat)
    by (apply nth_error_Some; congruence).
  apply in_flat_map. exists (S i). split.
  - apply one_char_spec. split; [reflexivity |].
    exists (chr "#"). split; [exact Hi | reflexivity].
  - apply star_one_char_in; [lia | lia |].
    intros m Hm. destruct (nth_error t m) as [c |] eqn:Ec.
    + exists c. split; reflexivity.
    + apply nth_error_None in Ec. lia.
Qed.

(** The search finds the first position with a match, and there the
    longest one. *)
Lemma search_first (r : regex) (n i p l : nat) :
  (i <= p <= i + n)%nat ->
  (forall q, (i <= q < p)%nat -> ends U r t q = []) ->
  In (p + l)%nat (ends U r t p) ->
  (forall e, In e (ends U r t p) -> (e <= p + l)%nat) ->
  search U r t n i = Some (p, l).
Proof.
  intros Hp Hbefore Hin Hmax.
  destruct (search U r t n i) as [[p' l'] |] eqn:E.
  - apply search_some in E. destruct E as [H1 [H2 [H3 H4]]].
    assert (p' = p).
    { destruct (Nat.lt_trichotomy p' p) as [Hlt | [Heq | Hgt]];
        [| exact Heq |].
      - rewrite (Hbefore p') in H2 by lia. destruct H2.
      - rewrite (H4 p) in Hin by lia. destruct Hin. }
    subst p'. apply H3 in Hin. apply Hmax in H2.
    f_equal. f_equal. lia.
  - rewrite (search_none U r t n i E p) in Hin by lia. destruct Hin.
Qed.

Lemma indexIn_found (r : regex) (offset p l : nat) :
  (offset <= p <= List.length t)%nat ->
  (forall q, (offset <= q < p)%nat -> ends U r t q = []) ->
  In (p + l)%nat (ends U r t p) ->
  (forall e, In e (ends U r t p) -> (e <= p + l)%nat) ->
  indexIn U r t (Z.of_nat offset) = (Z.of_nat p, Z.of_nat l).
Proof.
  intros Hp Hbefore Hin Hmax. unfold indexIn.
  destruct (Z.ltb_spec (Z.of_nat offset) 0) as [Hneg | _]; [lia |].
  destruct (Z.ltb_spec (Z.of_nat offset) 0) as [Hneg | _]; [lia |].
  destruct (Z.ltb_spec (Z.of_nat (List.length t)) (Z.of_nat offset))
    as [Hbig | _]; [lia |].
  cbn [orb]. rewrite Nat2Z.id.
  rewrite (search_first r _ offset p l); [reflexivity | lia | | |];
    assumption.
Qed.

Lemma indexIn_nothing (r : regex) (offset : nat) :
  (forall q, (offset <= q <= List.length t)%nat -> ends U r t q = []) ->
  indexIn U r t (Z.of_nat offset) = (-1, -1).
Proof.
  intros Hnone. unfold indexIn.
  destruct (Z.ltb_spec (Z.of_nat offset) 0) as [Hneg | _]; [lia |].
  destruct (Z.ltb_spec (Z.of_nat offset) 0) as [Hneg | _]; [lia |].
  destruct (Z.ltb_spec (Z.of_nat (List.length t)) (Z.of_nat offset))
    as [Hbig | Hin]; [reflexivity |].
  cbn [orb]. rewrite Nat2Z.id.
  destruct (search U r t (List.length t - offset) offset) as [[p l] |] eqn:E;
    [| reflexivity].
  apply search_some in E. destruct E as [H1 [H2 _]].
  rewrite Hnone in H2 by lia. destruct H2.
Qed.

End CharRuns.

Lemma no_elements {A : Type} (l : list A) : (forall x, ~ In x l) -> l = [].
Proof.
  destruct l as [| a l]; [reflexivity |].
  intros H. exfalso. apply (H a). left. reflexivity.
Qed.

Section OneRule.
Variable U : Unicode.

Lemma scan_done (fuel : nat) (expression : regex) (text : QString)
      (format : QTextCharFormat) (length : Z) (b : Block) :
  scan U fuel expression text format (-1) length b = Some b.
Proof. destruct fuel; reflexivity. Qed.

(** A rule whose pattern matches nowhere leaves the block as it is. *)
Lemma apply_rule_no_match (fuel : nat) (text : QString) (r : rule)
      (b : Block) :
  (forall i, ends U (fst r) text i = []) ->
  apply_rule U fuel text r b = Some b.
Proof.
  destruct r as [pattern format]. cbn [fst]. intros Hnone.
  unfold apply_rule. change 0 with (Z.of_nat 0).
  rewrite (indexIn_nothing U text pattern 0) by (intros; apply Hnone).
  apply scan_done.
Qed.

(** A rule whose pattern matches once, from [p] over [l] characters, and
    nowhere after, makes one call of [setFormat]. *)
Lemma apply_rule_one_match (fuel : nat) (text : QString) (r : rule)
      (b : Block) (p l : nat) :
  (p <= List.length text)%nat ->
  (forall i, (i < p)%nat -> ends U (fst r) text i = []) ->
  In (p + l)%nat (ends U (fst r) text p) ->
  (forall e, In e (ends U (fst r) text p) -> (e <= p + l)%nat) ->
  (forall i, (p + l <= i)%nat -> ends U (fst r) text i = []) ->
  apply_rule U fuel text r b
  = match fuel with
    | O => None
    | S _ => Some (setFormat (Z.of_nat p) (Z.of_nat l) (snd r) b)
    end.
Proof.
  destruct r as [pattern format]. cbn [fst snd].
  intros Hp Hbefore Hin Hmax Hafter.
  unfold apply_rule. change 0 with (Z.of_nat 0).
  rewrite (indexIn_found U text pattern 0 p l);
    [| lia | intros; apply Hbefore; lia | exact Hin | exact Hmax].
  destruct fuel as [| fuel]; cbn [scan];
    destruct (Z.ltb_spec (Z.of_nat p) 0) as [Hneg | _]; try lia;
    [reflexivity |].
  rewrite <- Nat2Z.inj_add.
  rewrite (indexIn_nothing U text pattern (p + l))
    by (intros; apply Hafter; lia).
  apply scan_done.
Qed.

Lemma for_rules_app (fuel : nat) (text : QString) (r1 r2 : list rule) :
  forall b,
    for_rules U fuel text (r1 ++ r2) b
    = match for_rules U fuel text r1 b with
      | Some b1 => for_rules U fuel text r2 b1
      | None => None
      end.
Proof.
  induction r1 as [| r r1 IH]; intros b; cbn [app for_rules];
    [reflexivity |].
  destruct (apply_rule U fuel text r b); [apply IH | reflexivity].
Qed.

Lemma for_rules_one (fuel : nat) (text : QString) (r : rule) (b : Block) :
  for_rules U fuel text [r] b = apply_rule U fuel text r b.
Proof.
  cbn [for_rules]. destruct (apply_rule U fuel text r b); reflexivity.
Qed.

Lemma scan_adds (expression : regex) (text : QString)
      (format : QTextCharFormat) :
  forall (fuel : nat) (index length : Z) (b b' : Block),
    scan U fuel expression text format index length b = Some b' ->
    exists new, spans b' = spans b ++ new
                /\ Forall (fun sp => colour sp = format) new.
Proof.
  induction fuel as [| fuel IH]; intros index length b b' H;
    cbn [scan] in H; destruct (index <? 0); try discriminate;
    try (inversion H; subst; exists []; rewrite app_nil_r;
         split; [reflexivity | constructor]).
  destruct (indexIn U expression text (index + length)) as [i' l'].
  apply IH in H. destruct H as [new [Hnew Hall]].
  exists ((index, length, format) :: new). split.
  - rewrite Hnew. cbn [setFormat spans]. rewrite <- app_assoc. reflexivity.
  - constructor; [reflexivity | exact Hall].
Qed.

(** Rules of colours in [cs] add spans of colours in [cs]. *)
Lemma for_rules_adds (fuel : nat) (text : QString) (cs : list QColor) :
  forall (rules : list rule) (b b' : Block),
    Forall (fun r => In (snd r) cs) rules ->
    for_rules U fuel text rules b = Some b' ->
    exists new, spans b' = spans b ++ new
                /\ Forall (fun sp => In (colour sp) cs) new.
Proof.
  induction rules as [| [pattern format] rules IH]; intros b b' Hcs H.
  - inversion H; subst. exists []. rewrite app_nil_r.
    split; [reflexivity | constructor].
  - cbn [for_rules] in H.
    destruct (apply_rule U fuel text (pattern, format) b) as [b1 |] eqn:E;
      [| discriminate].
    inversion Hcs as [| ? ? Hc Hrest]; subst. cbn [snd] in Hc.
    unfold apply_rule in E.
    destruct (indexIn U pattern text 0) as [index length].
    apply scan_adds in E. destruct E as [new1 [Hnew1 Hall1]].
    destruct (IH b1 b' Hrest H) as [new2 [Hnew2 Hall2]].
    exists (new1 ++ new2). split.
    + rewrite Hnew2, Hnew1, app_assoc. reflexivity.
    + apply Forall_app. split; [| exact Hall2].
      rewrite Forall_forall in *. intros sp Hsp.
      rewrite (Hall1 sp Hsp). exact Hc.
Qed.

End OneRule.

(** Where a search starts, where it finds its match, and what it rules
    out: no match begins between the offset and the match found, and none
    at all from the offset on when nothing is found. *)
Lemma indexIn_first (U : Unicode) (r : regex) (t : QString) (offset : nat)
      (index length : Z) :
  (offset <= List.length t)%nat ->
  indexIn U r t (Z.of_nat offset) = (index, length) ->
  (index = -1
   /\ forall p j, (offset <= p <= List.length t)%nat ->
                  ~ Matches U t r p j)
  \/ (exists i l,
         index = Z.of_nat i /\ length = Z.of_nat l
         /\ (offset <= i)%nat /\ (i + l <= List.length t)%nat
         /\ (min_len r <= l)%nat
         /\ Matches U t r i (i + l)
         /\ forall p j, (offset <= p < i)%nat -> ~ Matches U t r p j).
Proof.
  intros Hoff. unfold indexIn.
  destruct (Z.ltb_spec (Z.of_nat offset) 0) as [Hneg | _]; [lia |].
  destruct (Z.ltb_spec (Z.of_nat offset) 0) as [Hneg | _]; [lia |].
  destruct (Z.ltb_spec (Z.of_nat (List.length t)) (Z.of_nat offset))
    as [Hbig | _]; [lia |].
  cbn [orb]. rewrite Nat2Z.id.
  destruct (search U r t (List.length t - offset) offset) as [[i l] |] eqn:E;
    intros H; inversion H; subst.
  - right. apply search_some in E. destruct E as [H1 [H2 [H3 H4]]].
    exists i, l. repeat split; try lia.
    + assert (Hi : (i <= List.length t)%nat) by lia.
      apply (ends_upper U r t i _ Hi H2).
    + apply ends_lower in H2. lia.
    + apply ends_sound. exact H2.
    + intros p j Hp Hm. apply ends_complete in Hm.
      rewrite (H4 p Hp) in Hm. destruct Hm.
  - left. split; [reflexivity |]. intros p j Hp Hm.
    apply ends_complete in Hm.
    rewrite (search_none U r t _ _ E p) in Hm by lia. destruct Hm.
Qed.

Lemma rules_split :
  highlighting_rules
  = map (fun k => (lit k, blue)) keywords
    ++ [(comment_pattern, green)]
    ++ [(quoted dquote, red); (quoted squote, red)]
    ++ [(number_pattern, orange); (named "def", cyan); (named "class", cyan)].
Proof. reflexivity. Qed.

Lemma with_colour_app (c : QColor) (l1 l2 : list span) :
  with_colour c (l1 ++ l2) = with_colour c l1 ++ with_colour c l2.
Proof. apply filter_app. Qed.

Lemma with_colour_others (c : QColor) (cs : list QColor) (l : list span) :
  ~ In c cs -> Forall (fun sp => In (colour sp) cs) l ->
  with_colour c l = [].
Proof.
  intros Hc. induction l as [| sp l IH]; intros H; [reflexivity |].
  inversion H as [| ? ? Hsp Hl]; subst. cbn [with_colour filter].
  unfold QColor_eqb.
  destruct (Nat.eqb_spec (rank (colour sp)) (rank c)) as [E | _].
  - exfalso. apply Hc. replace c with (colour sp); [exact Hsp |].
    destruct (colour sp), c; cbn in E; congruence.
  - apply IH. exact Hl.
Qed.

Lemma index_of_spec (c : QChar) (t : QString) :
  forall pos h,
    index_of c t pos = Some h ->
    (pos <= h)%nat
    /\ nth_error t (h - pos) = Some c
    /\ forall m, nth_error t m = Some c -> (h <= pos + m)%nat.
Proof.
  induction t as [| d r IH]; intros pos h; cbn [index_of]; [discriminate |].
  destruct (Z.eqb_spec d c) as [-> | Hne].
  - intros H. inversion H. subst h. rewrite Nat.sub_diag.
    repeat split; [lia | intros m _; lia].
  - intros H. apply IH in H. destruct H as [H1 [H2 H3]].
    split; [lia |]. split.
    + replace (h - pos)%nat with (S (h - S pos)) by lia. exact H2.
    + intros [| m] Hm; cbn [nth_error] in Hm.
      * congruence.
      * apply H3 in Hm. lia.
Qed.

Lemma skipn_cons_nth {A : Type} (l : list A) (i : nat) (c : A) :
  nth_error l i = Some c -> skipn i l = c :: skipn (S i) l.
Proof.
  revert i. induction l as [| x l IH]; intros [| i]; cbn [nth_error skipn];
    try discriminate.
  - intros H. inversion H. reflexivity.
  - intros H. rewrite (IH i H). destruct l; reflexivity.
Qed.

Section QuotePairs.
Variable q : QChar.
Variable t : QString.

(** Characters other than [q] change nothing. *)
Lemma quote_pairs_skip (o : option nat) :
  forall (d k : nat),
    (k + d <= List.length t)%nat ->
    (forall p, (k <= p < k + d)%nat -> nth_error t p <> Some q) ->
    quote_pairs q (skipn k t) k o = quote_pairs q (skipn (k + d) t) (k + d) o.
Proof.
  induction d as [| d IH]; intros k Hlen Hno.
  - rewrite Nat.add_0_r. reflexivity.
  - destruct (nth_error t k) as [c |] eqn:Ec.
    2:{ apply nth_error_None in Ec. lia. }
    rewrite (skipn_cons_nth t k c Ec). cbn [quote_pairs].
    destruct (Z.eqb_spec c q) as [-> | _].
    { exfalso. apply (Hno k); [lia | exact Ec]. }
    rewrite (IH (S k)); [| lia | intros p Hp; apply Hno; lia].
    replace (S k + d)%nat with (k + S d)%nat by lia. reflexivity.
Qed.

Lemma quote_pairs_open (i : nat) :
  nth_error t i = Some q ->
  quote_pairs q (skipn i t) i None
  = quote_pairs q (skipn (S i) t) (S i) (Some i).
Proof.
  intros H. rewrite (skipn_cons_nth t i q H). cbn [quote_pairs].
  rewrite Z.eqb_refl. reflexivity.
Qed.

Lemma quote_pairs_close (i o : nat) :
  nth_error t i = Some q ->
  quote_pairs q (skipn i t) i (Some o)
  = (o, S i - o)%nat :: quote_pairs q (skipn (S i) t) (S i) None.
Proof.
  intros H. rewrite (skipn_cons_nth t i q H). cbn [quote_pairs].
  rewrite Z.eqb_refl. reflexivity.
Qed.

(** From [k] on: a first string from [i] to [m], and then the rest. *)
Lemma quote_pairs_first (k i m : nat) :
  (k <= i < m)%nat ->
  nth_error t i = Some q -> nth_error t m = Some q ->
  (forall p, (k <= p < m)%nat -> p <> i -> nth_error t p <> Some q) ->
  quote_pairs q (skipn k t) k None
  = (i, S m - i)%nat :: quote_pairs q (skipn (S m) t) (S m) None.
Proof.
  intros Hk Hi Hm Hno.
  assert (Hlen : (m < List.length t)%nat)
    by (apply nth_error_Some; congruence).
  replace i with (k + (i - k))%nat at 1 by lia.
  rewrite (quote_pairs_skip None (i - k) k);
    [| lia | intros p Hp; apply Hno; lia].
  replace (k + (i - k))%nat with i by lia.
  rewrite (quote_pairs_open i Hi).
  rewrite (quote_pairs_skip (Some i) (m - S i) (S i));
    [| lia | intros p Hp; apply Hno; lia].
  replace (S i + (m - S i))%nat with m by lia.
  apply (quote_pairs_close m i Hm).
Qed.

(** No two [q] from [k] on: no string. *)
Lemma quote_pairs_none (k : nat) :
  (k <= List.length t)%nat ->
  (forall i m, (k <= i < m)%nat ->
               nth_error t i = Some q -> nth_error t m = Some q -> False) ->
  quote_pairs q (skipn k t) k None = [].
Proof.
  intros Hk Hno.
  assert (G : forall d k', (k' + d = List.length t)%nat -> (k <= k')%nat ->
                forall o,
                  (o = None \/ forall p, (k' <= p)%nat ->
                                         nth_error t p <> Some q) ->
                  quote_pairs q (skipn k' t) k' o = []).
  { induction d as [| d IH]; intros k' Hd Hk' o Ho.
    - rewrite skipn_all2 by lia. reflexivity.
    - destruct (nth_error t k') as [c |] eqn:Ec.
      2:{ apply nth_error_None in Ec. lia. }
      rewrite (skipn_cons_nth t k' c Ec). cbn [quote_pairs].
      destruct (Z.eqb_spec c q) as [-> | _].
      + destruct Ho as [-> | Ho]; [| exfalso; apply (Ho k'); [lia | exact Ec]].
        apply IH; [lia | lia |]. right. intros p Hp Hq.
        apply (Hno k' p); [lia | exact Ec | exact Hq].
      + apply IH; [lia | lia |].
        destruct Ho as [-> | Ho]; [left; reflexivity | right].
        intros p Hp. apply Ho. lia. }
  apply (G (List.length t - k)%nat k); [lia | lia | left; reflexivity].
Qed.

End QuotePairs.

(** A string is not empty and lies within the line. *)
Lemma quote_pairs_bounds (q : QChar) :
  forall (t : QString) (pos : nat) (o : option nat) (s : nat * nat),
    match o with Some o' => (o' < pos)%nat | None => True end ->
    In s (quote_pairs q t pos o) ->
    (1 <= snd s)%nat /\ (fst s + snd s <= pos + List.length t)%nat.
Proof.
  induction t as [| c r IH]; intros pos o s Ho; cbn [quote_pairs];
    [intros [] |].
  cbn [List.length].
  destruct (c =? q).
  - destruct o as [o' |].
    + intros [<- | H]; [cbn [fst snd]; lia |].
      apply (IH (S pos) None s I) in H. lia.
    + intros H. apply (IH (S pos) (Some pos) s) in H; [lia | lia].
  - intros H. apply (IH (S pos) o s) in H; [lia |].
    destruct o; [lia | exact I].
Qed.

Lemma strings_bounds (t : QString) (s : nat * nat) :
  In s (strings t) ->
  (1 <= snd s)%nat /\ (fst s + snd s <= List.length t)%nat.
Proof.
  unfold strings. intros H. apply in_app_or in H.
  destruct H as [H | H]; apply quote_pairs_bounds in H; try exact I;
    cbn [Nat.add] in H; exact H.
Qed.

Section QuotedRule.
Variable U : Unicode.
Variable t : QString.
Variable q : QChar.

(** A match of a string pattern runs from a quote to the next one. *)
Lemma quoted_match_inv (i j : nat) :
  Matches U t (quoted q) i j ->
  nth_error t i = Some q
  /\ exists m, j = S m /\ (i < m)%nat /\ nth_error t m = Some q
               /\ forall p, (i < p < m)%nat -> nth_error t p <> Some q.
Proof.
  intros H. apply ends_complete in H. apply quoted_ends_inv in H.
  destruct H as [Hi [m [Hj [Him [Hm Hno]]]]].
  split; [exact Hi |]. exists m. repeat split; try assumption.
  intros p Hp Hq. apply (Hno p q Hp Hq). reflexivity.
Qed.

Lemma quoted_match_in (i m : nat) :
  nth_error t i = Some q -> nth_error t m = Some q -> (i < m)%nat ->
  (forall p, (i < p < m)%nat -> nth_error t p <> Some q) ->
  Matches U t (quoted q) i (S m).
Proof.
  intros Hi Hm Him Hno. apply ends_sound.
  apply quoted_ends_in; try assumption.
  intros k c Hk Hc E. subst c. apply (Hno k Hk Hc).
Qed.

(** After a quote that is not the last one comes a next one. *)
Lemma next_quote :
  forall (d i m : nat),
    m = (i + S d)%nat -> nth_error t m = Some q ->
    exists m', (i < m' <= m)%nat /\ nth_error t m' = Some q
               /\ forall p, (i < p < m')%nat -> nth_error t p <> Some q.
Proof.
  induction d as [| d IH]; intros i m Hd Hm.
  - exists m. repeat split; try lia; try assumption.
  - destruct (nth_error t (S i)) as [c |] eqn:Ec.
    + destruct (Z.eq_dec c q) as [-> | Hne].
      * exists (S i). repeat split; try lia; try assumption.
      * destruct (IH (S i) m ltac:(lia) Hm) as [m' [H1 [H2 H3]]].
        exists m'. repeat split; try lia; try assumption.
        intros p Hp. destruct (Nat.eq_dec p (S i)) as [-> | Hp'].
        -- rewrite Ec. congruence.
        -- apply H3. lia.
    + destruct (IH (S i) m ltac:(lia) Hm) as [m' [H1 [H2 H3]]].
      exists m'. repeat split; try lia; try assumption.
      intros p Hp. destruct (Nat.eq_dec p (S i)) as [-> | Hp'].
      -- rewrite Ec. discriminate.
      -- apply H3. lia.
Qed.

(** A quote with another one after it starts a match. *)
Lemma quote_starts_match (i m : nat) :
  (i < m)%nat -> nth_error t i = Some q -> nth_error t m = Some q ->
  exists j, Matches U t (quoted q) i j.
Proof.
  intros Him Hi Hm.
  destruct (next_quote (m - S i) i m ltac:(lia) Hm) as [m' [H1 [H2 H3]]].
  exists (S m'). apply quoted_match_in; try assumption. lia.
Qed.

(** The loop of a string rule, entered with the search from [k], sets one
    span for each string from [k] on. *)
Lemma scan_quoted :
  forall (fuel k : nat) (index length : Z) (b b' : Block),
    (k <= List.length t)%nat ->
    indexIn U (quoted q) t (Z.of_nat k) = (index, length) ->
    scan U fuel (quoted q) t red index length b = Some b' ->
    spans b' = spans b
               ++ map string_span (quote_pairs q (skipn k t) k None).
Proof.
  induction fuel as [| fuel IH]; intros k index length b b' Hk E H;
    destruct (indexIn_first U (quoted q) t k index length Hk E)
      as [[Hidx Hnone] | [i [l [Hi [Hl [Hki [Hil [_ [Hm Hbefore]]]]]]]]].
  1,3: subst index; rewrite scan_done in H; inversion H; subst b';
       rewrite quote_pairs_none;
       [cbn [map]; rewrite app_nil_r; reflexivity | exact Hk |];
       intros i m Him Hqi Hqm;
       destruct (quote_starts_match i m ltac:(lia) Hqi Hqm) as [j Hj];
       apply (Hnone i j); [| exact Hj];
       assert (m < List.length t)%nat
         by (apply nth_error_Some; congruence); lia.
  - subst index. cbn [scan] in H.
    destruct (Z.ltb_spec (Z.of_nat i) 0); [lia | discriminate H].
  - subst index length. cbn [scan] in H.
    destruct (Z.ltb_spec (Z.of_nat i) 0) as [Hneg | _]; [lia |].
    rewrite <- Nat2Z.inj_add in H.
    destruct (indexIn U (quoted q) t (Z.of_nat (i + l))) as [i' l'] eqn:E'.
    apply (IH (i + l)%nat i' l' _ b' Hil E') in H.
    rewrite H. cbn [setFormat spans]. rewrite <- app_assoc. f_equal.
    apply quoted_match_inv in Hm.
    destruct Hm as [Hqi [m [Hj [Him [Hqm Hno]]]]].
    rewrite (quote_pairs_first q t k i m); try assumption; try lia.
    + cbn [map app]. unfold string_span at 1. cbn [fst snd].
      replace (S m - i)%nat with l by lia.
      replace (S m) with (i + l)%nat by lia. reflexivity.
    + intros p Hp Hpi Hqp.
      destruct (Nat.lt_ge_cases p i) as [Hlt | Hge].
      * destruct (quote_starts_match p i Hlt Hqp Hqi) as [j' Hj'].
        apply (Hbefore p j'); [lia | exact Hj'].
      * apply (Hno p); [lia | exact Hqp].
Qed.

(** A string rule sets one span for each string of its kind of quote. *)
Lemma quoted_rule_spans (fuel : nat) (b b' : Block) :
  apply_rule U fuel t (quoted q, red) b = Some b' ->
  spans b' = spans b ++ map string_span (quote_pairs q t 0 None).
Proof.
  unfold apply_rule. intros H.
  destruct (indexIn U (quoted q) t 0) as [index length] eqn:E.
  change 0 with (Z.of_nat 0) in E.
  apply (scan_quoted fuel 0 index length b b' (Nat.le_0_l _) E H).
Qed.

End QuotedRule.

Lemma with_colour_same (c : QColor) (l : list span) :
  Forall (fun sp => colour sp = c) l -> with_colour c l = l.
Proof.
  induction l as [| sp l IH]; intros H; [reflexivity |].
  apply Forall_cons_iff in H. destruct H as [Hsp Hl].
  unfold with_colour in *. cbn [filter].
  unfold QColor_eqb at 1. rewrite Hsp, Nat.eqb_refl. f_equal.
  apply IH. exact Hl.
Qed.

Lemma string_spans_red (l : list (nat * nat)) :
  Forall (fun sp => colour sp = red) (map string_span l).
Proof.
  apply Forall_forall. intros sp Hsp. apply in_map_iff in Hsp.
  destruct Hsp as [s [<- _]]. reflexivity.
Qed.

Lemma for_rules_two (U : Unicode) (fuel : nat) (text : QString)
      (r1 r2 : rule) (b : Block) :
  for_rules U fuel text [r1; r2] b
  = match apply_rule U fuel text r1 b with
    | Some b1 => apply_rule U fuel text r2 b1
    | None => None
    end.
Proof.
  cbn [for_rules]. destruct (apply_rule U fuel text r1 b) as [b1 |];
    [| reflexivity].
  destruct (apply_rule U fuel text r2 b1); reflexivity.
Qed.

Section AnyLine.
Variable U : Unicode.
Variable t : QString.

(** The spans of the string colour are those of the strings of the line,
    double-quoted ones first; the spans of the comment colour are those
    of the comment rule. *)
Lemma red_and_green_spans (fuel : nat) (b : Block) :
  highlightBlock U fuel t = Some b ->
  with_colour red (spans b) = map string_span (strings t)
  /\ exists b1 b2 g,
       apply_rule U fuel t (comment_pattern, green) b1 = Some b2
       /\ spans b2 = spans b1 ++ g
       /\ with_colour green (spans b) = g.
Proof.
  unfold highlightBlock. rewrite rules_split.
  rewrite for_rules_app.
  destruct (for_rules U fuel t (map (fun k => (lit k, blue)) keywords)
                      (fresh t)) as [b1 |] eqn:E1; [| discriminate].
  apply (for_rules_adds U fuel t [blue]) in E1;
    [| repeat (apply Forall_cons; [cbn; auto |]); apply Forall_nil].
  destruct E1 as [new1 [Hnew1 Hall1]]. cbn [fresh spans app] in Hnew1.
  rewrite for_rules_app, for_rules_one.
  destruct (apply_rule U fuel t (comment_pattern, green) b1) as [b2 |] eqn:E2;
    [| discriminate].
  destruct (apply_rule_longest_matches U fuel t _ b1 b2 E2)
    as [g [Hg Hgreen]]. cbn [fst snd] in Hgreen.
  rewrite for_rules_app, for_rules_two.
  destruct (apply_rule U fuel t (quoted dquote, red) b2) as [b3 |] eqn:E3;
    [| discriminate].
  destruct (apply_rule U fuel t (quoted squote, red) b3) as [b4 |] eqn:E4;
    [| discriminate].
  apply quoted_rule_spans in E3. apply quoted_rule_spans in E4.
  intros E5.
  apply (for_rules_adds U fuel t [orange; cyan]) in E5;
    [| repeat (apply Forall_cons; [cbn; auto |]); apply Forall_nil].
  destruct E5 as [new3 [Hnew3 Hall3]].
  assert (Hgreen' : Forall (fun sp => colour sp = green) g).
  { rewrite Forall_forall in *. intros sp Hsp. apply (Hgreen sp Hsp). }
  assert (Hg_in : Forall (fun sp => In (colour sp) [green]) g).
  { rewrite Forall_forall in *. intros sp Hsp. left.
    symmetry. apply (Hgreen' sp Hsp). }
  assert (Hred_in : forall l, Forall (fun sp => In (colour sp) [red])
                                     (map string_span l)).
  { intros l. apply Forall_forall. intros sp Hsp. apply in_map_iff in Hsp.
    destruct Hsp as [s [<- _]]. left. reflexivity. }
  split.
  - rewrite Hnew3, E4, E3, Hg, Hnew1. rewrite !with_colour_app.
    rewrite (with_colour_others red [blue] new1);
      [| cbn; intuition discriminate | assumption].
    rewrite (with_colour_others red [green] g);
      [| cbn; intuition discriminate | assumption].
    rewrite (with_colour_others red [orange; cyan] new3);
      [| cbn; intuition discriminate | assumption].
    rewrite !(with_colour_same red) by apply string_spans_red.
    unfold strings. rewrite map_app, app_nil_r. reflexivity.
  - exists b1, b2, g. split; [exact E2 |]. split; [exact Hg |].
    rewrite Hnew3, E4, E3, Hg, Hnew1. rewrite !with_colour_app.
    rewrite (with_colour_others green [blue] new1);
      [| cbn; intuition discriminate | assumption].
    rewrite !(with_colour_others green [red] (map string_span _));
      [| cbn; intuition discriminate | apply Hred_in
       | cbn; intuition discriminate | apply Hred_in].
    rewrite (with_colour_others green [orange; cyan] new3);
      [| cbn; intuition discriminate | assumption].
    rewrite (with_colour_same green g Hgreen'), !app_nil_r. reflexivity.
Qed.

End AnyLine.

Section FirstHash.
Variable U : Unicode.
Variable t : QString.
Variable h : nat.
Hypothesis Hhash : first_hash t = Some h.

Lemma first_hash_spec :
  nth_error t h = Some (chr "#")
  /\ (h < List.length t)%nat
  /\ forall m, nth_error t m = Some (chr "#") -> (h <= m)%nat.
Proof.
  apply index_of_spec in Hhash. destruct Hhash as [_ [H1 H2]].
  rewrite Nat.sub_0_r in H1. split; [exact H1 |]. split.
  - apply nth_error_Some. congruence.
  - intros m Hm. apply H2 in Hm. lia.
Qed.

(** The comment rule sets one span, from the first hash to the end of the
    line. *)
Lemma comment_rule_span (fuel : nat) (b : Block) :
  apply_rule U (S fuel) t (comment_pattern, green) b
  = Some (setFormat (Z.of_nat h) (Z.of_nat (List.length t - h)) green b).
Proof.
  destruct first_hash_spec as [Hh [Hlen Hfirst]].
  rewrite (apply_rule_one_match U (S fuel) t (comment_pattern, green) b
             h (List.length t - h)); cbn [fst snd].
  - reflexivity.
  - lia.
  - intros i Hi. apply no_elements. intros j Hj.
    apply comment_ends_inv in Hj. apply Hfirst in Hj. lia.
  - replace (h + (List.length t - h))%nat with (List.length t) by lia.
    apply comment_ends_in. exact Hh.
  - intros e He. apply ends_upper in He; lia.
  - intros i Hi. apply no_elements. intros j Hj.
    apply comment_ends_inv in Hj.
    assert (i < List.length t)%nat by (apply nth_error_Some; congruence).
    lia.
Qed.

(** The spans of the two colours on a line with a hash. *)
Lemma spans_of_any_line (b : Block) :
  highlightBlock U (List.length t) t = Some b ->
  with_colour red (spans b) = map string_span (strings t)
  /\ with_colour green (spans b)
     = [(Z.of_nat h, Z.of_nat (List.length t - h), green)].
Proof.
  intros H.
  destruct (red_and_green_spans U t _ b H)
    as [Hred [b1 [b2 [g [E2 [Hg Hgreen]]]]]].
  split; [exact Hred |].
  rewrite Hgreen.
  destruct first_hash_spec as [_ [Hlen _]].
  destruct (List.length t) as [| n] eqn:En; [lia |].
  rewrite comment_rule_span in E2. inversion E2; subst b2.
  cbn [setFormat spans] in Hg. apply app_inv_head in Hg.
  rewrite <- Hg, En. reflexivity.
Qed.

End FirstHash.

(** C8 as stated fails when the string contains a hash: on the line made
    of the string literal a#b in double quotes, a space, a hash and a
    comment, the comment span starts at the hash inside the string and
    shares three characters with the string span. *)
Lemma hash_inside_string_overlaps :
  forallb (fun c => negb (c =? dquote)) (str "a#b") = true
  /\ ~ string_and_comment_apart basic_latin hash_in_string.
Proof.
  split; [reflexivity |].
  intros [b [H [_ [_ Hapart]]]].
  vm_compute in H. inversion H; subst b. clear H.
  specialize (Hapart (0, 5, red) (2, 7, green)).
  cbn in Hapart.
  assert (E : true = false)
    by (apply Hapart; left; reflexivity).
  discriminate E.
Qed.

(** C8, amended: on a line with a hash and at least one string, the
    highlighter makes one span in the string colour for each string, and
    one span in the comment colour, from the first hash to the end of the
    line; and no string span shares a character with the comment span
    exactly when every string ends before the first hash.  The strings
    are those the rules find: the quotes of one kind paired from the
    left. *)
Theorem string_then_comment_spans (U : Unicode) (t : QString) (h : nat) :
  first_hash t = Some h ->
  strings t <> [] ->
  (exists b,
      highlightBlock U (List.length t) t = Some b
      /\ with_colour red (spans b) = map string_span (strings t)
      /\ with_colour green (spans b)
         = [(Z.of_nat h, Z.of_nat (List.length t - h), green)])
  /\ (string_and_comment_apart U t
      <-> Forall (fun s => (fst s + snd s <= h)%nat) (strings t)).
Proof.
  intros Hh Hs.
  destruct (for_rules_terminates U t (List.length t) (Nat.le_refl _)
              highlighting_rules (fresh t) registered_patterns_consume)
    as [b Hb].
  fold (highlightBlock U (List.length t) t) in Hb.
  destruct (spans_of_any_line U t h Hh b Hb) as [Hred Hgreen].
  destruct (first_hash_spec t h Hh) as [_ [Hlen _]].
  split; [exists b; split; [exact Hb | split; assumption] |].
  assert (Hover : forall s,
             In s (strings t) ->
             overlap (string_span s)
                     (Z.of_nat h, Z.of_nat (List.length t - h), green)
             = false
             <-> (fst s + snd s <= h)%nat).
  { intros s Hin. apply strings_bounds in Hin.
    unfold overlap, string_span, start, count. cbn [fst snd].
    destruct (Z.ltb_spec (Z.of_nat (fst s))
                         (Z.of_nat h + Z.of_nat (List.length t - h)));
      [| lia].
    destruct (Z.ltb_spec (Z.of_nat h) (Z.of_nat (fst s) + Z.of_nat (snd s)));
      cbn [andb]; split; intros H1; try lia; try reflexivity;
      discriminate H1. }
  split.
  - intros [b0 [Hb0 [_ [_ Hapart]]]].
    rewrite Hb in Hb0. inversion Hb0; subst b0.
    apply Forall_forall. intros s Hin. apply (Hover s Hin).
    apply Hapart.
    + rewrite Hred. apply in_map. exact Hin.
    + rewrite Hgreen. left. reflexivity.
  - intros Hall. exists b. split; [exact Hb |].
    rewrite Hred, Hgreen. split; [| split; [discriminate |]].
    + destruct (strings t); [contradiction | discriminate].
    + intros s c Hsin [<- | []]. apply in_map_iff in Hsin.
      destruct Hsin as [s0 [<- Hs0]]. apply (Hover s0 Hs0).
      rewrite Forall_forall in Hall. apply Hall. exact Hs0.
Qed.

Lemma string_then_comment_spans_witness :
  string_and_comment_apart basic_latin hi_note
  /\ string_and_comment_apart basic_latin
       (dquote :: str "hi" ++ dquote :: str " # don't")
  /\ (exists b,
         highlightBlock basic_latin 11 hi_note = Some b
         /\ with_colour red (spans b) = [(0, 4, red)]
         /\ with_colour green (spans b) = [(5, 6, green)]).
Proof.
  split; [| split].
  - apply (proj2 (string_then_comment_spans basic_latin hi_note 5
                    eq_refl ltac:(discriminate))).
    cbn. repeat constructor.
  - apply (proj2 (string_then_comment_spans basic_latin
                    (dquote :: str "hi" ++ dquote :: str " # don't") 5
                    eq_refl ltac:(discriminate))).
    cbn. repeat constructor.
  - exact (proj1 (string_then_comment_spans basic_latin hi_note 5
                    eq_refl ltac:(discriminate))).
Defined.

(** ** Keywords *)

(** C2 (where the code departs from it): the keyword patterns carry no
    word boundary, so a keyword is highlighted wherever its letters occur.
    In the line [format = 1] the first three letters of the identifier
    [format] get the keyword colour; in [x = classify] three keyword spans
    lie inside the one identifier [classify]. *)
Theorem keyword_inside_identifier :
  (exists b,
      highlightBlock basic_latin 10 (str "format = 1") = Some b
      /\ spans b = [(0, 3, blue); (9, 1, orange)]
      /\ firstn 6 (formatChanges b)
         = [Some blue; Some blue; Some blue; None; None; None])
  /\ (exists b,
         highlightBlock basic_latin 12 (str "x = classify") = Some b
         /\ spans b = [(4, 5, blue); (6, 2, blue); (9, 2, blue)]).
Proof.
  split; eexists; (split; [vm_compute; reflexivity |]);
    [split |]; reflexivity.
Qed.

(** * Further properties *)

(** ** More on opening and saving *)

(** What [open_file] does on a machine where nothing else touches the
    files, read off the entry found under the name. *)
Lemma open_file_quiet (a : App) (file_name : string) :
  nonempty file_name = true ->
  quiet (world a) ->
  let w1 := with_files (world a) (files (world a)) []
              (opened (world a) ++ [(file_name, Read utf_8)]) in
  let w2 := with_files (world a) (files (world a)) []
              (opened (world a)
               ++ [(file_name, Read utf_8)] ++ [(file_name, Read latin_1)]) in
  open_file file_name a
  = match files (world a) file_name with
    | NoEntry | NoDirectory | ReadOnlyDirectory =>
        (Raise (OSError FileNotFoundError file_name), with_world a w1)
    | Directory =>
        (Raise (OSError IsADirectoryError file_name), with_world a w1)
    | File false _ _ =>
        (Raise (OSError PermissionError file_name), with_world a w1)
    | File true _ bs =>
        match decode utf_8 bs with
        | Some s =>
            (Ok tt, with_document (with_world a w1)
                      (plain_text (universal_newlines s)))
        | None =>
            (Ok tt, with_document (with_world a w2)
                      (plain_text (universal_newlines (latin1_decode bs))))
        end
    end.
Proof.
  intros Hn Hq w1 w2.
  assert (E1 : enter_open file_name (Read utf_8) (world a) = w1)
    by (apply enter_open_quiet; exact Hq).
  assert (E2 : enter_open file_name (Read latin_1) w1 = w2).
  { rewrite enter_open_quiet by reflexivity. unfold w1, w2, with_files.
    cbn. rewrite <- app_assoc. reflexivity. }
  destruct (files (world a) file_name) as [| | | | r wr bs] eqn:Ef.
  1-4: unfold open_file; rewrite Hn;
       unfold try_except, load, bind, open_; rewrite E1;
       cbn [world with_world]; change (files w1) with (files (world a));
       rewrite Ef; reflexivity.
  - destruct r.
    + assert (Hf : files (enter_open file_name (Read utf_8) (world a))
                         file_name = File true wr bs)
        by (rewrite E1; exact Ef).
      destruct (decode utf_8 bs) as [s |] eqn:Ed.
      * rewrite (open_file_primary a file_name wr bs s Hn Hf Ed), E1.
        reflexivity.
      * pose proof (open_file_fallback a file_name wr bs Hn Hf Ed) as H.
        cbv zeta in H. rewrite E1, E2 in H.
        change (files w2) with (files (world a)) in H. rewrite Ef in H.
        exact H.
    + unfold open_file. rewrite Hn.
      unfold try_except, load, bind, open_. rewrite E1.
      cbn [world with_world]. change (files w1) with (files (world a)).
      rewrite Ef. reflexivity.
Qed.

(** X1: a file of valid UTF-8 is loaded with one call of [open]: the
    buffer then reads as the text of the file, with the line ends as text
    mode gives them and the characters as [toPlainText] gives them (U+00A0
    comes back as a space); nothing is printed and no file changes. *)
Theorem open_file_loads_utf8 (a : App) (file_name : string) (wr : bool)
        (bs : list byte) (s : text) :
  nonempty file_name = true ->
  quiet (world a) ->
  files (world a) file_name = File true wr bs ->
  decode utf_8 bs = Some s ->
  fst (open_file file_name a) = Ok tt
  /\ document (snd (open_file file_name a))
     = plain_text (universal_newlines s)
  /\ console (snd (open_file file_name a)) = console a
  /\ files (world (snd (open_file file_name a))) = files (world a)
  /\ opened (world (snd (open_file file_name a)))
     = opened (world a) ++ [(file_name, Read utf_8)].
Proof.
  intros Hn Hq Hf Hd.
  rewrite (open_file_quiet a file_name Hn Hq). cbv zeta. rewrite Hf, Hd.
  repeat split.
Qed.

Lemma open_file_loads_utf8_witness :
  let a := editing (str "draft")
             (machine (Env.update no_files "a.py"
                         (File true false
                            (bytes_of "x = 1"
                             ++ [x0d; x0a; x61; xc2; xa0; x62; xc3; xa9])))
                      cp1252 [CR; LF] no_python) in
  fst (open_file "a.py" a) = Ok tt
  /\ document (snd (open_file "a.py" a))
     = str "x = 1" ++ [LF; 97; 32; 98; 0xE9].
Proof.
  cbv zeta.
  pose proof (open_file_loads_utf8
                (editing (str "draft")
                   (machine (Env.update no_files "a.py"
                               (File true false
                                  (bytes_of "x = 1"
                                   ++ [x0d; x0a; x61; xc2; xa0; x62;
                                       xc3; xa9])))
                            cp1252 [CR; LF] no_python))
                "a.py" false
                (bytes_of "x = 1" ++ [x0d; x0a; x61; xc2; xa0; x62; xc3; xa9])
                (str "x = 1" ++ [CR; LF; 97; 0xA0; 98; 0xE9])
                eq_refl eq_refl eq_refl eq_refl) as [H1 [H2 _]].
  split; [exact H1 | exact H2].
Defined.

(** How [open_file] ends, whatever else goes on on the machine. *)
Lemma open_file_ends (a : App) (file_name : string) :
  let r := fst (open_file file_name a) in
  let a' := snd (open_file file_name a) in
  output_windows a' = output_windows a
  /\ (exists new, opened (world a') = opened (world a) ++ new
                  /\ (List.length new <= 2)%nat)
  /\ ((file_name = EmptyString /\ r = Ok tt /\ a' = a)
      \/ (file_name <> EmptyString /\ r = Ok tt /\ console a' = console a
          /\ exists enc wr bs s,
               (enc = utf_8 \/ enc = latin_1)
               /\ files (world a') file_name = File true wr bs
               /\ decode enc bs = Some s
               /\ document a' = plain_text (universal_newlines s))
      \/ (file_name <> EmptyString /\ r = Ok tt
          /\ document a' = document a
          /\ exists k,
               console a'
               = console a ++ [[Lit "Error opening file: ";
                                FExn (OSError k file_name)]])
      \/ (file_name <> EmptyString
          /\ exists k, r = Raise (OSError k file_name)
                       /\ document a' = document a
                       /\ console a' = console a)).
Proof.
  cbv zeta.
  destruct (nonempty file_name) eqn:Hn.
  2:{ unfold open_file. rewrite Hn. cbn [ret fst snd].
      split; [reflexivity |]. split.
      - exists []. rewrite app_nil_r. split; [reflexivity | cbn; lia].
      - left. unfold nonempty in Hn. apply negb_false_iff in Hn.
        apply String.eqb_eq in Hn. repeat split. exact Hn. }
  assert (Hne : file_name <> EmptyString).
  { intros E. subst file_name. discriminate Hn. }
  set (w1 := enter_open file_name (Read utf_8) (world a)).
  assert (L1 : opened w1 = opened (world a) ++ [(file_name, Read utf_8)])
    by apply enter_open_log.
  assert (Hesc :
            (forall wr bs, files w1 file_name <> File true wr bs) ->
            output_windows (snd (open_file file_name a)) = output_windows a
            /\ (exists new,
                   opened (world (snd (open_file file_name a)))
                   = opened (world a) ++ new
                   /\ (List.length new <= 2)%nat)
            /\ exists k,
                 fst (open_file file_name a) = Raise (OSError k file_name)
                 /\ document (snd (open_file file_name a)) = document a
                 /\ console (snd (open_file file_name a)) = console a).
  { intros Hf. destruct (open_file_unreadable a file_name Hn Hf) as [k Hk].
    rewrite Hk. cbn [fst snd world with_world output_windows
                     document console].
    split; [reflexivity |]. split.
    - exists [(file_name, Read utf_8)]. split; [exact L1 | cbn; lia].
    - exists k. repeat split. }
  destruct (files w1 file_name) as [| | | | r wr bs] eqn:Ef.
  1-4: destruct Hesc as [H1 [H2 H3]]; [intros; discriminate |];
       split; [exact H1 |]; split; [exact H2 |];
       right; right; right; split; [exact Hne | exact H3].
  destruct r.
  2:{ destruct Hesc as [H1 [H2 H3]]; [intros; discriminate |].
      split; [exact H1 |]. split; [exact H2 |].
      right. right. right. split; [exact Hne | exact H3]. }
  clear Hesc.
  destruct (decode utf_8 bs) as [s |] eqn:Ed.
  - rewrite (open_file_primary a file_name wr bs s Hn Ef Ed).
    cbn [fst snd world with_world with_document output_windows
         document console].
    split; [reflexivity |]. split.
    + exists [(file_name, Read utf_8)]. split; [exact L1 | cbn; lia].
    + right. left. split; [exact Hne |]. repeat split.
      exists utf_8, wr, bs, s. fold w1.
      repeat split; [left; reflexivity | exact Ef | exact Ed].
  - pose proof (open_file_fallback a file_name wr bs Hn Ef Ed) as H.
    cbv zeta in H. fold w1 in H.
    set (w2 := enter_open file_name (Read latin_1) w1) in *.
    assert (L2 : opened w2 = opened (world a)
                             ++ [(file_name, Read utf_8);
                                 (file_name, Read latin_1)]).
    { unfold w2. rewrite enter_open_log, L1, <- app_assoc. reflexivity. }
    assert (Hlog : exists new, opened w2 = opened (world a) ++ new
                               /\ (List.length new <= 2)%nat)
      by (eexists; split; [exact L2 | cbn; lia]).
    destruct (files w2 file_name) as [| | | | r2 wr2 bs2] eqn:Ef2;
      [| | | | destruct r2];
      rewrite H;
      cbn [fst snd world with_world with_document with_console
           output_windows document console];
      (split; [reflexivity |]); (split; [exact Hlog |]).
    1-4,6: right; right; left; split; [exact Hne |]; repeat split;
           eexists; reflexivity.
    right. left. split; [exact Hne |]. repeat split.
    exists latin_1, wr2, bs2, (latin1_decode bs2).
    repeat split; [right; reflexivity | exact Ef2].
Qed.

(** X2: the ways [open_file] can end, of which exactly one happens.  The
    dialog was cancelled and nothing changed; or the buffer was replaced
    by the text of the named file as it then is, decoded as UTF-8 or as
    Latin-1, and nothing was printed; or the retry could not open the file,
    which was printed, the buffer staying as it was; or the first [open]
    failed and its error left [open_file], buffer and console staying as
    they were.  [open] is called at most twice and no output window
    appears. *)
Theorem open_file_outcomes (a : App) (file_name : string) :
  let r := fst (open_file file_name a) in
  let a' := snd (open_file file_name a) in
  let cancelled := file_name = EmptyString /\ r = Ok tt /\ a' = a in
  let loaded :=
    file_name <> EmptyString /\ r = Ok tt /\ console a' = console a
    /\ exists enc wr bs s,
         (enc = utf_8 \/ enc = latin_1)
         /\ files (world a') file_name = File true wr bs
         /\ decode enc bs = Some s
         /\ document a' = plain_text (universal_newlines s) in
  let reported :=
    file_name <> EmptyString /\ r = Ok tt /\ document a' = document a
    /\ exists k,
         console a'
         = console a ++ [[Lit "Error opening file: ";
                          FExn (OSError k file_name)]] in
  let escaped :=
    file_name <> EmptyString
    /\ exists k, r = Raise (OSError k file_name)
                 /\ document a' = document a
                 /\ console a' = console a in
  output_windows a' = output_windows a
  /\ (exists new, opened (world a') = opened (world a) ++ new
                  /\ (List.length new <= 2)%nat)
  /\ (cancelled \/ loaded \/ reported \/ escaped)
  /\ ~ (cancelled /\ loaded) /\ ~ (cancelled /\ reported)
  /\ ~ (cancelled /\ escaped) /\ ~ (loaded /\ reported)
  /\ ~ (loaded /\ escaped) /\ ~ (reported /\ escaped).
Proof.
  cbv zeta.
  destruct (open_file_ends a file_name) as [H1 [H2 H3]].
  split; [exact H1 |]. split; [exact H2 |]. split; [exact H3 |].
  repeat split.
  - intros [[E _] [Hne _]]. contradiction.
  - intros [[E _] [Hne _]]. contradiction.
  - intros [[E _] [Hne _]]. contradiction.
  - intros [[_ [_ [Hc _]]] [_ [_ [_ [k Hk]]]]].
    rewrite Hc in Hk. apply (f_equal (@List.length fstring)) in Hk.
    rewrite length_app in Hk. cbn [List.length] in Hk. lia.
  - intros [[_ [Hr _]] [_ [k [Hk _]]]]. rewrite Hr in Hk. discriminate Hk.
  - intros [[_ [Hr _]] [_ [k [Hk _]]]]. rewrite Hr in Hk. discriminate Hk.
Qed.

(** X3: opening the same file again changes nothing more: on a machine
    where nothing else touches the files, the second [open_file] ends like
    the first and leaves the same buffer; no file is changed by either. *)
Theorem open_file_again (a : App) (file_name : string) :
  quiet (world a) ->
  let a1 := snd (open_file file_name a) in
  let a2 := snd (open_file file_name a1) in
  fst (open_file file_name a1) = fst (open_file file_name a)
  /\ document a2 = document a1
  /\ files (world a2) = files (world a)
  /\ quiet (world a2).
Proof.
  intros Hq. cbv zeta.
  destruct (nonempty file_name) eqn:Hn.
  2:{ unfold open_file. rewrite Hn. cbn. repeat split. exact Hq. }
  pose proof (open_file_quiet a file_name Hn Hq) as H1. cbv zeta in H1.
  assert (Hframe : quiet (world (snd (open_file file_name a)))
                   /\ files (world (snd (open_file file_name a)))
                      = files (world a)).
  { rewrite H1.
    destruct (files (world a) file_name) as [| | | | r wr bs];
      [| | | | destruct r; [destruct (decode utf_8 bs) |]];
      split; reflexivity. }
  destruct Hframe as [Hq1 Hf1].
  pose proof (open_file_quiet (snd (open_file file_name a)) file_name Hn Hq1)
    as H2.
  cbv zeta in H2. rewrite Hf1 in H2. rewrite H2. rewrite H1.
  destruct (files (world a) file_name) as [| | | | r wr bs];
    [| | | | destruct r; [destruct (decode utf_8 bs) |]];
    cbn; repeat split.
Qed.

Lemma open_file_again_witness :
  let a := editing (str "draft")
             (machine (Env.update no_files "legacy.txt"
                         (File true true [x63; xe9]))
                      utf_8 [LF] no_python) in
  fst (open_file "legacy.txt" (snd (open_file "legacy.txt" a)))
  = fst (open_file "legacy.txt" a)
  /\ document (snd (open_file "legacy.txt" (snd (open_file "legacy.txt" a))))
     = [0x63; 0xE9].
Proof.
  cbv zeta.
  pose proof (open_file_again
                (editing (str "draft")
                   (machine (Env.update no_files "legacy.txt"
                               (File true true [x63; xe9]))
                            utf_8 [LF] no_python))
                "legacy.txt" eq_refl) as [H1 [H2 _]].
  split; [exact H1 |]. rewrite H2. reflexivity.
Defined.

Lemma update_other (fs : FS) (name other : string) (e : entry) :
  other <> name -> Env.update fs name e other = fs other.
Proof.
  intros H. unfold Env.update.
  destruct (String.eqb_spec other name); [contradiction | reflexivity].
Qed.

Ltac run_save Hn Hq :=
  unfold save_file; rewrite Hn;
  unfold bind, open_, toPlainText, write;
  rewrite (enter_open_quiet _ _ _ Hq);
  cbn [world with_world with_files files events opened preferred_encoding
       linesep opened_as name document].

Ltac after_save :=
  cbn [fst snd world with_world with_files files events opened
       preferred_encoding linesep opened_as name document console
       output_windows].

(** X4: a successful save replaces the file: whatever it held before, it
    holds the encoded buffer afterwards and nothing else; every other file
    is left alone, and so are the buffer, the console and the windows. *)
Theorem save_file_overwrites (a : App) (file_name : string) (r : bool)
        (old bs : list byte) :
  nonempty file_name = true ->
  quiet (world a) ->
  files (world a) file_name = File r true old ->
  encode (preferred_encoding (world a))
         (translate_newlines (linesep (world a)) (document a)) = Some bs ->
  let a' := snd (save_file file_name a) in
  fst (save_file file_name a) = Ok tt
  /\ files (world a') file_name = File r true bs
  /\ (forall other, other <> file_name ->
                    files (world a') other = files (world a) other)
  /\ document a' = document a
  /\ console a' = console a
  /\ output_windows a' = output_windows a.
Proof.
  intros Hn Hq Hf He. cbv zeta. run_save Hn Hq.
  rewrite Hf. after_save. rewrite He, update_same. after_save.
  rewrite update_same.
  repeat split.
  intros other Hne. rewrite !update_other by exact Hne. reflexivity.
Qed.

Lemma save_file_overwrites_witness :
  let a := editing (str "new")
             (machine (Env.update no_files "a.py"
                         (File true true (bytes_of "something longer")))
                      utf_8 [LF] no_python) in
  fst (save_file "a.py" a) = Ok tt
  /\ files (world (snd (save_file "a.py" a))) "a.py"%string
     = File true true (bytes_of "new").
Proof.
  cbv zeta.
  pose proof (save_file_overwrites
                (editing (str "new")
                   (machine (Env.update no_files "a.py"
                               (File true true (bytes_of "something longer")))
                            utf_8 [LF] no_python))
                "a.py" true (bytes_of "something longer") (bytes_of "new")
                eq_refl eq_refl eq_refl eq_refl) as [H1 [H2 _]].
  split; [exact H1 | exact H2].
Defined.

(** X5: a buffer that the locale's encoding cannot express is not saved,
    and the file is lost all the same: [open] has emptied it before
    [write] fails.  The error leaves [save_file]; the buffer is kept. *)
Theorem save_file_unencodable_empties (a : App) (file_name : string)
        (r : bool) (old : list byte) :
  nonempty file_name = true ->
  quiet (world a) ->
  files (world a) file_name = File r true old ->
  encode (preferred_encoding (world a))
         (translate_newlines (linesep (world a)) (document a)) = None ->
  let a' := snd (save_file file_name a) in
  fst (save_file file_name a)
  = Raise (UnicodeEncodeError (preferred_encoding (world a)))
  /\ files (world a') file_name = File r true []
  /\ document a' = document a
  /\ console a' = console a.
Proof.
  intros Hn Hq Hf He. cbv zeta. run_save Hn Hq.
  rewrite Hf. after_save. rewrite He. after_save.
  rewrite update_same. repeat split.
Qed.

Lemma save_file_unencodable_empties_witness :
  let a := editing [0x3BB]
             (machine (Env.update no_files "a.py"
                         (File true true (bytes_of "precious")))
                      cp1252 [CR; LF] no_python) in
  fst (save_file "a.py" a) = Raise (UnicodeEncodeError cp1252)
  /\ files (world (snd (save_file "a.py" a))) "a.py"%string
     = File true true [].
Proof.
  cbv zeta.
  pose proof (save_file_unencodable_empties
                (editing [0x3BB]
                   (machine (Env.update no_files "a.py"
                               (File true true (bytes_of "precious")))
                            cp1252 [CR; LF] no_python))
                "a.py" true (bytes_of "precious")
                eq_refl eq_refl eq_refl eq_refl) as [H1 [H2 _]].
  split; [exact H1 | exact H2].
Defined.

(** X6: a directory or a file that may not be written is refused: the
    error of [open] leaves [save_file], and no file, nor the buffer,
    changes. *)
Theorem save_file_refused (a : App) (file_name : string) :
  nonempty file_name = true ->
  quiet (world a) ->
  files (world a) file_name = Directory
  \/ (exists r old, files (world a) file_name = File r false old) ->
  let a' := snd (save_file file_name a) in
  (exists k, fst (save_file file_name a) = Raise (OSError k file_name))
  /\ files (world a') = files (world a)
  /\ document a' = document a
  /\ console a' = console a.
Proof.
  intros Hn Hq Hf. cbv zeta. run_save Hn Hq.
  destruct Hf as [Hf | [r [old Hf]]]; rewrite Hf; after_save;
    (split; [eexists; reflexivity | repeat split]).
Qed.

Lemma save_file_refused_witness :
  let a := editing (str "text")
             (machine (Env.update no_files "src" Directory)
                      utf_8 [LF] no_python) in
  exists k, fst (save_file "src" a) = Raise (OSError k "src").
Proof.
  cbv zeta.
  apply (save_file_refused
           (editing (str "text")
              (machine (Env.update no_files "src" Directory)
                       utf_8 [LF] no_python))
           "src" eq_refl eq_refl).
  left. reflexivity.
Defined.

(** ** ASCII text under the three encodings *)

Lemma is_ascii_scalar (c : Z) : is_ascii c = true -> is_scalar c = true.
Proof.
  unfold is_ascii, is_scalar, is_surrogate. intros H.
  apply andb_true_iff in H. destruct H as [H1 H2].
  apply Z.leb_le in H1. apply Z.ltb_lt in H2.
  destruct (Z.leb_spec 0 c); [| lia].
  destruct (Z.leb_spec c 1114111); [| lia].
  destruct (Z.leb_spec 55296 c); [lia |]. reflexivity.
Qed.

(** Under each of the encodings an ASCII character is the one byte of
    its code. *)
Lemma encode_ascii (enc : encoding) (s : text) :
  forallb is_ascii s = true -> encode enc s = Some (map mk_byte s).
Proof.
  intros H.
  assert (G : forall f,
             (forall c, is_ascii c = true -> f c = Some [mk_byte c]) ->
             encode_with f s = Some (map mk_byte s)).
  { intros f Hf. induction s as [| c s IH]; [reflexivity |].
    cbn [forallb] in H. apply andb_true_iff in H. destruct H as [Hc Hs].
    cbn [encode_with map]. rewrite (Hf c Hc), (IH Hs). reflexivity. }
  destruct enc; cbn [encode]; apply G; intros c Hc.
  - unfold utf8_encode_char. rewrite (is_ascii_scalar c Hc). cbn [negb].
    unfold is_ascii in Hc. apply andb_true_iff in Hc. destruct Hc as [_ Hc].
    change 128 with 0x80 in Hc. rewrite Hc. reflexivity.
  - unfold latin1_encode_char, is_ascii in *.
    apply andb_true_iff in Hc. destruct Hc as [H1 H2].
    apply Z.leb_le in H1. apply Z.ltb_lt in H2.
    destruct (Z.leb_spec 0 c); [| lia].
    destruct (Z.ltb_spec c 256); [reflexivity | lia].
  - unfold cp1252_encode_char, is_ascii in *. rewrite Hc. reflexivity.
Qed.

Lemma utf8_decode_ascii (s : text) :
  forallb is_ascii s = true -> utf8_decode (map mk_byte s) = Some s.
Proof.
  induction s as [| c s IH]; [reflexivity |].
  cbn [forallb]. intros H. apply andb_true_iff in H. destruct H as [Hc Hs].
  cbn [map]. rewrite utf8_decode_1, (IH Hs); [reflexivity |].
  unfold is_ascii in Hc. apply andb_true_iff in Hc. destruct Hc as [H1 H2].
  apply Z.leb_le in H1. apply Z.ltb_lt in H2. lia.
Qed.

Lemma translate_newlines_ascii (linesep s : text) :
  linesep = [LF] \/ linesep = [CR; LF] ->
  forallb is_ascii s = true ->
  forallb is_ascii (translate_newlines linesep s) = true.
Proof.
  intros Hsep. induction s as [| c s IH]; [reflexivity |].
  cbn [forallb]. intros H. apply andb_true_iff in H. destruct H as [Hc Hs].
  unfold translate_newlines in *. cbn [flat_map].
  rewrite forallb_app, (IH Hs), andb_true_r.
  destruct (c =? LF); [| cbn [forallb]; rewrite Hc; reflexivity].
  destruct Hsep as [-> | ->]; reflexivity.
Qed.

Lemma plain_text_ascii (s : text) :
  forallb is_ascii s = true -> ~ In CR s -> plain_text s = s.
Proof.
  intros Hascii Hcr. unfold plain_text.
  rewrite (universal_newlines_id s Hcr). clear Hcr.
  induction s as [| c s IH]; [reflexivity |].
  cbn [forallb] in Hascii. apply andb_true_iff in Hascii.
  destruct Hascii as [Hc Hs]. cbn [map]. rewrite (IH Hs). f_equal.
  unfold is_ascii in Hc. apply andb_true_iff in Hc. destruct Hc as [H1 H2].
  apply Z.leb_le in H1. apply Z.ltb_lt in H2. unfold plain_char.
  destruct (Z.eqb_spec c 0x2028); [lia |].
  destruct (Z.eqb_spec c 0x2029); [lia |].
  destruct (Z.eqb_spec c 0xFDD0); [lia |].
  destruct (Z.eqb_spec c 0xFDD1); [lia |].
  destruct (Z.eqb_spec c 0xA0); [lia | reflexivity].
Qed.

(** X8: an ASCII buffer without carriage returns survives saving and
    opening again whatever the locale's preferred encoding is, on a path
    that is a readable and writable file or where a file can be
    created. *)
Theorem ascii_save_then_open (a : App) (file_name : string) :
  nonempty file_name = true ->
  quiet (world a) ->
  linesep (world a) = [LF] \/ linesep (world a) = [CR; LF] ->
  files (world a) file_name = NoEntry
  \/ (exists old, files (world a) file_name = File true true old) ->
  forallb is_ascii (document a) = true ->
  ~ In CR (document a) ->
  exists a1 a2,
    save_file file_name a = (Ok tt, a1)
    /\ open_file file_name a1 = (Ok tt, a2)
    /\ document a2 = document a.
Proof.
  intros Hn Hq Hsep Hfile Hascii Hcr.
  pose proof (translate_newlines_ascii _ _ Hsep Hascii) as Ht.
  pose proof (encode_ascii (preferred_encoding (world a)) _ Ht) as Hbs.
  pose proof (utf8_decode_ascii _ Ht) as Hdec.
  set (bs := map mk_byte
               (translate_newlines (linesep (world a)) (document a))) in *.
  assert (Hsave : exists a1,
             save_file file_name a = (Ok tt, a1)
             /\ document a1 = document a
             /\ quiet (world a1)
             /\ files (world a1) file_name = File true true bs).
  { unfold save_file. rewrite Hn.
    unfold bind, open_, toPlainText, write.
    rewrite (enter_open_quiet _ _ _ Hq).
    cbn [world with_world with_files files events opened preferred_encoding
         linesep opened_as name document].
    destruct Hfile as [Hf | [old Hf]]; rewrite Hf;
      cbn [world with_world with_files files events opened
           preferred_encoding linesep opened_as name document];
      rewrite Hbs, update_same;
      eexists; (split; [reflexivity |]);
      cbn [world with_world with_files files events opened document];
      (split; [reflexivity | split; [reflexivity |]]);
      unfold Env.update; rewrite String.eqb_refl; reflexivity. }
  destruct Hsave as [a1 [Hsave [Hdoc [Hq1 Hf1]]]].
  assert (Hf2 : files (enter_open file_name (Read utf_8) (world a1)) file_name
                 = File true true bs)
    by (rewrite (enter_open_quiet _ _ _ Hq1); exact Hf1).
  exists a1. eexists. split; [exact Hsave |]. split.
  - exact (open_file_primary a1 file_name true bs _ Hn Hf2 Hdec).
  - cbn [document with_document].
    rewrite universal_newlines_translate by assumption.
    apply plain_text_ascii; assumption.
Qed.

Lemma ascii_save_then_open_witness :
  exists a1 a2,
    save_file "a.py"
      (editing (str "x = 1" ++ [LF] ++ str "print(x)")
         (machine no_files cp1252 [CR; LF] no_python)) = (Ok tt, a1)
    /\ open_file "a.py" a1 = (Ok tt, a2)
    /\ document a2 = str "x = 1" ++ [LF] ++ str "print(x)".
Proof.
  apply (ascii_save_then_open
           (editing (str "x = 1" ++ [LF] ++ str "print(x)")
              (machine no_files cp1252 [CR; LF] no_python))
           "a.py" eq_refl eq_refl).
  - right. reflexivity.
  - left. reflexivity.
  - reflexivity.
  - cbn. intuition discriminate.
Defined.

Lemma save_then_open_under_utf8_witness :
  exists a1 a2,
    save_file "a.py"
      (editing ([0xE9; 0x20AC; LF; 0x1F600])
         (machine no_files utf_8 [CR; LF] no_python)) = (Ok tt, a1)
    /\ open_file "a.py" a1 = (Ok tt, a2)
    /\ document a2 = [0xE9; 0x20AC; LF; 0x1F600].
Proof.
  apply (save_then_open_under_utf8
           (editing ([0xE9; 0x20AC; LF; 0x1F600])
              (machine no_files utf_8 [CR; LF] no_python))
           "a.py" eq_refl eq_refl eq_refl).
  - right. reflexivity.
  - left. reflexivity.
  - reflexivity.
  - reflexivity.
Defined.

(** ** Decoding and encoding again *)

Lemma byte_val_range (b : byte) : 0 <= byte_val b < 256.
Proof.
  unfold byte_val. pose proof (Byte.to_N_bounded b). lia.
Qed.

Lemma mk_byte_val (b : byte) : mk_byte (byte_val b) = b.
Proof.
  unfold mk_byte, byte_val. rewrite N2Z.id, Byte.of_to_N. reflexivity.
Qed.

Lemma digits_unique (a b : Z) :
  0 <= b < 64 -> (a * 64 + b) / 64 = a /\ (a * 64 + b) mod 64 = b.
Proof.
  intros Hb. split.
  - symmetry. apply (Z.div_unique _ 64 a b); lia.
  - symmetry. apply (Z.mod_unique _ 64 a b); lia.
Qed.

(** What the decoder accepts is what the encoder writes: a valid sequence
    is the encoding of its text. *)
Lemma utf8_encode_decode :
  forall (n : nat) (bs : list byte) (s : text),
    (List.length bs <= n)%nat ->
    utf8_decode bs = Some s -> encode utf_8 s = Some bs.
Proof.
  cbn [encode].
  induction n as [| n IH]; intros bs s Hlen.
  { destruct bs; [| cbn in Hlen; lia]. intros H. inversion H. reflexivity. }
  destruct bs as [| b0 r0]; [intros H; inversion H; reflexivity |].
  cbn [List.length] in Hlen. cbn [utf8_decode]. cbv zeta.
  pose proof (byte_val_range b0) as R0.
  destruct (Z.ltb_spec (byte_val b0) 0x80) as [H1 | H1].
  { destruct (utf8_decode r0) as [s' |] eqn:E; [| discriminate].
    intros Hdec. inversion Hdec. subst s. cbn [encode_with].
    rewrite (IH r0 s' ltac:(lia) E).
    unfold utf8_encode_char, is_scalar, is_surrogate.
    destruct (Z.leb_spec 0 (byte_val b0)); [| lia].
    destruct (Z.leb_spec (byte_val b0) 0x10FFFF); [| lia].
    destruct (Z.leb_spec 0xD800 (byte_val b0)); [lia |].
    cbn [andb negb].
    destruct (Z.ltb_spec (byte_val b0) 0x80); [| lia].
    rewrite mk_byte_val. reflexivity. }
  destruct ((0xC2 <=? byte_val b0) && (byte_val b0 <=? 0xDF)) eqn:H2.
  { apply andb_true_iff in H2. destruct H2 as [H2a H2b].
    apply Z.leb_le in H2a, H2b.
    destruct r0 as [| b1 r1]; [discriminate |].
    pose proof (byte_val_range b1) as R1.
    unfold is_cont.
    destruct (Z.leb_spec 0x80 (byte_val b1)); [| discriminate].
    destruct (Z.leb_spec (byte_val b1) 0xBF); [| discriminate].
    cbn [andb].
    destruct (utf8_decode r1) as [s' |] eqn:E; [| discriminate].
    intros Hdec. inversion Hdec. subst s. cbn [encode_with].
    cbn [List.length] in Hlen.
    rewrite (IH r1 s' ltac:(lia) E).
    set (a := byte_val b0 - 0xC0). set (d := byte_val b1 - 0x80).
    destruct (digits_unique a d ltac:(unfold d; lia)) as [Q M].
    unfold utf8_encode_char, is_scalar, is_surrogate.
    destruct (Z.leb_spec 0 (a * 64 + d)); [| unfold a, d in *; lia].
    destruct (Z.leb_spec (a * 64 + d) 0x10FFFF); [| unfold a, d in *; lia].
    destruct (Z.leb_spec 0xD800 (a * 64 + d)); [unfold a, d in *; lia |].
    cbn [andb negb].
    destruct (Z.ltb_spec (a * 64 + d) 0x80); [unfold a, d in *; lia |].
    destruct (Z.ltb_spec (a * 64 + d) 0x800); [| unfold a, d in *; lia].
    rewrite Q, M. unfold a, d.
    replace (0xC0 + (byte_val b0 - 0xC0)) with (byte_val b0) by lia.
    replace (0x80 + (byte_val b1 - 0x80)) with (byte_val b1) by lia.
    rewrite !mk_byte_val. reflexivity. }
  destruct ((0xE0 <=? byte_val b0) && (byte_val b0 <=? 0xEF)) eqn:H3.
  { apply andb_true_iff in H3. destruct H3 as [H3a H3b].
    apply Z.leb_le in H3a, H3b.
    destruct r0 as [| b1 [| b2 r2]]; try discriminate.
    pose proof (byte_val_range b1) as R1.
    pose proof (byte_val_range b2) as R2.
    unfold is_cont.
    destruct (Z.leb_spec 0x80 (byte_val b1)); [| discriminate].
    destruct (Z.leb_spec (byte_val b1) 0xBF); [| discriminate].
    destruct (Z.leb_spec 0x80 (byte_val b2)); [| discriminate].
    destruct (Z.leb_spec (byte_val b2) 0xBF); [| discriminate].
    cbn [andb].
    set (a := byte_val b0 - 0xE0). set (d := byte_val b1 - 0x80).
    set (e := byte_val b2 - 0x80).
    destruct (Z.leb_spec 0x800 (a * 4096 + d * 64 + e)) as [Hlow | ];
      [| discriminate].
    destruct (is_surrogate (a * 4096 + d * 64 + e)) eqn:Hsur;
      [discriminate |].
    cbn [andb negb].
    destruct (utf8_decode r2) as [s' |] eqn:E; [| discriminate].
    intros Hdec. inversion Hdec. subst s. cbn [encode_with].
    cbn [List.length] in Hlen.
    rewrite (IH r2 s' ltac:(lia) E).
    assert (Hd : 0 <= d < 64) by (unfold d; lia).
    assert (He : 0 <= e < 64) by (unfold e; lia).
    assert (Ha : 0 <= a < 16) by (unfold a; lia).
    destruct (digits_unique (a * 64 + d) e He) as [Q1 M1].
    destruct (digits_unique a d Hd) as [Q2 M2].
    replace ((a * 64 + d) * 64 + e) with (a * 4096 + d * 64 + e) in Q1, M1
      by lia.
    assert (Q3 : (a * 4096 + d * 64 + e) / 4096 = a).
    { replace 4096 with (64 * 64) at 2 by lia.
      rewrite <- Z.div_div by lia. rewrite Q1. exact Q2. }
    unfold utf8_encode_char, is_scalar. rewrite Hsur.
    remember (a * 4096 + d * 64 + e) as c eqn:Ec.
    destruct (Z.leb_spec 0 c); [| lia].
    destruct (Z.leb_spec c 0x10FFFF); [| lia].
    cbn [andb negb].
    destruct (Z.ltb_spec c 0x80); [lia |].
    destruct (Z.ltb_spec c 0x800); [lia |].
    destruct (Z.ltb_spec c 0x10000); [| lia].
    rewrite Q3, Q1, M1, M2. unfold a, d, e.
    replace (0xE0 + (byte_val b0 - 0xE0)) with (byte_val b0) by lia.
    replace (0x80 + (byte_val b1 - 0x80)) with (byte_val b1) by lia.
    replace (0x80 + (byte_val b2 - 0x80)) with (byte_val b2) by lia.
    rewrite !mk_byte_val. reflexivity. }
  destruct ((0xF0 <=? byte_val b0) && (byte_val b0 <=? 0xF4)) eqn:H4;
    [| discriminate].
  apply andb_true_iff in H4. destruct H4 as [H4a H4b].
  apply Z.leb_le in H4a, H4b.
  destruct r0 as [| b1 [| b2 [| b3 r3]]]; try discriminate.
  pose proof (byte_val_range b1) as R1.
  pose proof (byte_val_range b2) as R2.
  pose proof (byte_val_range b3) as R3.
  unfold is_cont.
  destruct (Z.leb_spec 0x80 (byte_val b1)); [| discriminate].
  destruct (Z.leb_spec (byte_val b1) 0xBF); [| discriminate].
  destruct (Z.leb_spec 0x80 (byte_val b2)); [| discriminate].
  destruct (Z.leb_spec (byte_val b2) 0xBF); [| discriminate].
  destruct (Z.leb_spec 0x80 (byte_val b3)); [| discriminate].
  destruct (Z.leb_spec (byte_val b3) 0xBF); [| discriminate].
  cbn [andb].
  set (a := byte_val b0 - 0xF0). set (d := byte_val b1 - 0x80).
  set (e := byte_val b2 - 0x80). set (f := byte_val b3 - 0x80).
  destruct (Z.leb_spec 0x10000 (a * 262144 + d * 4096 + e * 64 + f))
    as [Hlow | ]; [| discriminate].
  destruct (Z.leb_spec (a * 262144 + d * 4096 + e * 64 + f) 0x10FFFF)
    as [Hhigh | ]; [| discriminate].
  cbn [andb].
  destruct (utf8_decode r3) as [s' |] eqn:E; [| discriminate].
  intros Hdec. inversion Hdec. subst s. cbn [encode_with].
  cbn [List.length] in Hlen.
  rewrite (IH r3 s' ltac:(lia) E).
  assert (Hd : 0 <= d < 64) by (unfold d; lia).
  assert (He : 0 <= e < 64) by (unfold e; lia).
  assert (Hf : 0 <= f < 64) by (unfold f; lia).
  destruct (digits_unique ((a * 64 + d) * 64 + e) f Hf) as [Q1 M1].
  destruct (digits_unique (a * 64 + d) e He) as [Q2 M2].
  destruct (digits_unique a d Hd) as [Q3 M3].
  replace (((a * 64 + d) * 64 + e) * 64 + f)
    with (a * 262144 + d * 4096 + e * 64 + f) in Q1, M1 by lia.
  assert (Q4 : (a * 262144 + d * 4096 + e * 64 + f) / 4096 = a * 64 + d).
  { replace 4096 with (64 * 64) at 2 by lia.
    rewrite <- Z.div_div by lia. rewrite Q1. exact Q2. }
  assert (Q5 : (a * 262144 + d * 4096 + e * 64 + f) / 262144 = a).
  { replace 262144 with (4096 * 64) at 2 by lia.
    rewrite <- Z.div_div by lia. rewrite Q4. exact Q3. }
  unfold utf8_encode_char, is_scalar, is_surrogate.
  remember (a * 262144 + d * 4096 + e * 64 + f) as c eqn:Ec.
  destruct (Z.leb_spec 0 c); [| lia].
  destruct (Z.leb_spec c 0x10FFFF); [| lia].
  destruct (Z.leb_spec 0xD800 c); [| lia].
  destruct (Z.leb_spec c 0xDFFF); [lia |].
  cbn [andb negb].
  destruct (Z.ltb_spec c 0x80); [lia |].
  destruct (Z.ltb_spec c 0x800); [lia |].
  destruct (Z.ltb_spec c 0x10000); [lia |].
  rewrite Q5, Q4, Q1, M1, M3, M2. unfold a, d, e, f.
  replace (0xF0 + (byte_val b0 - 0xF0)) with (byte_val b0) by lia.
  replace (0x80 + (byte_val b1 - 0x80)) with (byte_val b1) by lia.
  replace (0x80 + (byte_val b2 - 0x80)) with (byte_val b2) by lia.
  replace (0x80 + (byte_val b3 - 0x80)) with (byte_val b3) by lia.
  rewrite !mk_byte_val. reflexivity.
Qed.

Lemma translate_newlines_LF (s : text) : translate_newlines [LF] s = s.
Proof.
  unfold translate_newlines.
  induction s as [| c s IH]; [reflexivity |].
  cbn [flat_map]. rewrite IH.
  destruct (Z.eqb_spec c LF) as [-> | _]; reflexivity.
Qed.

Lemma latin1_text_scalar (bs : list byte) :
  forallb is_scalar (latin1_decode bs) = true.
Proof.
  induction bs as [| b bs IH]; [reflexivity |].
  cbn [latin1_decode map forallb]. fold (latin1_decode bs). rewrite IH.
  rewrite andb_true_r. pose proof (byte_val_range b).
  unfold is_scalar, is_surrogate.
  destruct (Z.leb_spec 0 (byte_val b)); [| lia].
  destruct (Z.leb_spec (byte_val b) 1114111); [| lia].
  destruct (Z.leb_spec 55296 (byte_val b)); [lia | reflexivity].
Qed.

(** What saving leaves in a readable and writable file, when the buffer
    can be encoded. *)
Lemma save_file_content (a : App) (file_name : string) (old bs : list byte) :
  nonempty file_name = true ->
  quiet (world a) ->
  files (world a) file_name = File true true old ->
  encode (preferred_encoding (world a))
         (translate_newlines (linesep (world a)) (document a)) = Some bs ->
  fst (save_file file_name a) = Ok tt
  /\ files (world (snd (save_file file_name a))) file_name
     = File true true bs.
Proof.
  intros Hn Hq Hf He.
  unfold save_file. rewrite Hn.
  unfold bind, open_, toPlainText, write.
  rewrite (enter_open_quiet _ _ _ Hq).
  cbn [world with_world with_files files events opened preferred_encoding
       linesep opened_as name document].
  rewrite Hf.
  cbn [fst snd world with_world with_files files events opened
       preferred_encoding linesep opened_as name document].
  rewrite He, update_same.
  cbn [fst snd world with_world with_files files].
  rewrite update_same. split; reflexivity.
Qed.

(** What text mode and Qt make of a text holds its characters, LF and
    the space apart. *)
Lemma universal_newlines_In (s : text) (c : Z) :
  In c (universal_newlines s) -> c = LF \/ In c s.
Proof.
  assert (G : forall n s, (List.length s <= n)%nat ->
                          In c (universal_newlines s) -> c = LF \/ In c s).
  { induction n as [| n IH]; intros [| d r] Hlen; cbn [universal_newlines];
      try (intros []); cbn [List.length] in Hlen; try lia.
    destruct (Z.eqb_spec d CR) as [-> | Hd].
    - destruct r as [| e r'].
      + intros [H | []]. left. auto.
      + cbn [List.length] in Hlen.
        destruct (e =? LF); (intros [H | H]; [left; auto |]);
          apply IH in H; cbn [List.length]; try lia;
          destruct H as [H | H]; [left; exact H | right | left; exact H
                                 | right];
          cbn [In] in *; tauto.
    - intros [H | H]; [right; left; exact H |].
      apply IH in H; [| lia].
      destruct H as [H | H]; [left; exact H | right; right; exact H]. }
  apply (G (List.length s)). lia.
Qed.

Lemma plain_text_scalar (s : text) :
  forallb is_scalar s = true -> forallb is_scalar (plain_text s) = true.
Proof.
  intros H. rewrite forallb_forall in *. intros c Hc.
  unfold plain_text in Hc. apply in_map_iff in Hc.
  destruct Hc as [d [<- Hd]].
  assert (Hs : is_scalar d = true).
  { apply universal_newlines_In in Hd. destruct Hd as [-> | Hd];
      [reflexivity | apply H; exact Hd]. }
  unfold plain_char.
  destruct ((d =? 0x2028) || (d =? 0x2029) || (d =? 0xFDD0) || (d =? 0xFDD1));
    [reflexivity |].
  destruct (d =? 0xA0); [reflexivity | exact Hs].
Qed.

Lemma plain_text_universal_newlines (s : text) :
  plain_text (universal_newlines s) = plain_text s.
Proof.
  unfold plain_text.
  rewrite (universal_newlines_id _ (universal_newlines_no_CR s)).
  reflexivity.
Qed.

(** X9: opening a UTF-8 file and saving it straight back, on a machine
    that writes UTF-8 with LF line ends, leaves the file byte for byte as
    it was, if its text is one that [toPlainText] gives back unchanged: no
    carriage return, and none of U+00A0, U+2028, U+2029, U+FDD0, U+FDD1. *)
Theorem open_then_save_keeps_utf8 (a : App) (file_name : string)
        (bs : list byte) (s : text) :
  nonempty file_name = true ->
  quiet (world a) ->
  preferred_encoding (world a) = utf_8 ->
  linesep (world a) = [LF] ->
  files (world a) file_name = File true true bs ->
  decode utf_8 bs = Some s ->
  plain_text s = s ->
  let a1 := snd (open_file file_name a) in
  let a2 := snd (save_file file_name a1) in
  fst (open_file file_name a) = Ok tt
  /\ fst (save_file file_name a1) = Ok tt
  /\ document a2 = s
  /\ files (world a2) file_name = File true true bs.
Proof.
  intros Hn Hq Henc Hsep Hf Hd Hplain. cbv zeta.
  rewrite (open_file_quiet a file_name Hn Hq). cbv zeta. rewrite Hf, Hd.
  cbn [fst snd]. split; [reflexivity |].
  rewrite plain_text_universal_newlines, Hplain.
  match goal with
  | |- context [save_file file_name ?x] => set (a1 := x)
  end.
  assert (He : encode (preferred_encoding (world a1))
                 (translate_newlines (linesep (world a1)) (document a1))
               = Some bs).
  { unfold a1.
    cbn [world with_world with_document with_files preferred_encoding
         linesep document].
    rewrite Henc, Hsep, translate_newlines_LF.
    apply (utf8_encode_decode (List.length bs) bs s (Nat.le_refl _)).
    exact Hd. }
  destruct (save_file_content a1 file_name bs bs Hn eq_refl Hf He)
    as [H1 H2].
  split; [exact H1 |]. split; [| exact H2].
  unfold save_file. rewrite Hn. unfold bind, open_, toPlainText, write.
  rewrite (enter_open_quiet _ _ _ (eq_refl : quiet (world a1))).
  unfold a1.
  cbn [world with_world with_document with_files files events opened
       preferred_encoding linesep opened_as name document fst snd].
  rewrite Hf.
  cbn [world with_world with_document with_files files events opened
       preferred_encoding linesep opened_as name document fst snd].
  rewrite update_same.
  cbn [world with_world with_document with_files files events opened
       preferred_encoding linesep opened_as name document fst snd].
  rewrite Henc, Hsep, translate_newlines_LF.
  rewrite (utf8_encode_decode (List.length bs) bs s (Nat.le_refl _) Hd).
  reflexivity.
Qed.

Lemma open_then_save_keeps_utf8_witness :
  let a := editing (str "draft")
             (machine (Env.update no_files "a.py"
                         (File true true
                            (bytes_of "x = 1" ++ [x0a; xc3; xa9])))
                      utf_8 [LF] no_python) in
  files (world (snd (save_file "a.py" (snd (open_file "a.py" a)))))
        "a.py"%string
  = File true true (bytes_of "x = 1" ++ [x0a; xc3; xa9]).
Proof.
  cbv zeta.
  exact (proj2 (proj2 (proj2
            (open_then_save_keeps_utf8
               (editing (str "draft")
                  (machine (Env.update no_files "a.py"
                              (File true true
                                 (bytes_of "x = 1" ++ [x0a; xc3; xa9])))
                           utf_8 [LF] no_python))
               "a.py" (bytes_of "x = 1" ++ [x0a; xc3; xa9])
               (str "x = 1" ++ [LF; 0xE9])
               eq_refl eq_refl eq_refl eq_refl eq_refl eq_refl eq_refl)))).
Defined.

(** X10: a file that is not valid UTF-8, opened and saved straight back on
    a machine that writes UTF-8 with LF line ends, is rewritten: the bytes
    on disk are no longer the ones that were read; they are the UTF-8 form
    of the buffer, which is the Latin-1 reading of the old bytes as
    [toPlainText] gives it (0D and 0D 0A as a line feed, A0 as a
    space). *)
Theorem open_then_save_transcodes (a : App) (file_name : string)
        (bs : list byte) :
  nonempty file_name = true ->
  quiet (world a) ->
  preferred_encoding (world a) = utf_8 ->
  linesep (world a) = [LF] ->
  files (world a) file_name = File true true bs ->
  decode utf_8 bs = None ->
  let a1 := snd (open_file file_name a) in
  let a2 := snd (save_file file_name a1) in
  fst (open_file file_name a) = Ok tt
  /\ fst (save_file file_name a1) = Ok tt
  /\ exists bs',
       files (world a2) file_name = File true true bs'
       /\ bs' <> bs
       /\ decode utf_8 bs' = Some (plain_text (map byte_val bs)).
Proof.
  intros Hn Hq Henc Hsep Hf Hd. cbv zeta.
  rewrite (open_file_quiet a file_name Hn Hq). cbv zeta. rewrite Hf, Hd.
  cbn [fst snd]. split; [reflexivity |].
  rewrite plain_text_universal_newlines.
  match goal with
  | |- context [save_file file_name ?x] => set (a1 := x)
  end.
  destruct (utf8_encode_total _
              (plain_text_scalar _ (latin1_text_scalar bs))) as [bs' Hbs'].
  assert (He : encode (preferred_encoding (world a1))
                 (translate_newlines (linesep (world a1)) (document a1))
               = Some bs').
  { unfold a1.
    cbn [world with_world with_document with_files preferred_encoding
         linesep document].
    rewrite Henc, Hsep, translate_newlines_LF. exact Hbs'. }
  destruct (save_file_content a1 file_name bs bs' Hn eq_refl Hf He)
    as [H1 H2].
  split; [exact H1 |].
  exists bs'. split; [exact H2 |].
  pose proof (utf8_decode_encode _ _ Hbs') as Hback.
  split; [| exact Hback].
  intros E. subst bs'. rewrite Hd in Hback. discriminate Hback.
Qed.

Lemma open_then_save_transcodes_witness :
  let a := editing (str "draft")
             (machine (Env.update no_files "legacy.txt"
                         (File true true [x61; xa0; x62; xe9]))
                      utf_8 [LF] no_python) in
  exists bs',
    files (world (snd (save_file "legacy.txt"
                         (snd (open_file "legacy.txt" a)))))
          "legacy.txt"%string
    = File true true bs'
    /\ bs' <> [x61; xa0; x62; xe9]
    /\ decode utf_8 bs' = Some [97; 32; 98; 233].
Proof.
  cbv zeta.
  exact (proj2 (proj2
            (open_then_save_transcodes
               (editing (str "draft")
                  (machine (Env.update no_files "legacy.txt"
                              (File true true [x61; xa0; x62; xe9]))
                           utf_8 [LF] no_python))
               "legacy.txt" [x61; xa0; x62; xe9]
               eq_refl eq_refl eq_refl eq_refl eq_refl eq_refl))).
Defined.

(** ** More on running the buffer *)

(** X11: the ways [run_code] can end; it never changes the buffer or the
    console.  It returns after a run of the interpreter, having added
    exactly one window after the ones already shown; or it never returns,
    the process not exiting; or it raises, with no window added, and then
    never [CalledProcessError], the one exception it handles; when it
    raises before a process was started, nothing at all has changed. *)
Theorem run_code_outcomes (a : App) :
  let r := fst (run_code a) in
  let a' := snd (run_code a) in
  document a' = document a
  /\ console a' = console a
  /\ ((r = Ok tt
       /\ (exists s, output_windows a' = output_windows a ++ [s])
       /\ runs (world a') = S (runs (world a)))
      \/ (r = NoReturn /\ a' = a)
      \/ (exists e,
             r = Raise e /\ is_CalledProcessError e = false
             /\ output_windows a' = output_windows a
             /\ (a' = a \/ runs (world a') = S (runs (world a))))).
Proof.
  cbv zeta. unfold run_code, bind, try_except, toPlainText, check_output.
  destruct (fsencode (filesystem_encoding (world a)) (document a))
    as [arg |].
  2:{ cbn. repeat split. right. right. eexists.
      repeat split. left. reflexivity. }
  destruct (existsb (Z.eqb 0) (document a)).
  { cbn. repeat split. right. right. eexists.
    repeat split. left. reflexivity. }
  destruct (python (world a)) as [kind | run].
  { cbn. repeat split. right. right. eexists.
    repeat split. left. reflexivity. }
  destruct (arg_max (world a) <? Z.of_nat (List.length arg)).
  { cbn. repeat split. right. right. eexists.
    repeat split. left. reflexivity. }
  destruct (run (document a) (runs (world a)) (files (world a)))
    as [[[returncode out] fs] |].
  2:{ cbn. repeat split. right. left. split; reflexivity. }
  destruct (captured (world a) out) as [s |].
  2:{ cbn. repeat split. right. right. eexists.
      repeat split. right. reflexivity. }
  destruct (returncode =? 0); cbn; repeat split; left;
    (split; [reflexivity | split; [eexists; reflexivity | reflexivity]]).
Qed.

(** X12: the failures [run_code] does not handle.  A buffer that cannot
    be encoded as an argument, a buffer with a NUL character, an
    executable [python] that cannot be started (for one, because there is
    none), a buffer too long for one argument, and output that is not text
    under the locale's encoding each end [run_code] with an exception, no
    window shown. *)
Theorem run_code_unhandled (a : App) :
  let fsenc := filesystem_encoding (world a) in
  (fsencode fsenc (document a) = None ->
   run_code a = (Raise (UnicodeEncodeError fsenc), a))
  /\ (fsencode fsenc (document a) <> None ->
      existsb (Z.eqb 0) (document a) = true ->
      run_code a = (Raise (ValueError "embedded null byte"), a))
  /\ (forall kind,
         fsencode fsenc (document a) <> None ->
         existsb (Z.eqb 0) (document a) = false ->
         python (world a) = CannotStart kind ->
         run_code a = (Raise (OSError kind "python"), a))
  /\ (forall arg run,
         fsencode fsenc (document a) = Some arg ->
         existsb (Z.eqb 0) (document a) = false ->
         python (world a) = Starts run ->
         arg_max (world a) < Z.of_nat (List.length arg) ->
         run_code a = (Raise (OSError E2BIG "python"), a))
  /\ (forall arg run returncode out fs,
         fsencode fsenc (document a) = Some arg ->
         existsb (Z.eqb 0) (document a) = false ->
         python (world a) = Starts run ->
         Z.of_nat (List.length arg) <= arg_max (world a) ->
         run (document a) (runs (world a)) (files (world a))
         = Some (returncode, out, fs) ->
         captured (world a) out = None ->
         run_code a
         = (Raise (UnicodeDecodeError (preferred_encoding (world a))),
            with_world a (after_run (world a) fs))).
Proof.
  cbv zeta. unfold run_code, bind, try_except, toPlainText, check_output.
  repeat split.
  - intros H. rewrite H. reflexivity.
  - intros H0 H.
    destruct (fsencode (filesystem_encoding (world a)) (document a));
      [| contradiction].
    rewrite H. reflexivity.
  - intros kind H0 H1 H2.
    destruct (fsencode (filesystem_encoding (world a)) (document a));
      [| contradiction].
    rewrite H1, H2. reflexivity.
  - intros arg run H0 H1 H2 H3. rewrite H0, H1, H2.
    destruct (Z.ltb_spec (arg_max (world a)) (Z.of_nat (List.length arg)));
      [reflexivity | lia].
  - intros arg run returncode out fs H0 H1 H2 H3 H4 H5. rewrite H0, H1, H2.
    destruct (Z.ltb_spec (arg_max (world a)) (Z.of_nat (List.length arg)));
      [lia |].
    rewrite H4, H5. reflexivity.
Qed.

Lemma run_code_unhandled_witness :
  run_code (editing [0x3BB] (machine no_files cp1252 [CR; LF] no_python))
  = (Raise (UnicodeEncodeError cp1252),
     editing [0x3BB] (machine no_files cp1252 [CR; LF] no_python))
  /\ run_code (editing (str "x" ++ [0])
                 (machine no_files utf_8 [LF] (Starts sample_python)))
     = (Raise (ValueError "embedded null byte"),
        editing (str "x" ++ [0])
          (machine no_files utf_8 [LF] (Starts sample_python)))
  /\ run_code (editing hello (machine no_files utf_8 [LF] no_python))
     = (Raise (OSError FileNotFoundError "python"),
        editing hello (machine no_files utf_8 [LF] no_python))
  /\ fst (run_code (editing hello
                      (machine no_files utf_8 [LF] (Starts garbled))))
     = Raise (UnicodeDecodeError utf_8).
Proof.
  split; [| split; [| split]].
  - exact (proj1 (run_code_unhandled
                    (editing [0x3BB]
                       (machine no_files cp1252 [CR; LF] no_python)))
                 eq_refl).
  - refine (proj1 (proj2 (run_code_unhandled
                            (editing (str "x" ++ [0])
                               (machine no_files utf_8 [LF]
                                  (Starts sample_python)))))
                  _ eq_refl).
    discriminate.
  - refine (proj1 (proj2 (proj2 (run_code_unhandled
                                   (editing hello
                                      (machine no_files utf_8 [LF]
                                         no_python)))))
                  FileNotFoundError _ eq_refl eq_refl).
    discriminate.
  - rewrite (proj2 (proj2 (proj2 (proj2
               (run_code_unhandled
                  (editing hello
                     (machine no_files utf_8 [LF] (Starts garbled)))))))
               (bytes_of "print(" ++ [x22] ++ bytes_of "hi" ++ [x22]
                ++ bytes_of ")")
               garbled 1 [xff] no_files
               eq_refl eq_refl eq_refl ltac:(cbn; lia) eq_refl eq_refl).
    reflexivity.
Defined.

(** ** More on the highlighter *)

(** X14: [create_rule] keeps the rules registered so far, in their order,
    and adds one rule per pattern after them, in the order of the
    patterns, all with the one format. *)
Theorem create_rule_appends (patterns : list regex) (color : QColor)
        (rules : list rule) :
  create_rule patterns color rules
  = rules ++ map (fun pattern => (pattern, color)) patterns
  /\ List.length (create_rule patterns color rules)
     = (List.length rules + List.length patterns)%nat.
Proof.
  assert (H : create_rule patterns color rules
              = rules ++ map (fun pattern => (pattern, color)) patterns).
  { unfold create_rule. revert rules.
    induction patterns as [| p patterns IH]; intros rules; cbn [fold_left map].
    - rewrite app_nil_r. reflexivity.
    - rewrite IH, <- app_assoc. reflexivity. }
  split; [exact H |]. rewrite H, length_app, length_map. reflexivity.
Qed.

Section Scanning.
Variable U : Unicode.

(** What one rule's loop adds, entered at a match of at least one
    character or at -1: spans within the line, each beginning no earlier
    than the last one ends, and between them holding every position where
    the pattern matches from the entry on. *)
Lemma scan_covers (expression : regex) (text : QString)
      (format : QTextCharFormat) :
  (1 <= min_len expression)%nat ->
  forall (fuel : nat) (index length : Z) (b b' : Block) (from : nat),
    (index = -1
     /\ forall p j, (from <= p <= List.length text)%nat ->
                    ~ Matches U text expression p j)
    \/ (exists i l,
           index = Z.of_nat i /\ length = Z.of_nat l
           /\ (from <= i)%nat /\ (i + l <= List.length text)%nat
           /\ (1 <= l)%nat
           /\ forall p j, (from <= p < i)%nat ->
                          ~ Matches U text expression p j) ->
    scan U fuel expression text format index length b = Some b' ->
    exists new,
      spans b' = spans b ++ new
      /\ Forall (within text) new
      /\ Forall (fun sp => Z.of_nat from <= start sp) new
      /\ StronglySorted follows new
      /\ forall p j, (from <= p <= List.length text)%nat ->
                     Matches U text expression p j ->
                     exists sp, In sp new /\ holds sp p.
Proof.
  intros Hmin.
  induction fuel as [| fuel IH]; intros index length b b' from Hentry H;
    cbn [scan] in H.
  - destruct Hentry as [[-> Hnone] | [i [l [-> _]]]];
      [| destruct (Z.ltb_spec (Z.of_nat i) 0); [lia | discriminate]].
    inversion H; subst. exists []. rewrite app_nil_r.
    repeat split; try constructor.
    intros p j Hp Hm. exfalso. apply (Hnone p j Hp Hm).
  - destruct Hentry as [[-> Hnone] | [i [l [-> [-> [Hfrom [Hend [Hl Hgap]]]]]]]].
    + inversion H; subst. exists []. rewrite app_nil_r.
      repeat split; try constructor.
      intros p j Hp Hm. exfalso. apply (Hnone p j Hp Hm).
    + destruct (Z.ltb_spec (Z.of_nat i) 0) as [Hneg | _]; [lia |].
      destruct (indexIn U expression text (Z.of_nat i + Z.of_nat l))
        as [index' length'] eqn:E.
      rewrite <- Nat2Z.inj_add in E.
      pose proof (indexIn_first U expression text (i + l) index' length'
                    Hend E) as Hnext.
      assert (Hentry' :
               (index' = -1
                /\ forall p j, (i + l <= p <= List.length text)%nat ->
                               ~ Matches U text expression p j)
               \/ (exists i' l',
                      index' = Z.of_nat i' /\ length' = Z.of_nat l'
                      /\ (i + l <= i')%nat
                      /\ (i' + l' <= List.length text)%nat
                      /\ (1 <= l')%nat
                      /\ forall p j, (i + l <= p < i')%nat ->
                                     ~ Matches U text expression p j)).
      { destruct Hnext as [Hn | [i' [l' [H1 [H2 [H3 [H4 [H5 [_ H7]]]]]]]]];
          [left; exact Hn | right].
        exists i', l'. repeat split; try assumption. lia. }
      destruct (IH index' length' _ b' (i + l)%nat Hentry' H)
        as [new [Hnew [Hin [Hge [Hsorted Hcover]]]]].
      exists ((Z.of_nat i, Z.of_nat l, format) :: new).
      split; [rewrite Hnew; cbn [setFormat spans];
              rewrite <- app_assoc; reflexivity |].
      split; [constructor; [| exact Hin];
              unfold within, start, count; cbn [fst snd]; lia |].
      split; [constructor;
              [unfold start; cbn [fst]; lia |];
              rewrite Forall_forall in *; intros sp Hsp;
              specialize (Hge sp Hsp); lia |].
      split; [constructor; [exact Hsorted |];
              rewrite Forall_forall in *; intros sp Hsp;
              specialize (Hge sp Hsp);
              unfold follows, start, count; cbn [fst snd];
              unfold start in Hge; lia |].
      intros p j Hp Hm.
      destruct (Nat.lt_ge_cases p (i + l)) as [Hlt | Hge'].
      * exists (Z.of_nat i, Z.of_nat l, format). split; [left; reflexivity |].
        unfold holds, start, count. cbn [fst snd].
        destruct (Nat.lt_ge_cases p i) as [Hpi | Hpi];
          [exfalso; apply (Hgap p j); [lia | exact Hm] | lia].
      * destruct (Hcover p j) as [sp [Hsp Hh]]; [lia | exact Hm |].
        exists sp. split; [right; exact Hsp | exact Hh].
Qed.

(** One rule's spans, entered from the first search of the line. *)
Lemma apply_rule_scanned (fuel : nat) (text : QString) (pattern : regex)
      (format : QTextCharFormat) (b b' : Block) :
  (1 <= min_len pattern)%nat ->
  apply_rule U fuel text (pattern, format) b = Some b' ->
  exists new,
    spans b' = spans b ++ new
    /\ Forall (within text) new
    /\ StronglySorted follows new
    /\ forall p j, Matches U text pattern p j ->
                   (p <= List.length text)%nat ->
                   exists sp, In sp new /\ holds sp p.
Proof.
  intros Hmin H.
  unfold apply_rule in H.
  destruct (indexIn U pattern text 0) as [index length] eqn:E.
  change 0 with (Z.of_nat 0) in E.
  pose proof (indexIn_first U pattern text 0 index length (Nat.le_0_l _) E)
    as Hfirst.
  assert (Hentry :
           (index = -1
            /\ forall p j, (0 <= p <= List.length text)%nat ->
                           ~ Matches U text pattern p j)
           \/ (exists i l,
                  index = Z.of_nat i /\ length = Z.of_nat l
                  /\ (0 <= i)%nat /\ (i + l <= List.length text)%nat
                  /\ (1 <= l)%nat
                  /\ forall p j, (0 <= p < i)%nat ->
                                 ~ Matches U text pattern p j)).
  { destruct Hfirst as [Hn | [i [l [H1 [H2 [H3 [H4 [H5 [_ H7]]]]]]]]];
      [left; exact Hn | right].
    exists i, l. repeat split; try assumption. lia. }
  destruct (scan_covers pattern text format Hmin fuel index length b b' 0%nat
              Hentry H) as [new [Hnew [Hin [_ [Hsorted Hcover]]]]].
  exists new. split; [exact Hnew |].
  split; [exact Hin | split; [exact Hsorted |]].
  intros p j Hm Hp. apply (Hcover p j); [lia | exact Hm].
Qed.

(** X15: what each rule does to a line.  Its spans lie within the line and
    are not empty; they come left to right without overlapping; and every
    place where the rule's pattern matches lies in one of them, so no
    occurrence is missed. *)
Theorem apply_rule_covers (fuel : nat) (text : QString) (r : rule)
        (b b' : Block) :
  (1 <= min_len (fst r))%nat ->
  apply_rule U fuel text r b = Some b' ->
  exists new,
    spans b' = spans b ++ new
    /\ Forall (fun sp => colour sp = snd r) new
    /\ Forall (within text) new
    /\ StronglySorted follows new
    /\ forall p j, Matches U text (fst r) p j ->
                   (p <= List.length text)%nat ->
                   exists sp, In sp new /\ holds sp p.
Proof.
  destruct r as [pattern format]. cbn [fst snd]. intros Hmin H.
  pose proof (apply_rule_longest_matches U fuel text (pattern, format) b b' H)
    as [new0 [Hnew0 Hall0]].
  destruct (apply_rule_scanned fuel text pattern format b b' Hmin H)
    as [new [Hnew [Hin [Hsorted Hcover]]]].
  exists new. split; [exact Hnew |].
  assert (new0 = new)
    by (apply (app_inv_head (spans b)); rewrite <- Hnew0; exact Hnew).
  subst new0.
  split; [| split; [exact Hin | split; [exact Hsorted | exact Hcover]]].
  rewrite Forall_forall in *. intros sp Hsp. apply (Hall0 sp Hsp).
Qed.

(** X16: every span of a highlighted line lies within the line and is not
    empty, so no call of [setFormat] is out of range; and the block keeps
    one format per character of the line. *)
Theorem highlightBlock_in_range (fuel : nat) (text : QString) (b : Block) :
  highlightBlock U fuel text = Some b ->
  Forall (within text) (spans b)
  /\ List.length (formatChanges b) = List.length text.
Proof.
  unfold highlightBlock. intros H. split.
  - assert (G : forall rules b0 b1,
               Forall (fun r => (1 <= min_len (fst r))%nat) rules ->
               for_rules U fuel text rules b0 = Some b1 ->
               Forall (within text) (spans b0) ->
               Forall (within text) (spans b1)).
    { induction rules as [| r rules IH]; intros b0 b1 Hall H0 Hb0.
      - inversion H0; subst. exact Hb0.
      - cbn [for_rules] in H0.
        destruct (apply_rule U fuel text r b0) as [b2 |] eqn:E;
          [| discriminate].
        inversion Hall as [| ? ? Hr Hrest]; subst.
        destruct r as [pattern format]. cbn [fst] in Hr.
        destruct (apply_rule_scanned fuel text pattern format b0 b2 Hr E)
          as [new [Hnew [Hin _]]].
        apply (IH b2 b1 Hrest H0). rewrite Hnew.
        apply Forall_app. split; assumption. }
    apply (G highlighting_rules (fresh text) b
             registered_patterns_consume H).
    constructor.
  - destruct (for_rules_spans U text (List.length text) fuel
                highlighting_rules (fresh text) b rules_in_order H
                (fresh_replayed text)) as [[Hlen _] _].
    exact Hlen.
Qed.

End Scanning.

Lemma apply_rule_covers_witness :
  exists b' new,
    apply_rule basic_latin 16 (str "if x: if y: pass") (lit "if", blue)
               (fresh (str "if x: if y: pass")) = Some b'
    /\ spans b' = new
    /\ StronglySorted follows new
    /\ forall p j,
         Matches basic_latin (str "if x: if y: pass") (lit "if") p j ->
         (p <= 16)%nat ->
         exists sp, In sp new /\ holds sp p.
Proof.
  assert (H : apply_rule basic_latin 16 (str "if x: if y: pass")
                (lit "if", blue) (fresh (str "if x: if y: pass"))
              = Some (setFormat 6 2 blue
                        (setFormat 0 2 blue
                           (fresh (str "if x: if y: pass")))))
    by (vm_compute; reflexivity).
  destruct (apply_rule_covers basic_latin 16 (str "if x: if y: pass")
              (lit "if", blue) (fresh (str "if x: if y: pass")) _
              ltac:(cbn; lia) H)
    as [new [H1 [_ [_ [H3 H4]]]]].
  eexists. exists new. split; [exact H |].
  split; [exact H1 | split; [exact H3 | exact H4]].
Defined.

Lemma highlightBlock_in_range_witness :
  exists b,
    highlightBlock basic_latin 19 (str "if x: return 1 # if") = Some b
    /\ Forall (within (str "if x: return 1 # if")) (spans b)
    /\ List.length (formatChanges b) = 19%nat.
Proof.
  assert (H : exists b,
             highlightBlock basic_latin 19 (str "if x: return 1 # if")
             = Some b)
    by (eexists; vm_compute; reflexivity).
  destruct H as [b H]. exists b. split; [exact H |].
  exact (highlightBlock_in_range basic_latin 19 _ b H).
Defined.

(** ** More on the gutter and its events *)

Lemma labels_app (p q : list painted) : labels (p ++ q) = labels p ++ labels q.
Proof. apply flat_map_app. Qed.

Lemma labels_numbered (editor : Editor) (width : Z) (l : list nat) :
  labels (flat_map (numbered editor width) l)
  = map (fun i => str_int (Z.of_nat (S i))) l.
Proof.
  induction l as [| i l IH]; [reflexivity |].
  cbn [flat_map map]. rewrite labels_app, IH. reflexivity.
Qed.

Lemma seq_sorted (len : nat) :
  forall first, StronglySorted lt (seq first len).
Proof.
  induction len as [| len IH]; intros first; cbn [seq]; constructor.
  - apply IH.
  - apply Forall_forall. intros i Hi. apply in_seq in Hi. lia.
Qed.

Lemma filter_sorted {A : Type} (R : A -> A -> Prop) (f : A -> bool)
      (l : list A) :
  StronglySorted R l -> StronglySorted R (filter f l).
Proof.
  induction l as [| x l IH]; intros H; [constructor |].
  apply StronglySorted_inv in H. destruct H as [H Hx].
  cbn [filter]. destruct (f x); [| apply IH; exact H].
  constructor; [apply IH; exact H |].
  rewrite Forall_forall in *. intros y Hy.
  apply filter_In in Hy. apply Hx. apply Hy.
Qed.

(** X17: the numbers a paint draws.  They are the line numbers of blocks of
    the document, none before the first visible block and none after the
    last block, each at most once and in increasing order from top to
    bottom; when the first visible block lies past the end, only the
    background is filled. *)
Theorem paintEvent_labels (editor : Editor) (width : Z) (rect : QRect) :
  exists blocks,
    labels (paintEvent editor width rect)
    = map (fun i => str_int (Z.of_nat (S i))) blocks
    /\ StronglySorted lt blocks
    /\ Forall (fun i => (firstVisibleBlock editor <= i < blockCount editor)%nat)
              blocks
    /\ ((blockCount editor <= firstVisibleBlock editor)%nat ->
        paintEvent editor width rect = [fillRect rect (40, 40, 40)]).
Proof.
  exists (visible_blocks editor rect).
  assert (E : paintEvent editor width rect
              = fillRect rect (40, 40, 40)
                :: flat_map (numbered editor width)
                     (visible_blocks editor rect)).
  { unfold paintEvent, visible_blocks.
    rewrite (paint_blocks_numbered editor width rect _ _ eq_refl).
    rewrite length_skipn. reflexivity. }
  split; [| split; [| split]].
  - rewrite E. cbn [labels flat_map app]. apply labels_numbered.
  - unfold visible_blocks. apply filter_sorted, seq_sorted.
  - apply Forall_forall. intros i Hi. unfold visible_blocks in Hi.
    apply filter_In in Hi. destruct Hi as [Hi _]. apply in_seq in Hi. lia.
  - intros Hpast. rewrite E. unfold visible_blocks.
    replace (blockCount editor - firstVisibleBlock editor)%nat with 0%nat
      by lia.
    reflexivity.
Qed.

Lemma paintEvent_labels_witness :
  paintEvent {| blockBoundingGeometry := blockBoundingGeometry three_lines;
                firstVisibleBlock := 3;
                contentOffset := contentOffset three_lines |}
             40 {| rx := 0; ry := 0; rwidth := 40; rheight := 30 |}
  = [fillRect {| rx := 0; ry := 0; rwidth := 40; rheight := 30 |}
              (40, 40, 40)].
Proof.
  destruct (paintEvent_labels
              {| blockBoundingGeometry := blockBoundingGeometry three_lines;
                 firstVisibleBlock := 3;
                 contentOffset := contentOffset three_lines |}
              40 {| rx := 0; ry := 0; rwidth := 40; rheight := 30 |})
    as [blocks [_ [_ [_ H]]]].
  apply H. cbn. lia.
Defined.

(** X18: a change of the block count alone repaints nothing.  The slot
    connected at line 83 is given the count as [rect] and returns at line
    119: however many such signals arrive, the editor is as before. *)
Theorem block_count_signals_ignored (counts : list Z) (w : Widget) :
  emit_all (map blockCountChanged counts) w = (Ok tt, w).
Proof.
  induction counts as [| n counts IH]; [reflexivity |].
  cbn [map emit_all]. unfold bind.
  change (emit (blockCountChanged n) w) with (Ok tt, w).
  exact IH.
Qed.

(** X19: what the editor keeps true over any sequence of signals and
    resizes, once the gutter is 40 wide.  No event raises; the gutter
    stays 40 wide; every repaint asked for starts at the gutter's left
    edge and is 40 wide, and earlier requests are kept; and nothing is
    printed, the payloads of the connected signals being what the slots
    expect or ignore. *)
Theorem gutter_invariant (events : list event) (w : Widget) :
  rwidth (geometry w) = fixed_width ->
  Forall in_gutter (requested w) ->
  exists w',
    on_events events w = (Ok tt, w')
    /\ rwidth (geometry w') = fixed_width
    /\ Forall in_gutter (requested w')
    /\ (exists new, requested w' = requested w ++ new)
    /\ printed w' = printed w.
Proof.
  revert w. induction events as [| e events IH]; intros w Hw Hreq.
  - exists w. repeat split; try assumption.
    exists []. rewrite app_nil_r. reflexivity.
  - assert (Hstep : exists w1,
               on_event e w = (Ok tt, w1)
               /\ rwidth (geometry w1) = fixed_width
               /\ Forall in_gutter (requested w1)
               /\ (exists new, requested w1 = requested w ++ new)
               /\ printed w1 = printed w).
    { destruct e as [[n | rect dy] | cr].
      - exists w. repeat split; try assumption.
        exists []. rewrite app_nil_r. reflexivity.
      - cbn [on_event]. rewrite updateRequest_requests_band.
        eexists. split; [reflexivity |]. cbn [geometry requested printed].
        repeat split; try assumption.
        + apply Forall_app. split; [exact Hreq |].
          constructor; [| constructor]. cbn. split; [reflexivity | exact Hw].
        + eexists. reflexivity.
      - eexists. split; [reflexivity |]. cbn [geometry requested printed].
        repeat split.
        + apply Forall_app. split; [exact Hreq |].
          constructor; [exact I | constructor].
        + eexists. reflexivity. }
    destruct Hstep as [w1 [H1 [Hw1 [Hreq1 [[new1 Hnew1] Hp1]]]]].
    destruct (IH w1 Hw1 Hreq1) as [w' [H' [Hw' [Hreq' [[new Hnew] Hp']]]]].
    exists w'. cbn [on_events]. unfold bind at 1. rewrite H1.
    repeat split; try assumption.
    + exists (new1 ++ new). rewrite Hnew, Hnew1, app_assoc. reflexivity.
    + rewrite Hp'. exact Hp1.
Qed.

Lemma gutter_invariant_witness :
  exists w',
    on_events [ resized {| rx := 0; ry := 0; rwidth := 640; rheight := 480 |};
                signalled (blockCountChanged 2);
                signalled (updateRequest
                             {| rx := 0; ry := 16; rwidth := 600;
                                rheight := 464 |} 0) ]
              plain_widget = (Ok tt, w')
    /\ rwidth (geometry w') = fixed_width
    /\ Forall in_gutter (requested w')
    /\ (exists new, requested w' = requested plain_widget ++ new)
    /\ printed w' = printed plain_widget.
Proof.
  apply gutter_invariant; [reflexivity | constructor].
Defined.
